(** * Verification of the plant scheduler, entity store, competition grid
      and plant biology of eco-system-evolution.

    Part I embeds the Python sources ([plant_manager.py], [world.py],
    [creatures.py]); Part II states and proves the properties.

    Conventions of the embedding:
    - simulation seconds of the scheduler are integers ([Z]); Python's
      [int(a / b)] on them is [Z.quot];
    - the competition grid works over [Q]; [np.pi] is the exact dyadic
      value of the IEEE double, float32 rounding of stored results is not
      modelled;
    - the plant biology works over [R] with [sqrt];
    - constants that the modules read from [constants] but that the
      [constants.py] of the repository does not define are parameters. *)

From Stdlib Require Import ZArith List Bool Lia Sorting.Sorted Sorting.Permutation.
From Stdlib Require Import QArith Qround Qminmax Psatz.
From Stdlib Require Import Reals Lra.
From Stdlib Require String.
Import ListNotations.

(* ================================================================== *)
(** ** Part I: embedding of the sources                                *)
(* ================================================================== *)

(** *** Python list helpers *)
Module Py.
Local Open Scope Z_scope.


Fixpoint set_nat {A} (l : list A) (n : nat) (x : A) : option (list A) :=
  match l, n with
  | [], _ => None
  | _ :: r, O => Some (x :: r)
  | y :: r, S n' => option_map (cons y) (set_nat r n' x)
  end.

(** [l[i] = x]; [None] is an IndexError. *)
Definition set {A} (l : list A) (i : Z) (x : A) : option (list A) :=
  if 0 <=? i then set_nat l (Z.to_nat i) x
  else if 0 <=? Z.of_nat (length l) + i
       then set_nat l (Z.to_nat (Z.of_nat (length l) + i)) x
       else None.


End Py.

(** *** Temporal event scheduler: [World.schedule_plant_update],
        [schedule_animal_update], [add_newborn] and [World.update_in_bulk]
        from line 380 on (competition updates, event loop, clock).

    The Python dicts [plant_update_schedule] / [animal_update_schedule]
    are association lists from a key to a bucket; a new key is appended at
    the end (dict insertion order).  [pop] collects every entry of the key,
    which on a dict (unique keys) is [dict.pop].  The biology of a tick,
    the competition-grid passes and the housekeeping are parameters: the
    world part [W] they act on, [is_alive], [update] (which also returns
    the organisms it handed to [add_newborn], in call order). *)
Module Scheduler.
Local Open Scope Z_scope.

Inductive creature := Plant (n : nat) | Animal (n : nat).

Definition creature_eqb (a b : creature) : bool :=
  match a, b with
  | Plant n, Plant m => Nat.eqb n m
  | Animal n, Animal m => Nat.eqb n m
  | _, _ => false
  end.

Definition PLANT_LOGIC_UPDATE_INTERVAL_SECONDS : Z := 3600.
Definition ANIMAL_UPDATE_TICK_SECONDS : Z := 60.
Definition PLANT_COMPETITION_UPDATE_INTERVAL_SECONDS : Z := 86400.

(** [time_step] handed to [creature.update]; also the rescheduling delay. *)
Definition interval_of (c : creature) : Z :=
  match c with
  | Plant _ => PLANT_LOGIC_UPDATE_INTERVAL_SECONDS
  | Animal _ => ANIMAL_UPDATE_TICK_SECONDS
  end.

Definition schedule := list (Z * list creature).

(** [if key not in d: d[key] = []] then [d[key].append(c)]. *)
Fixpoint bucket_append (s : schedule) (key : Z) (c : creature) : schedule :=
  match s with
  | [] => [(key, [c])]
  | (k, l) :: r => if k =? key then (k, l ++ [c]) :: r
                   else (k, l) :: bucket_append r key c
  end.

(** [int(future_time / interval) * interval]. *)
Definition schedule_key (now delay interval : Z) : Z :=
  Z.quot (now + delay) interval * interval.

(** [min(d.keys()) if d else float('inf')]; [None] is infinity. *)
Fixpoint min_key (s : schedule) : option Z :=
  match s with
  | [] => None
  | (k, _) :: r => match min_key r with
                   | None => Some k
                   | Some m => Some (Z.min k m)
                   end
  end.

Definition opt_min (a b : option Z) : option Z :=
  match a, b with
  | None, x | x, None => x
  | Some x, Some y => Some (Z.min x y)
  end.

(** [d.pop(key)] (guarded by [key in d]): the bucket and the rest. *)
Definition pop (key : Z) (s : schedule) : list creature * schedule :=
  (concat (map snd (filter (fun e => fst e =? key) s)),
   filter (fun e => negb (fst e =? key)) s).

Section Loop.
Variable W : Type.
Variable is_alive : W -> creature -> bool.
(** [creature.update(world, time_step)] at the given clock: the new
    world and the newborns passed to [add_newborn]. *)
Variable update : Z -> creature -> Z -> W -> W * list creature.
(** [_populate_competition_grids(); _calculate_plant_competition()]. *)
Variable competition_update : W -> W.
(** [_process_housekeeping()]. *)
Variable housekeeping : W -> W.

Record world := mkWorld {
  total_sim_seconds : Z;
  plant_update_schedule : schedule;
  animal_update_schedule : schedule;
  next_competition_update_time : Z;
  bio : W
}.

Definition set_clock (wd : world) (t : Z) : world :=
  mkWorld t (plant_update_schedule wd) (animal_update_schedule wd)
          (next_competition_update_time wd) (bio wd).

Definition set_bio (wd : world) (w : W) : world :=
  mkWorld (total_sim_seconds wd) (plant_update_schedule wd)
          (animal_update_schedule wd) (next_competition_update_time wd) w.

Definition schedule_plant_update (wd : world) (c : creature) (delay : Z)
  : world :=
  mkWorld (total_sim_seconds wd)
          (bucket_append (plant_update_schedule wd)
             (schedule_key (total_sim_seconds wd) delay
                PLANT_LOGIC_UPDATE_INTERVAL_SECONDS) c)
          (animal_update_schedule wd) (next_competition_update_time wd)
          (bio wd).

Definition schedule_animal_update (wd : world) (c : creature) (delay : Z)
  : world :=
  mkWorld (total_sim_seconds wd) (plant_update_schedule wd)
          (bucket_append (animal_update_schedule wd)
             (schedule_key (total_sim_seconds wd) delay
                ANIMAL_UPDATE_TICK_SECONDS) c)
          (next_competition_update_time wd) (bio wd).

(** The [isinstance] dispatch between the two schedule methods. *)
Definition schedule_creature (wd : world) (c : creature) (delay : Z) : world :=
  match c with
  | Plant _ => schedule_plant_update wd c delay
  | Animal _ => schedule_animal_update wd c delay
  end.

(** Scheduling one interval ahead, as [add_newborn] and the
    rescheduling in the event loop do. *)
Definition schedule_update (wd : world) (c : creature) : world :=
  schedule_creature wd c (interval_of c).

(** [add_newborn] as far as the schedule is concerned. *)
Definition add_newborns (wd : world) (nb : list creature) : world :=
  fold_left schedule_update nb wd.

(** [for creature in creatures_to_update: ...]; the trace lists the
    ticks performed as (clock read inside the tick, creature). *)
Fixpoint process_creatures (wd : world) (cs : list creature)
  : world * list (Z * creature) :=
  match cs with
  | [] => (wd, [])
  | c :: r =>
      if is_alive (bio wd) c then
        let '(w', nb) := update (total_sim_seconds wd) c (interval_of c) (bio wd) in
        let wd1 := add_newborns (set_bio wd w') nb in
        let wd2 := if is_alive w' c then schedule_update wd1 c else wd1 in
        let '(wd3, tr) := process_creatures wd2 r in
        (wd3, (total_sim_seconds wd, c) :: tr)
      else process_creatures wd r
  end.

Definition next_event_time (wd : world) : option Z :=
  opt_min (min_key (plant_update_schedule wd))
          (min_key (animal_update_schedule wd)).

(** The [while True] event loop (lines 397-430), with fuel; [None]
    means the fuel ran out.  Returns the world, the clock values
    assigned, and the ticks. *)
Fixpoint event_loop (fuel : nat) (end_time : Z) (wd : world)
  : option (world * list Z * list (Z * creature)) :=
  match fuel with
  | O => None
  | S f =>
      match next_event_time wd with
      | None => Some (wd, [], [])
      | Some t =>
          if end_time <=? t then Some (wd, [], [])
          else
            let '(pl, ps) := pop t (plant_update_schedule wd) in
            let '(al, as_) := pop t (animal_update_schedule wd) in
            let wd1 := mkWorld t ps as_ (next_competition_update_time wd) (bio wd) in
            let '(wd2, tr) := process_creatures wd1 (pl ++ al) in
            match event_loop f end_time wd2 with
            | None => None
            | Some (wd3, ws, tr') => Some (wd3, t :: ws, tr ++ tr')
            end
      end
  end.

(** The competition [while] loop (lines 384-391), with fuel. *)
Fixpoint competition_loop (fuel : nat) (end_time : Z) (wd : world)
  : option (world * list Z) :=
  match fuel with
  | O => None
  | S f =>
      let t := next_competition_update_time wd in
      if t <? end_time then
        let wd1 := mkWorld t (plant_update_schedule wd) (animal_update_schedule wd)
                     (t + PLANT_COMPETITION_UPDATE_INTERVAL_SECONDS)
                     (competition_update (bio wd)) in
        match competition_loop f end_time wd1 with
        | None => None
        | Some (wd2, ws) => Some (wd2, t :: ws)
        end
      else Some (wd, [])
  end.

(** [update_in_bulk(large_delta_time)] from line 380 on: every value
    assigned to [total_sim_seconds], in order, and the ticks. *)
Definition update_in_bulk_timeline (fuel : nat) (large_delta_time : Z)
    (wd : world) : option (world * list Z * list (Z * creature)) :=
  let start_time := total_sim_seconds wd in
  let end_time := start_time + large_delta_time in
  match competition_loop fuel end_time wd with
  | None => None
  | Some (wd1, cw) =>
      let wd2 := set_clock wd1 start_time in
      match event_loop fuel end_time wd2 with
      | None => None
      | Some (wd3, ew, tr) =>
          let wd4 := set_clock wd3 end_time in
          Some (set_bio wd4 (housekeeping (bio wd4)),
                cw ++ [start_time] ++ ew ++ [end_time], tr)
      end
  end.
End Loop.

Arguments mkWorld {W}.
Arguments total_sim_seconds {W}.
Arguments plant_update_schedule {W}.
Arguments animal_update_schedule {W}.
Arguments next_competition_update_time {W}.
Arguments bio {W}.
Arguments set_clock {W}.
Arguments set_bio {W}.
Arguments schedule_plant_update {W}.
Arguments schedule_animal_update {W}.
Arguments schedule_creature {W}.
Arguments schedule_update {W}.
Arguments add_newborns {W}.
Arguments next_event_time {W}.
Arguments process_creatures {W}.
Arguments event_loop {W}.
Arguments competition_loop {W}.
Arguments update_in_bulk_timeline {W}.
End Scheduler.

(** *** The vectorized passes at the top of [World.update_in_bulk]
        (lines 372-377) against the methods [PlantManager] defines.

    Python resolves [self.plant_manager.update_photosynthesis_gains] by
    attribute lookup at call time; a missing method or attribute raises
    [AttributeError] after the calls before it have already mutated the
    store. *)
Module Passes.
Import String.
Local Open Scope string_scope.

Inductive py_error :=
| AttributeError (name : String.string)
| KeyError (key : String.string).

(** The keys of [PlantManager.arrays] created in [__init__]. *)
Definition plant_arrays : list String.string :=
  ["ages"; "heights"; "radii"; "root_radii"; "core_radii"; "energies";
   "reproductive_energies_stored"; "positions"; "soil_type_ids";
   "overlapped_root_areas"; "shaded_canopy_areas"; "aging_efficiencies";
   "hydraulic_efficiencies"; "environmental_efficiencies";
   "soil_efficiencies"; "metabolism_costs_per_second"; "canopy_areas"].

(** [key in pm.arrays]. *)
Definition has_array (key : String.string) : bool := existsb (String.eqb key) plant_arrays.

(** The column read and written for the photosynthesis rate. *)
Definition photosynthesis_key : String.string := "photosynthesis_gains_per_second".

(** The calls of [update_in_bulk], in order. *)
Definition bulk_pass_calls : list String.string :=
  ["update_aging_efficiencies"; "update_hydraulic_efficiencies";
   "update_environmental_efficiencies"; "update_soil_efficiencies";
   "update_photosynthesis_gains"; "update_metabolism_costs"].

(** [world.report_death] calls [self.quadtree.remove], which [QuadTree]
    does not define. *)
Definition remove_error : py_error := AttributeError "remove".

Section Methods.
(** The columns of the store other than [count]; the aging and
    hydraulic passes rewrite the live slice [[0, count)] of their
    column, with an effect given as a parameter.  Neither raises. *)
Variable M : Type.
Variables update_aging_efficiencies update_hydraulic_efficiencies : nat -> M -> M.

(** The [PlantManager] the passes run on. *)
Record manager := mkManager { count : nat; columns : M }.

(** [update_environmental_efficiencies(environment)] and
    [update_metabolism_costs(environment)] return at once when
    [count == 0]; otherwise their first call is
    [environment.get_temperatures_vectorized], which [Environment] does
    not define, before any column is written.
    [update_soil_efficiencies] returns at once when [count == 0];
    otherwise it reads [C.PLANT_SOIL_ID_TO_EFFICIENCY], which
    [constants.py] does not define, before any column is written. *)
Definition guarded_pass (missing : String.string) (pm : manager) : manager * option py_error :=
  if Nat.eqb (count pm) 0 then (pm, None) else (pm, Some (AttributeError missing)).

(** Attribute lookup of a pass method on a [PlantManager], and the
    store after the call with the exception it raised. *)
Definition method (name : String.string) : option (manager -> manager * option py_error) :=
  if String.eqb name "update_aging_efficiencies" then
    Some (fun pm => (mkManager (count pm) (update_aging_efficiencies (count pm) (columns pm)), None))
  else if String.eqb name "update_hydraulic_efficiencies" then
    Some (fun pm => (mkManager (count pm) (update_hydraulic_efficiencies (count pm) (columns pm)), None))
  else if String.eqb name "update_environmental_efficiencies"
  then Some (guarded_pass "get_temperatures_vectorized")
  else if String.eqb name "update_soil_efficiencies"
  then Some (guarded_pass "PLANT_SOIL_ID_TO_EFFICIENCY")
  else if String.eqb name "update_metabolism_costs"
  then Some (guarded_pass "get_temperatures_vectorized")
  else None.

(** One call statement: the store after it, and the exception it
    raised, which skips every later statement. *)
Definition call (st : manager * option py_error) (name : String.string)
  : manager * option py_error :=
  match st with
  | (pm, Some e) => (pm, Some e)
  | (pm, None) =>
      match method name with
      | Some f => f pm
      | None => (pm, Some (AttributeError name))
      end
  end.

Definition bulk_passes (pm : manager) : manager * option py_error :=
  fold_left call bulk_pass_calls (pm, None).
End Methods.
End Passes.

(** *** Entity store: [PlantManager.add_plant] / [remove_plant]

    Plant objects are identified by [nat] handles; their mutable [index]
    attribute lives in a heap [index_of], so that the object moved by a
    swap is updated where every alias sees it.  The parallel NumPy
    columns are moved row by row together with [plants]; the properties
    below concern [plants], [count] and the [index] fields only. *)
Module Store.
Import (notations) String.
Local Open Scope Z_scope.






End Store.

(** *** Competition grid: [World._populate_competition_grids] and
        [World._calculate_plant_competition].

    The rows are the live slice [0, count) of the store columns
    [positions], [radii], [heights] and [root_radii].  The grids are
    total maps on cell indices (every index the code touches lies inside
    the array).  [C.LIGHT_GRID_CELL_SIZE_CM] is not defined in
    [constants.py]; it is the parameter [cs]. *)
Module Grid.
Local Open Scope Q_scope.

Record row := mkRow { px : Q; py : Q; radius : Q; height : Q; root_radius : Q }.

(** [np.pi], the IEEE double nearest to pi, as an exact rational. *)
Definition np_pi : Q := 884279719003555 # 281474976710656.

(** [int(q)]: truncation toward zero. *)
Definition py_int (q : Q) : Z := Z.quot (Qnum q) (Zpos (Qden q)).

(** Python's [min(a, b)]: [b] only when [b < a]. *)
Definition pymin (a b : Q) : Q := if Qlt_le_dec b a then b else a.

Definition Qltb (a b : Q) : bool := negb (Qle_bool b a).

(** [np.arange(a, b)] on integers. *)
Definition arange (a b : Z) : list Z :=
  map (fun i => (a + Z.of_nat i)%Z) (seq 0 (Z.to_nat (b - a))).

Definition cell := (Z * Z)%type.

Definition cell_eqb (c d : cell) : bool := Z.eqb (fst c) (fst d) && Z.eqb (snd c) (snd d).

Definition grid := cell -> Q.

Definition zero_grid : grid := fun _ => 0.

Definition upd (g : grid) (c : cell) (v : Q) : grid :=
  fun d => if cell_eqb d c then v else g d.

Section Rasterize.
(** [C.LIGHT_GRID_CELL_SIZE_CM] and [grid.shape]. *)
Variables (cs : Q) (gw gh : Z).

(** The [np.meshgrid] of the bounding box, flattened row by row. *)
Definition bbox_cells (x y r : Q) : list cell :=
  let min_gx := py_int (Qmax 0 ((x - r) / cs)) in
  let max_gx := py_int (Qmin (inject_Z (gw - 1)) ((x + r) / cs)) in
  let min_gy := py_int (Qmax 0 ((y - r) / cs)) in
  let max_gy := py_int (Qmin (inject_Z (gh - 1)) ((y + r) / cs)) in
  flat_map (fun gy => map (fun gx => (gx, gy)) (arange min_gx (max_gx + 1)))
           (arange min_gy (max_gy + 1)).

(** [dist_sq <= radius**2] at the cell center [(g + 0.5) * cs]. *)
Definition in_disc (x y r : Q) (c : cell) : bool :=
  let wx := (inject_Z (fst c) + (1 # 2)) * cs in
  let wy := (inject_Z (snd c) + (1 # 2)) * cs in
  Qle_bool ((x - wx) * (x - wx) + (y - wy) * (y - wy)) (r * r).

Definition disc_cells (x y r : Q) : list cell := filter (in_disc x y r) (bbox_cells x y r).

(** One iteration of the loop of [_populate_competition_grids]. *)
Definition populate_row (g : grid * grid) (p : row) : grid * grid :=
  let '(light, root) := g in
  if Qle_bool (radius p) 0 then (light, root)
  else
    (fold_left (fun l c => upd l c (Qmax (l c) (height p)))
               (disc_cells (px p) (py p) (radius p)) light,
     fold_left (fun l c => upd l c (l c + root_radius p))
               (disc_cells (px p) (py p) (root_radius p)) root).

(** [_populate_competition_grids]: light grid and root grid. *)
Definition populate (rows : list row) : grid * grid :=
  fold_left populate_row rows (zero_grid, zero_grid).

Definition cell_area : Q := cs * cs.

(** One iteration of the loop of [_calculate_plant_competition]:
    (shaded_canopy_area, overlapped_root_area). *)
Definition competition_of (light root : grid) (p : row) : Q * Q :=
  if Qle_bool (radius p) 0 then (0, 0)
  else
    let num_shaded_cells :=
      length (filter (fun c => Qltb (height p) (light c))
                     (disc_cells (px p) (py p) (radius p))) in
    let shaded := inject_Z (Z.of_nat num_shaded_cells) * cell_area in
    let rr := root_radius p in
    let my_root_area := rr * rr * np_pi in
    let total_pressures := map root (disc_cells (px p) (py p) rr) in
    let competed := filter (fun q => Qltb rr q) total_pressures in
    let overlapped :=
      fold_right Qplus 0 (map (fun q => (q - rr) / q) competed) * cell_area in
    (pymin shaded (radius p * radius p * np_pi), pymin overlapped my_root_area).

(** Populate then resolve: the pair written to [shaded_canopy_areas]
    and [overlapped_root_areas] for each row. *)
Definition resolve (rows : list row) : list (Q * Q) :=
  let '(light, root) := populate rows in
  map (competition_of light root) rows.
End Rasterize.
End Grid.

(** *** Observations on the competition grids, used to state their properties. *)
Module GridObs.
Import Grid.

(** The cells of the canopy disc of row [p]. *)
Definition canopy_cells (cs : Q) (gw gh : Z) (p : row) : list cell :=
  disc_cells cs gw gh (px p) (py p) (radius p).

Definition covers (cs : Q) (gw gh : Z) (p : row) (c : cell) : bool :=
  existsb (cell_eqb c) (canopy_cells cs gw gh p).

(** The cells of the canopy disc of [a] that the canopy disc of [b] also covers. *)
Definition shared_cells (cs : Q) (gw gh : Z) (a b : row) : list cell :=
  filter (covers cs gw gh b) (canopy_cells cs gw gh a).
End GridObs.

(** *** Concrete rows for the competition grids. *)
Module GridDemo.
Import Grid.

(** Two canopies of radius 50 whose centers are 40 apart, heights 80 and 100. *)
Definition short_a : row := mkRow 100 100 50 80 10.
Definition tall_a : row := mkRow 140 100 50 100 10.

(** The same two canopies shifted so that, with cells of 50, their rasterized
    discs are disjoint. *)
Definition short_b : row := mkRow 80 50 50 80 10.
Definition tall_b : row := mkRow 120 50 50 100 10.
End GridDemo.

(** ** Plant biology ([creatures.py]).

    Quantities are real numbers, [np.pi] is [PI], and float rounding is
    not modelled.  A tick is that of a plant that is not debug-focused,
    so the logging and graphing branches are skipped.  The writes to the
    store columns that mirror a field ([pm.arrays[...][self.index] = ...])
    are not modelled, except where the column does not exist: the lookup
    [pm.arrays['photosynthesis_gains_per_second']] raises [KeyError].
    [QuadTree] has no [remove] method, so the death of a live plant
    raises [AttributeError] from [World.report_death].
    [constants.py] does not define [PLANT_STABLE_CORE_INVESTMENT_RATIO],
    [PLANT_CRUSH_CHECK_GROWTH_THRESHOLD_CM] or [PLANT_MIN_CORE_TO_CANOPY_RATIO];
    they are parameters.  What a tick reads from the world (terrain, the
    quadtree, the random draws, the store columns) is an argument. *)
Module Bio.
Local Open Scope R_scope.

Inductive stage := Seed | Seedling | Mature.

Definition stage_eqb (a b : stage) : bool :=
  match a, b with
  | Seed, Seed | Seedling, Seedling | Mature, Mature => true
  | _, _ => false
  end.

Inductive soil := Sand | Grass | Dirt.

Inductive organ_type := Flower | Fruit.

(** A [ReproductiveOrgan]; [oid] stands for the object's identity. *)
Record organ := mkOrgan {
  oid : nat; otype : organ_type; oage : R; world_x : R; world_y : R }.

Record plant := mkPlant {
  pos_x : R; pos_y : R; energy : R; age : R;
  radius : R; root_radius : R; core_radius : R; height : R;
  radius_to_height_factor : R;
  life_stage : stage; is_alive : bool;
  reproductive_energy_stored : R; reproductive_organs : list organ;
  has_reached_self_sufficiency : bool; core_growth_since_crush_check : R;
  elevation : R; soil_type : option soil; temperature : R; humidity : R;
  shaded_canopy_area : R }.

(** What [quadtree.query] returns about one creature. *)
Record creature_view := mkView {
  cv_id : nat; cv_is_self : bool; cv_is_plant : bool; cv_alive : bool;
  cv_x : R; cv_y : R; cv_core_radius : R }.

Definition Rleb (a b : R) : bool := if Rle_dec a b then true else false.
Definition Rltb (a b : R) : bool := if Rlt_dec a b then true else false.

(** [int(r)]: truncation toward zero. *)
Definition py_trunc (r : R) : Z := if Rle_dec 0 r then Int_part r else (- Int_part (- r))%Z.

(** The constants of [constants.py] used here. *)
Definition SECONDS_PER_HOUR : R := 3600.
Definition TERRAIN_WATER_LEVEL : R := 31 / 100.
Definition TERRAIN_SAND_LEVEL : R := 32 / 100.
Definition TERRAIN_GRASS_LEVEL : R := 57 / 100.
Definition TERRAIN_DIRT_LEVEL : R := 59 / 100.
Definition PLANT_BIOMASS_ENERGY_COST : R := (18000000 * (1 / 10)) / 10000.
Definition PLANT_CORE_BIOMASS_ENERGY_COST : R := PLANT_BIOMASS_ENERGY_COST * 8.
Definition PLANT_DORMANCY_METABOLISM_J_PER_HOUR : R := 10.
Definition PLANT_SPROUTING_ENERGY_COST : R := 2000.
Definition GERMINATION_HUMIDITY_THRESHOLD : R := 1 / 2.
Definition GERMINATION_MIN_TEMP : R := 4 / 10.
Definition GERMINATION_MAX_TEMP : R := 85 / 100.
Definition PLANT_REPRODUCTIVE_INVESTMENT_J_PER_HOUR : R := 250.
Definition PLANT_FLOWER_ENERGY_COST : R := 7500.
Definition PLANT_FLOWER_LIFESPAN_SECONDS : R := 604800.
Definition PLANT_FRUIT_LIFESPAN_SECONDS : R := 604800.
Definition PLANT_MAX_FLOWERS_PER_CANOPY_AREA : R := 1 / 10000.
Definition PLANT_SEED_PROVISIONING_ENERGY : R := 15000.
Definition PLANT_GROWTH_INVESTMENT_J_PER_HOUR : R := 900.
Definition PLANT_GROWTH_INVESTMENT_ENERGY_RESERVE : R := 10000.
Definition PLANT_PRUNING_EFFICIENCY : R := 1.
Definition PLANT_SPROUT_RADIUS_CM : R := 1.
Definition PLANT_IDEAL_CORE_TO_CANOPY_AREA_RATIO : R := 1 / 10.
Definition PLANT_SPROUT_CORE_RADIUS_CM : R := 2 / 10.
Definition PLANT_RADIUS_TO_HEIGHT_FACTOR : R := 2.
Definition PLANT_MAX_SHADE_RADIUS_TO_HEIGHT_FACTOR : R := 25 / 10.
Definition PLANT_MORPHOLOGY_ADAPTATION_RATE : R := 1 / 100.
Definition PLANT_SEED_ROLL_BASE_DISTANCE_CM : R := 20.
Definition PLANT_SEED_ROLL_DISTANCE_FACTOR : R := 5000.
Definition PLANT_CORE_PERSONAL_SPACE_FACTOR : R := 15 / 10.

(** The attribute assignments [self.f = v]. *)
Definition set_energy (p : plant) (v : R) : plant :=
  {| pos_x := pos_x p; pos_y := pos_y p; energy := v; age := age p;
     radius := radius p; root_radius := root_radius p; core_radius := core_radius p;
     height := height p; radius_to_height_factor := radius_to_height_factor p;
     life_stage := life_stage p; is_alive := is_alive p;
     reproductive_energy_stored := reproductive_energy_stored p;
     reproductive_organs := reproductive_organs p;
     has_reached_self_sufficiency := has_reached_self_sufficiency p;
     core_growth_since_crush_check := core_growth_since_crush_check p;
     elevation := elevation p; soil_type := soil_type p;
     temperature := temperature p; humidity := humidity p;
     shaded_canopy_area := shaded_canopy_area p |}.

Definition set_age (p : plant) (v : R) : plant :=
  {| pos_x := pos_x p; pos_y := pos_y p; energy := energy p; age := v;
     radius := radius p; root_radius := root_radius p; core_radius := core_radius p;
     height := height p; radius_to_height_factor := radius_to_height_factor p;
     life_stage := life_stage p; is_alive := is_alive p;
     reproductive_energy_stored := reproductive_energy_stored p;
     reproductive_organs := reproductive_organs p;
     has_reached_self_sufficiency := has_reached_self_sufficiency p;
     core_growth_since_crush_check := core_growth_since_crush_check p;
     elevation := elevation p; soil_type := soil_type p;
     temperature := temperature p; humidity := humidity p;
     shaded_canopy_area := shaded_canopy_area p |}.

Definition set_alive (p : plant) (v : bool) : plant :=
  {| pos_x := pos_x p; pos_y := pos_y p; energy := energy p; age := age p;
     radius := radius p; root_radius := root_radius p; core_radius := core_radius p;
     height := height p; radius_to_height_factor := radius_to_height_factor p;
     life_stage := life_stage p; is_alive := v;
     reproductive_energy_stored := reproductive_energy_stored p;
     reproductive_organs := reproductive_organs p;
     has_reached_self_sufficiency := has_reached_self_sufficiency p;
     core_growth_since_crush_check := core_growth_since_crush_check p;
     elevation := elevation p; soil_type := soil_type p;
     temperature := temperature p; humidity := humidity p;
     shaded_canopy_area := shaded_canopy_area p |}.

Definition set_life_stage (p : plant) (v : stage) : plant :=
  {| pos_x := pos_x p; pos_y := pos_y p; energy := energy p; age := age p;
     radius := radius p; root_radius := root_radius p; core_radius := core_radius p;
     height := height p; radius_to_height_factor := radius_to_height_factor p;
     life_stage := v; is_alive := is_alive p;
     reproductive_energy_stored := reproductive_energy_stored p;
     reproductive_organs := reproductive_organs p;
     has_reached_self_sufficiency := has_reached_self_sufficiency p;
     core_growth_since_crush_check := core_growth_since_crush_check p;
     elevation := elevation p; soil_type := soil_type p;
     temperature := temperature p; humidity := humidity p;
     shaded_canopy_area := shaded_canopy_area p |}.

Definition set_radius_to_height_factor (p : plant) (v : R) : plant :=
  {| pos_x := pos_x p; pos_y := pos_y p; energy := energy p; age := age p;
     radius := radius p; root_radius := root_radius p; core_radius := core_radius p;
     height := height p; radius_to_height_factor := v; life_stage := life_stage p;
     is_alive := is_alive p;
     reproductive_energy_stored := reproductive_energy_stored p;
     reproductive_organs := reproductive_organs p;
     has_reached_self_sufficiency := has_reached_self_sufficiency p;
     core_growth_since_crush_check := core_growth_since_crush_check p;
     elevation := elevation p; soil_type := soil_type p;
     temperature := temperature p; humidity := humidity p;
     shaded_canopy_area := shaded_canopy_area p |}.

Definition set_radius (p : plant) (v : R) : plant :=
  {| pos_x := pos_x p; pos_y := pos_y p; energy := energy p; age := age p;
     radius := v; root_radius := root_radius p; core_radius := core_radius p;
     height := height p; radius_to_height_factor := radius_to_height_factor p;
     life_stage := life_stage p; is_alive := is_alive p;
     reproductive_energy_stored := reproductive_energy_stored p;
     reproductive_organs := reproductive_organs p;
     has_reached_self_sufficiency := has_reached_self_sufficiency p;
     core_growth_since_crush_check := core_growth_since_crush_check p;
     elevation := elevation p; soil_type := soil_type p;
     temperature := temperature p; humidity := humidity p;
     shaded_canopy_area := shaded_canopy_area p |}.

Definition set_root_radius (p : plant) (v : R) : plant :=
  {| pos_x := pos_x p; pos_y := pos_y p; energy := energy p; age := age p;
     radius := radius p; root_radius := v; core_radius := core_radius p;
     height := height p; radius_to_height_factor := radius_to_height_factor p;
     life_stage := life_stage p; is_alive := is_alive p;
     reproductive_energy_stored := reproductive_energy_stored p;
     reproductive_organs := reproductive_organs p;
     has_reached_self_sufficiency := has_reached_self_sufficiency p;
     core_growth_since_crush_check := core_growth_since_crush_check p;
     elevation := elevation p; soil_type := soil_type p;
     temperature := temperature p; humidity := humidity p;
     shaded_canopy_area := shaded_canopy_area p |}.

Definition set_core_radius (p : plant) (v : R) : plant :=
  {| pos_x := pos_x p; pos_y := pos_y p; energy := energy p; age := age p;
     radius := radius p; root_radius := root_radius p; core_radius := v;
     height := height p; radius_to_height_factor := radius_to_height_factor p;
     life_stage := life_stage p; is_alive := is_alive p;
     reproductive_energy_stored := reproductive_energy_stored p;
     reproductive_organs := reproductive_organs p;
     has_reached_self_sufficiency := has_reached_self_sufficiency p;
     core_growth_since_crush_check := core_growth_since_crush_check p;
     elevation := elevation p; soil_type := soil_type p;
     temperature := temperature p; humidity := humidity p;
     shaded_canopy_area := shaded_canopy_area p |}.

Definition set_height (p : plant) (v : R) : plant :=
  {| pos_x := pos_x p; pos_y := pos_y p; energy := energy p; age := age p;
     radius := radius p; root_radius := root_radius p; core_radius := core_radius p;
     height := v; radius_to_height_factor := radius_to_height_factor p;
     life_stage := life_stage p; is_alive := is_alive p;
     reproductive_energy_stored := reproductive_energy_stored p;
     reproductive_organs := reproductive_organs p;
     has_reached_self_sufficiency := has_reached_self_sufficiency p;
     core_growth_since_crush_check := core_growth_since_crush_check p;
     elevation := elevation p; soil_type := soil_type p;
     temperature := temperature p; humidity := humidity p;
     shaded_canopy_area := shaded_canopy_area p |}.

Definition set_reproductive_energy_stored (p : plant) (v : R) : plant :=
  {| pos_x := pos_x p; pos_y := pos_y p; energy := energy p; age := age p;
     radius := radius p; root_radius := root_radius p; core_radius := core_radius p;
     height := height p; radius_to_height_factor := radius_to_height_factor p;
     life_stage := life_stage p; is_alive := is_alive p;
     reproductive_energy_stored := v; reproductive_organs := reproductive_organs p;
     has_reached_self_sufficiency := has_reached_self_sufficiency p;
     core_growth_since_crush_check := core_growth_since_crush_check p;
     elevation := elevation p; soil_type := soil_type p;
     temperature := temperature p; humidity := humidity p;
     shaded_canopy_area := shaded_canopy_area p |}.

Definition set_reproductive_organs (p : plant) (v : list organ) : plant :=
  {| pos_x := pos_x p; pos_y := pos_y p; energy := energy p; age := age p;
     radius := radius p; root_radius := root_radius p; core_radius := core_radius p;
     height := height p; radius_to_height_factor := radius_to_height_factor p;
     life_stage := life_stage p; is_alive := is_alive p;
     reproductive_energy_stored := reproductive_energy_stored p;
     reproductive_organs := v;
     has_reached_self_sufficiency := has_reached_self_sufficiency p;
     core_growth_since_crush_check := core_growth_since_crush_check p;
     elevation := elevation p; soil_type := soil_type p;
     temperature := temperature p; humidity := humidity p;
     shaded_canopy_area := shaded_canopy_area p |}.

Definition set_has_reached_self_sufficiency (p : plant) (v : bool) : plant :=
  {| pos_x := pos_x p; pos_y := pos_y p; energy := energy p; age := age p;
     radius := radius p; root_radius := root_radius p; core_radius := core_radius p;
     height := height p; radius_to_height_factor := radius_to_height_factor p;
     life_stage := life_stage p; is_alive := is_alive p;
     reproductive_energy_stored := reproductive_energy_stored p;
     reproductive_organs := reproductive_organs p;
     has_reached_self_sufficiency := v;
     core_growth_since_crush_check := core_growth_since_crush_check p;
     elevation := elevation p; soil_type := soil_type p;
     temperature := temperature p; humidity := humidity p;
     shaded_canopy_area := shaded_canopy_area p |}.

Definition set_core_growth_since_crush_check (p : plant) (v : R) : plant :=
  {| pos_x := pos_x p; pos_y := pos_y p; energy := energy p; age := age p;
     radius := radius p; root_radius := root_radius p; core_radius := core_radius p;
     height := height p; radius_to_height_factor := radius_to_height_factor p;
     life_stage := life_stage p; is_alive := is_alive p;
     reproductive_energy_stored := reproductive_energy_stored p;
     reproductive_organs := reproductive_organs p;
     has_reached_self_sufficiency := has_reached_self_sufficiency p;
     core_growth_since_crush_check := v; elevation := elevation p;
     soil_type := soil_type p; temperature := temperature p; humidity := humidity p;
     shaded_canopy_area := shaded_canopy_area p |}.
(** A call that returns normally, with the plant and a result, or raises,
    with the plant as the exception leaves it. *)
Inductive outcome (A : Type) :=
| Ret (p : plant) (a : A)
| Raise (p : plant) (e : Passes.py_error).
Arguments Ret {A}.
Arguments Raise {A}.

(** The plant as the call leaves it, whether it returned or raised. *)
Definition outcome_plant {A} (o : outcome A) : plant :=
  match o with Ret p _ => p | Raise p _ => p end.

(** [Creature.die] on a plant: a live plant's flag is cleared, then
    [world.report_death] appends it to the graveyard and calls
    [self.quadtree.remove], which raises [AttributeError]. *)
Definition die (p : plant) : outcome unit :=
  if is_alive p then Raise (set_alive p false) Passes.remove_error else Ret p tt.

(** What the code reads from the world. *)
Record world_reads := mkReads {
  get_elevation : R -> R -> R;
  get_temperature : R -> R -> R;
  get_humidity : R -> R -> R;
  (** [world.quadtree.query(Rectangle(x, y, w, h), [])]. *)
  query : R -> R -> R -> R -> list creature_view;
  (** The [random.uniform(0, 2 * np.pi)] angles drawn by [_disperse_seed]
      for a fruit: at the drop point, and for the roll on flat ground. *)
  dispersal_angles : organ -> R * R }.

(** The cells of the plant's row in [pm.arrays] read by a growing tick;
    [photosynthesis_gain_per_second] is what the missing photosynthesis
    column would hold. *)
Record row_reads := mkRowReads {
  photosynthesis_gain_per_second : R;
  metabolism_cost_per_second : R;
  soil_eff : R;
  environmental_efficiency : R }.

Definition get_soil_type (e : R) : option soil :=
  if Rleb TERRAIN_WATER_LEVEL e && Rltb e TERRAIN_SAND_LEVEL then Some Sand
  else if Rleb TERRAIN_SAND_LEVEL e && Rltb e TERRAIN_GRASS_LEVEL then Some Grass
  else if Rleb TERRAIN_GRASS_LEVEL e && Rltb e TERRAIN_DIRT_LEVEL then Some Dirt
  else None.

(** [Plant(world, x, y, initial_energy)].  On invalid terrain the
    constructor returns early, dead with energy 0, before [temperature]
    and [humidity] are set (0 here). *)
Definition new_plant (w : world_reads) (x y initial_energy : R) : plant :=
  let e := get_elevation w x y in
  let st := get_soil_type e in
  let ok := match st with Some _ => true | None => false end in
  {| pos_x := x; pos_y := y; energy := if ok then initial_energy else 0; age := 0;
     radius := 0; root_radius := 0; core_radius := 0; height := 0;
     radius_to_height_factor := PLANT_RADIUS_TO_HEIGHT_FACTOR;
     life_stage := Seed; is_alive := ok;
     reproductive_energy_stored := 0; reproductive_organs := [];
     has_reached_self_sufficiency := false; core_growth_since_crush_check := 0;
     elevation := e; soil_type := st;
     temperature := if ok then get_temperature w x y else 0;
     humidity := if ok then get_humidity w x y else 0;
     shaded_canopy_area := 0 |}.

(** [_patch_all_rates_after_sprout]: its last statement writes the
    photosynthesis column. *)
Definition patch_all_rates_after_sprout (p : plant) : outcome unit :=
  if Passes.has_array Passes.photosynthesis_key then Ret p tt
  else Raise p (Passes.KeyError Passes.photosynthesis_key).

(** [_update_seed]. *)
Definition update_seed (p : plant) (time_step : R) : outcome unit :=
  let dormancy_cost := (PLANT_DORMANCY_METABOLISM_J_PER_HOUR / SECONDS_PER_HOUR) * time_step in
  let p := set_energy p (energy p - dormancy_cost) in
  if Rleb (energy p) 0 then die p
  else
    let temp_ok := Rleb GERMINATION_MIN_TEMP (temperature p) &&
                   Rleb (temperature p) GERMINATION_MAX_TEMP in
    let humidity_ok := Rleb GERMINATION_HUMIDITY_THRESHOLD (humidity p) in
    if temp_ok && humidity_ok then
      if Rleb PLANT_SPROUTING_ENERGY_COST (energy p) then
        let p := set_energy p (energy p - PLANT_SPROUTING_ENERGY_COST) in
        let p := set_life_stage p Seedling in
        let p := set_radius p PLANT_SPROUT_RADIUS_CM in
        let p := set_root_radius p PLANT_SPROUT_RADIUS_CM in
        let p := set_core_radius p PLANT_SPROUT_CORE_RADIUS_CM in
        let p := set_height p (radius p * radius_to_height_factor p) in
        patch_all_rates_after_sprout p
      else Ret p tt
    else Ret p tt.

(** The values [_calculate_energy_balance] returns and its callers use. *)
Record balance := mkBalance {
  net_energy_production : R; canopy_area : R; root_area : R; core_area : R }.

(** Step 2 of [_calculate_energy_balance]: the shape factor moves toward
    its shade-dependent target. *)
Definition adapt_morphology (p : plant) : plant :=
  let canopy_area := PI * radius p ^ 2 in
  let shade_ratio := if Rltb 0 canopy_area then shaded_canopy_area p / canopy_area else 0 in
  let target_factor := PLANT_RADIUS_TO_HEIGHT_FACTOR +
    (PLANT_MAX_SHADE_RADIUS_TO_HEIGHT_FACTOR - PLANT_RADIUS_TO_HEIGHT_FACTOR) * shade_ratio in
  set_radius_to_height_factor p
    (radius_to_height_factor p +
     (target_factor - radius_to_height_factor p) * PLANT_MORPHOLOGY_ADAPTATION_RATE).

(** Steps 1, 4 and 5 of [_calculate_energy_balance]. *)
Definition balance_of (p : plant) (rr : row_reads) (time_step : R) : balance :=
  let photosynthesis_gain := photosynthesis_gain_per_second rr * time_step in
  let metabolism_cost := metabolism_cost_per_second rr * time_step in
  mkBalance (photosynthesis_gain - metabolism_cost)
            (PI * radius p ^ 2) (PI * root_radius p ^ 2) (PI * core_radius p ^ 2).

(** [_calculate_energy_balance]: step 4 reads the photosynthesis column. *)
Definition calculate_energy_balance (p : plant) (rr : row_reads) (time_step : R)
  : outcome balance :=
  let p' := adapt_morphology p in
  if Passes.has_array Passes.photosynthesis_key then Ret p' (balance_of p rr time_step)
  else Raise p' (Passes.KeyError Passes.photosynthesis_key).

(** [_process_self_pruning]: the plant after shedding, and the returned
    net energy production. *)
Definition process_self_pruning (p : plant) (energy_deficit canopy_area root_area core_area : R)
    (rr : row_reads) (time_step : R) : plant * R :=
  let total_sheddable_area := canopy_area + root_area + core_area in
  let maintenance_cost_per_area_tick :=
    if Rltb 0 total_sheddable_area
    then (metabolism_cost_per_second rr / total_sheddable_area) * time_step else 0 in
  if Rltb 0 maintenance_cost_per_area_tick then
    let area_to_shed := (energy_deficit / maintenance_cost_per_area_tick) * PLANT_PRUNING_EFFICIENCY in
    if Rltb 0 total_sheddable_area then
      let shed_canopy_area := area_to_shed * (canopy_area / total_sheddable_area) in
      let shed_root_area := area_to_shed * (root_area / total_sheddable_area) in
      let shed_core_area := area_to_shed * (core_area / total_sheddable_area) in
      let new_canopy_area := Rmax 0 (canopy_area - shed_canopy_area) in
      let new_root_area := Rmax 0 (root_area - shed_root_area) in
      let new_core_area := Rmax 0 (core_area - shed_core_area) in
      let p := set_radius p (sqrt (new_canopy_area / PI)) in
      let p := set_root_radius p (sqrt (new_root_area / PI)) in
      let p := set_core_radius p (sqrt (new_core_area / PI)) in
      let p := set_height p (radius p * radius_to_height_factor p) in
      (p, 0)
    else (p, 0)
  else (p, 0).

(** [ReproductiveOrgan.update]. *)
Definition organ_update (time_step : R) (o : organ) : organ :=
  let a := oage o + time_step in
  match otype o with
  | Flower =>
      if Rltb PLANT_FLOWER_LIFESPAN_SECONDS a
      then mkOrgan (oid o) Fruit 0 (world_x o) (world_y o)
      else mkOrgan (oid o) Flower a (world_x o) (world_y o)
  | Fruit => mkOrgan (oid o) Fruit a (world_x o) (world_y o)
  end.

Definition is_ready_to_drop (o : organ) : bool :=
  match otype o with
  | Fruit => Rltb PLANT_FRUIT_LIFESPAN_SECONDS (oage o)
  | Flower => false
  end.

(** [list.remove(fruit)]: organs compare by identity. *)
Fixpoint remove_organ (o : organ) (l : list organ) : list organ :=
  match l with
  | [] => []
  | o' :: l' => if Nat.eqb (oid o') (oid o) then l' else o' :: remove_organ o l'
  end.

(** Steps 1 to 3 of [_disperse_seed]: where the fruit comes to rest. *)
Definition landing_point (w : world_reads) (p : plant) (fruit : organ) : R * R :=
  let '(angle_drop, angle_roll) := dispersal_angles w fruit in
  let vec_x := world_x fruit - pos_x p in
  let vec_y := world_y fruit - pos_y p in
  let dist_from_center := sqrt (vec_x ^ 2 + vec_y ^ 2) in
  let '(drop_x, drop_y) :=
    if Rltb 0 dist_from_center
    then (pos_x p + (vec_x / dist_from_center) * radius p,
          pos_y p + (vec_y / dist_from_center) * radius p)
    else (pos_x p + radius p * cos angle_drop, pos_y p + radius p * sin angle_drop) in
  let e_north := get_elevation w drop_x (drop_y - 10) in
  let e_south := get_elevation w drop_x (drop_y + 10) in
  let e_east := get_elevation w (drop_x + 10) drop_y in
  let e_west := get_elevation w (drop_x - 10) drop_y in
  let grad_y := e_north - e_south in
  let grad_x := e_west - e_east in
  let magnitude := sqrt (grad_x ^ 2 + grad_y ^ 2) in
  let '(roll_dir_x, roll_dir_y, roll_distance) :=
    if Rltb (1 / 1000) magnitude
    then (grad_x / magnitude, grad_y / magnitude,
          PLANT_SEED_ROLL_BASE_DISTANCE_CM + magnitude * PLANT_SEED_ROLL_DISTANCE_FACTOR)
    else (cos angle_roll, sin angle_roll, PLANT_SEED_ROLL_BASE_DISTANCE_CM) in
  (drop_x + roll_dir_x * roll_distance, drop_y + roll_dir_y * roll_distance).

(** The rejection test of step 4 for one creature of the query. *)
Definition personal_space_blocks (final_x final_y : R) (n : creature_view) : bool :=
  cv_is_plant n &&
  Rltb ((final_x - cv_x n) ^ 2 + (final_y - cv_y n) ^ 2)
       ((cv_core_radius n * PLANT_CORE_PERSONAL_SPACE_FACTOR) ^ 2).

(** [_disperse_seed]. *)
Definition disperse_seed (w : world_reads) (p : plant) (fruit : organ) : option plant :=
  let '(final_x, final_y) := landing_point w p fruit in
  if Rltb (get_elevation w final_x final_y) TERRAIN_WATER_LEVEL then None
  else if existsb (personal_space_blocks final_x final_y)
                  (query w final_x final_y PLANT_CORE_PERSONAL_SPACE_FACTOR
                         PLANT_CORE_PERSONAL_SPACE_FACTOR)
  then None
  else Some (new_plant w final_x final_y PLANT_SEED_PROVISIONING_ENERGY).

(** The [for fruit in fruits_to_drop] loop of [Plant.update]: the parent
    and the seeds handed to [world.add_newborn], in order. *)
Fixpoint drop_fruits (w : world_reads) (p : plant) (fruits : list organ)
    (newborns : list plant) : plant * list plant :=
  match fruits with
  | [] => (p, newborns)
  | fruit :: rest =>
      if Rleb PLANT_SEED_PROVISIONING_ENERGY (energy p) then
        let '(p, newborns) :=
          match disperse_seed w p fruit with
          | Some new_seed =>
              (set_energy p (energy p - PLANT_SEED_PROVISIONING_ENERGY), newborns ++ [new_seed])
          | None => (p, newborns)
          end in
        let p := set_reproductive_organs p (remove_organ fruit (reproductive_organs p)) in
        drop_fruits w p rest newborns
      else (p, newborns)
  end.

(** The organ block of [Plant.update] (a live mature plant). *)
Definition update_organs (w : world_reads) (p : plant) (time_step : R) : plant * list plant :=
  let organs := map (organ_update time_step) (reproductive_organs p) in
  let p := set_reproductive_organs p organs in
  match filter is_ready_to_drop organs with
  | [] => (p, [])
  | fruits_to_drop =>
      if Rleb PLANT_SEED_PROVISIONING_ENERGY (energy p)
      then drop_fruits w p fruits_to_drop []
      else (p, [])
  end.

Section MissingConstants.
Variables (PLANT_STABLE_CORE_INVESTMENT_RATIO PLANT_CRUSH_CHECK_GROWTH_THRESHOLD_CM
           PLANT_MIN_CORE_TO_CANOPY_RATIO : R).

(** The reproductive block of [_allocate_surplus_energy]; a new
    [ReproductiveOrgan] is put at a random place of the canopy, here at
    the plant's center. *)
Definition invest_in_reproduction (p : plant) (canopy_area time_step : R) : plant :=
  let desired_repro_investment :=
    (PLANT_REPRODUCTIVE_INVESTMENT_J_PER_HOUR / SECONDS_PER_HOUR) * time_step in
  let available_for_repro := Rmax 0 (energy p - PLANT_GROWTH_INVESTMENT_ENERGY_RESERVE) in
  let actual_repro_investment := Rmin desired_repro_investment available_for_repro in
  if Rltb 0 actual_repro_investment then
    let p := set_energy p (energy p - actual_repro_investment) in
    let p := set_reproductive_energy_stored p
               (reproductive_energy_stored p + actual_repro_investment) in
    let num_new_flowers := Int_part (reproductive_energy_stored p / PLANT_FLOWER_ENERGY_COST) in
    let max_flowers := py_trunc (canopy_area * PLANT_MAX_FLOWERS_PER_CANOPY_AREA) in
    let allowed_new_flowers :=
      Z.max 0 (max_flowers - Z.of_nat (length (reproductive_organs p))) in
    let num_new_flowers := Z.min num_new_flowers allowed_new_flowers in
    if (0 <? num_new_flowers)%Z then
      let p := set_reproductive_energy_stored p
                 (reproductive_energy_stored p - IZR num_new_flowers * PLANT_FLOWER_ENERGY_COST) in
      set_reproductive_organs p
        (reproductive_organs p ++
         map (fun k => mkOrgan k Flower 0 (pos_x p) (pos_y p))
             (seq (length (reproductive_organs p)) (Z.to_nat num_new_flowers)))
    else p
  else p.

(** The neighbors the crush loop of [_allocate_surplus_energy] calls
    [neighbor.die(world, "core_crush")] on, in query order. *)
Definition crush_targets (p : plant) (w : world_reads) : list creature_view :=
  let neighbors := query w (pos_x p) (pos_y p) (core_radius p) (core_radius p) in
  filter (fun n => negb (cv_is_self n) && cv_is_plant n && cv_alive n &&
                   Rltb ((pos_x p - cv_x n) ^ 2 + (pos_y p - cv_y n) ^ 2)
                        (core_radius p ^ 2)) neighbors.

(** [_allocate_surplus_energy].  The first crushed neighbor is alive, so
    its [die] clears its flag and raises from [report_death]: the
    exception leaves the loop before [core_growth_since_crush_check] is
    reset. *)
Definition allocate_surplus_energy (p : plant)
    (net_energy_production canopy_area root_area core_area : R)
    (rr : row_reads) (time_step : R) (w : world_reads) : outcome unit :=
  let p := if stage_eqb (life_stage p) Mature && false
           then invest_in_reproduction p canopy_area time_step else p in
  let '(p, investment_from_reserves) :=
    if Rltb PLANT_GROWTH_INVESTMENT_ENERGY_RESERVE (energy p) then
      let desired_investment := (PLANT_GROWTH_INVESTMENT_J_PER_HOUR / SECONDS_PER_HOUR) * time_step in
      let available_from_reserves := energy p - PLANT_GROWTH_INVESTMENT_ENERGY_RESERVE in
      let inv := Rmin desired_investment available_from_reserves in
      (set_energy p (energy p - inv), inv)
    else (p, 0) in
  let growth_energy := Rmax 0 net_energy_production + investment_from_reserves in
  if Rltb 0 growth_energy then
    let '(core_investment, canopy_root_investment) :=
      if Rltb 1 canopy_area then
        if Rltb (core_area / canopy_area) PLANT_IDEAL_CORE_TO_CANOPY_AREA_RATIO
        then (growth_energy, 0)
        else (growth_energy * PLANT_STABLE_CORE_INVESTMENT_RATIO,
              growth_energy * (1 - PLANT_STABLE_CORE_INVESTMENT_RATIO))
      else (growth_energy * PLANT_STABLE_CORE_INVESTMENT_RATIO,
            growth_energy * (1 - PLANT_STABLE_CORE_INVESTMENT_RATIO)) in
    let total_limitation := environmental_efficiency rr + soil_eff rr in
    if Rltb 0 total_limitation then
      let old_core_radius := core_radius p in
      let p :=
        if Rltb 0 core_investment then
          let added_core_area := core_investment / PLANT_CORE_BIOMASS_ENERGY_COST in
          set_core_radius p (sqrt ((PI * core_radius p ^ 2 + added_core_area) / PI))
        else p in
      let p :=
        if Rltb 0 canopy_root_investment then
          let added_biomass_area := canopy_root_investment / PLANT_BIOMASS_ENERGY_COST in
          let added_canopy_area := added_biomass_area * (soil_eff rr / total_limitation) in
          let added_root_area :=
            added_biomass_area * (environmental_efficiency rr / total_limitation) in
          let p := set_radius p (sqrt ((canopy_area + added_canopy_area) / PI)) in
          let p := set_root_radius p (sqrt ((root_area + added_root_area) / PI)) in
          set_height p (radius p * radius_to_height_factor p)
        else p in
      if Rltb old_core_radius (core_radius p) then
        let p := set_core_growth_since_crush_check p
                   (core_growth_since_crush_check p + (core_radius p - old_core_radius)) in
        if Rleb PLANT_CRUSH_CHECK_GROWTH_THRESHOLD_CM (core_growth_since_crush_check p) then
          match crush_targets p w with
          | [] => Ret (set_core_growth_since_crush_check p 0) tt
          | _ :: _ => Raise p Passes.remove_error
          end
        else Ret p tt
      else Ret p tt
    else Ret p tt
  else Ret p tt.

(** Step 3 of [_update_growing_plant] ([self.energy += net ...]) and
    step 4. *)
Definition settle_energy (p : plant) (net_energy_production : R) : outcome unit :=
  let p := set_energy p (energy p + net_energy_production) in
  if Rleb (energy p) 0 then die p
  else if negb (has_reached_self_sufficiency p) && Rltb 0 net_energy_production
  then Ret (set_life_stage (set_has_reached_self_sufficiency p true) Mature) tt
  else Ret p tt.

(** [_update_growing_plant] after [_calculate_energy_balance] returned. *)
Definition growing_after_balance (p : plant) (b : balance) (rr : row_reads)
    (time_step : R) (w : world_reads) : outcome unit :=
  let net := net_energy_production b in
  if Rltb net 0 then
    if Rltb PLANT_GROWTH_INVESTMENT_ENERGY_RESERVE (energy p) then settle_energy p net
    else
      let '(p, net) := process_self_pruning p (Rabs net) (canopy_area b) (root_area b)
                                            (core_area b) rr time_step in
      if Rltb (radius p) (1 / 10) then die p else settle_energy p net
  else
    match allocate_surplus_energy p net (canopy_area b) (root_area b)
                                  (core_area b) rr time_step w with
    | Raise p e => Raise p e
    | Ret p _ => settle_energy p net
    end.

(** [_update_growing_plant]. *)
Definition update_growing_plant (p : plant) (rr : row_reads) (time_step : R)
    (w : world_reads) : outcome unit :=
  match calculate_energy_balance p rr time_step with
  | Raise p e => Raise p e
  | Ret p b => growing_after_balance p b rr time_step w
  end.

(** The structural check at the end of [Plant.update]. *)
Definition structural_check (p : plant) : outcome unit :=
  if is_alive p && negb (stage_eqb (life_stage p) Seed) then
    let final_canopy_area := PI * radius p ^ 2 in
    if Rltb 1 final_canopy_area then
      let final_ratio := (PI * core_radius p ^ 2) / final_canopy_area in
      if Rltb final_ratio PLANT_MIN_CORE_TO_CANOPY_RATIO then die p else Ret p tt
    else Ret p tt
  else Ret p tt.

(** [Plant.update]: the plant, and the seeds handed to
    [world.add_newborn]. *)
Definition update (w : world_reads) (rr : row_reads) (p : plant) (time_step : R)
  : outcome (list plant) :=
  if negb (is_alive p) then Ret p [] else
  let p := set_age p (age p + time_step) in
  let r := if stage_eqb (life_stage p) Seed
           then update_seed p time_step
           else update_growing_plant p rr time_step w in
  match r with
  | Raise p e => Raise p e
  | Ret p _ =>
      let '(p, newborns) :=
        if is_alive p && stage_eqb (life_stage p) Mature
        then update_organs w p time_step else (p, []) in
      match structural_check p with
      | Raise p e => Raise p e
      | Ret p _ => Ret p newborns
      end
  end.
End MissingConstants.

End Bio.

(** *** Concrete plants and worlds. *)
Module BioDemo.
Import Bio.
Local Open Scope R_scope.

(** [Rectangle(x, y, w, h).contains]. *)
Definition in_rect (x y w h : R) (n : creature_view) : bool :=
  Rleb (x - w) (cv_x n) && Rltb (cv_x n) (x + w) &&
  Rleb (y - h) (cv_y n) && Rltb (cv_y n) (y + h).

(** Flat terrain at elevation [elev], temperature 0.6 and humidity 0.7
    everywhere, the creatures [l], and every random angle 0. *)
Definition flat_world (elev : R) (l : list creature_view) : world_reads :=
  mkReads (fun _ _ => elev) (fun _ _ => 6 / 10) (fun _ _ => 7 / 10)
          (fun x y w h => filter (in_rect x y w h) l) (fun _ => (0, 0)).

Definition rows : row_reads := mkRowReads 0 1 1 1.

(** A seed on grass, at temperature 0.6 and humidity 0.7, with 2010 J. *)
Definition seed_2010 : plant :=
  mkPlant 100 100 2010 0 0 0 0 0 2 Seed true 0 [] false 0 (1 / 2) (Some Grass)
          (6 / 10) (7 / 10) 0.

(** A seedling below the growth reserve. *)
Definition weak_seedling : plant :=
  mkPlant 100 100 5000 86400 10 10 2 20 2 Seedling true 0 [] false 0 (1 / 2) (Some Grass)
          (6 / 10) (7 / 10) 0.

(** A mature plant above the growth reserve, with no organ. *)
Definition rich_mature : plant :=
  mkPlant 100 100 20000 864000 50 50 20 100 2 Mature true 0 [] true 0 (1 / 2) (Some Grass)
          (6 / 10) (7 / 10) 0.

(** A ripe fruit at the center of [parent]. *)
Definition ripe_fruit : organ := mkOrgan 0 Fruit 604801 100 100.

Definition parent : plant :=
  mkPlant 100 100 20000 864000 10 10 2 20 2 Mature true 0 [ripe_fruit] true 0 (1 / 2)
          (Some Grass) (6 / 10) (7 / 10) 0.

(** A plant with core radius 10 at the point where the fruit of [parent]
    comes to rest on flat terrain. *)
Definition blocker : creature_view := mkView 7 false true true 130 100 10.
End BioDemo.

(** *** Observations on a plant. *)
Module BioObs.
Import Bio.
Local Open Scope R_scope.

(** The fields of the reproductive state. *)
Definition repro (p : plant) : R * list organ :=
  (reproductive_energy_stored p, reproductive_organs p).

End BioObs.

(** *** Observations on a run of the scheduler, used to state its properties. *)
Module SchedObs.
Import Scheduler.
Local Open Scope Z_scope.

Definition cnt (o : creature) (l : list creature) : nat :=
  length (filter (creature_eqb o) l).

Definition bucket (k : Z) (s : schedule) : list creature := fst (pop k s).

Definition occ_s (o : creature) (s : schedule) : nat :=
  cnt o (concat (map snd s)).

Definition ticks_of (o : creature) (tr : list (Z * creature)) : list Z :=
  map fst (filter (fun p => creature_eqb o (snd p)) tr).

Definition tick_seq (k I : Z) (j n : nat) : list Z :=
  map (fun i => k + Z.of_nat i * I) (seq j n).

(** Number of interval boundaries [k, k+I, ...] strictly below [e]. *)
Definition boundaries (k e I : Z) : nat := Z.to_nat ((e - k + I - 1) / I).

Definition comp_seq (t : Z) (n : nat) : list Z :=
  map (fun i => t + Z.of_nat i * PLANT_COMPETITION_UPDATE_INTERVAL_SECONDS) (seq 0 n).

Definition sched_of {W} (o : creature) (wd : world W) : schedule :=
  match o with
  | Plant _ => plant_update_schedule wd
  | Animal _ => animal_update_schedule wd
  end.

Definition occ {W} (o : creature) (wd : world W) : nat :=
  (occ_s o (plant_update_schedule wd) + occ_s o (animal_update_schedule wd))%nat.

Definition at_key {W} (o : creature) (k : Z) (wd : world W) : nat :=
  cnt o (bucket k (sched_of o wd)).

(** Invariant of the event loop for the single occurrence of [o]
    first scheduled at [k]: after [j] ticks, either [o] sits once in
    its schedule at [k + j * I], or it has left the schedule dead. *)
Definition Inv {W} (is_alive : W -> creature -> bool) (o : creature)
    (k e : Z) (wd : world W) (j : nat) : Prop :=
  (j = 0%nat \/ k + (Z.of_nat j - 1) * interval_of o < e) /\
  ((occ o wd = 1%nat /\ at_key o (k + Z.of_nat j * interval_of o) wd = 1%nat) \/
   (occ o wd = 0%nat /\ is_alive (bio wd) o = false)).
(** Every key of both schedules satisfies [P]. *)
Definition AllKeys {W} (P : Z -> Prop) (wd : world W) : Prop :=
  Forall (fun e => P (fst e)) (plant_update_schedule wd) /\
  Forall (fun e => P (fst e)) (animal_update_schedule wd).

End SchedObs.

(** *** Concrete runs of the scheduler: one organism in an otherwise
    empty world whose creatures never die and never reproduce. *)
Module SchedDemo.
Import Scheduler.
Local Open Scope Z_scope.

Definition demo_alive (_ : unit) (_ : creature) : bool := true.
Definition demo_update (_ : Z) (_ : creature) (_ : Z) (w : unit)
  : unit * list creature := (w, []).
Definition demo_id (w : unit) : unit := w.

(** Clock 1800 s (not on an hour boundary), competition due far later. *)
Definition demo_world0 : world unit := mkWorld 1800 [] [] 86400 tt.

(** [schedule_plant_update(p, 3 * 3600)] then [update_in_bulk(4 * 3600)]. *)
Definition demo_run : option (world unit * list Z * list (Z * creature)) :=
  update_in_bulk_timeline demo_alive demo_update demo_id demo_id 100 (4 * 3600)
    (schedule_creature demo_world0 (Plant 0) (3 * 3600)).

(** [update_in_bulk(2 * 86400)] from clock 0 with the first competition
    rebuild due at 86400 and no organism scheduled. *)
Definition demo_run_comp : option (world unit * list Z * list (Z * creature)) :=
  update_in_bulk_timeline demo_alive demo_update demo_id demo_id 100 (2 * 86400)
    (mkWorld 0 [] [] 86400 tt).
End SchedDemo.

(** *** [quadtree.py]: [Rectangle] and [QuadTree].

    Coordinates are rationals.  A creature in the tree is a [qpoint]: its
    identity and its position when it was inserted.  [Leaf] is a node with
    [divided = False], [Split] one with its four children
    (northeast, northwest, southeast, southwest).  The recursion of
    [insert] is bounded by [fuel]; [None] is Python's [RecursionError]. *)
Module QuadTree.
Local Open Scope Q_scope.

Record rect := mkRect { rx : Q; ry : Q; rw : Q; rh : Q }.

Record qpoint := mkPoint { qid : nat; qx : Q; qy : Q }.

Definition Qltb (a b : Q) : bool := negb (Qle_bool b a).

(** [Rectangle.contains]. *)
Definition contains (r : rect) (p : qpoint) : bool :=
  Qle_bool (rx r - rw r) (qx p) && Qltb (qx p) (rx r + rw r) &&
  Qle_bool (ry r - rh r) (qy p) && Qltb (qy p) (ry r + rh r).

(** [Rectangle.intersects]. *)
Definition intersects (s range_rect : rect) : bool :=
  negb (Qltb (rx s + rw s) (rx range_rect - rw range_rect) ||
        Qltb (rx range_rect + rw range_rect) (rx s - rw s) ||
        Qltb (ry s + rh s) (ry range_rect - rh range_rect) ||
        Qltb (ry range_rect + rh range_rect) (ry s - rh s)).

Inductive qtree :=
| Leaf (boundary : rect) (points : list qpoint)
| Split (boundary : rect) (points : list qpoint) (ne nw se sw : qtree).

(** [QuadTree(boundary, capacity)]. *)
Definition new_tree (b : rect) : qtree := Leaf b [].

Definition boundary (t : qtree) : rect :=
  match t with Leaf b _ | Split b _ _ _ _ _ => b end.

(** The four quadrants made by [subdivide], in the order
    northeast, northwest, southeast, southwest. *)
Definition quadrants (b : rect) : rect * rect * rect * rect :=
  let x := rx b in
  let y := ry b in
  let w := rw b / 2 in
  let h := rh b / 2 in
  (mkRect (x + w) (y - h) w h, mkRect (x - w) (y - h) w h,
   mkRect (x + w) (y + h) w h, mkRect (x - w) (y + h) w h).

(** [subdivide]: four fresh empty children. *)
Definition subdivide (b : rect) : qtree * qtree * qtree * qtree :=
  let '(ne, nw, se, sw) := quadrants b in
  (Leaf ne [], Leaf nw [], Leaf se [], Leaf sw []).

Section Capacity.
Variable capacity : nat.

(** The node's own points, and the node with other points. *)
Definition points (t : qtree) : list qpoint :=
  match t with Leaf _ pts | Split _ pts _ _ _ _ => pts end.

Definition set_points (t : qtree) (pts : list qpoint) : qtree :=
  match t with
  | Leaf b _ => Leaf b pts
  | Split b _ ne nw se sw => Split b pts ne nw se sw
  end.

(** The children after [if not self.divided: self.subdivide()]. *)
Definition divide (t : qtree) : qtree * qtree * qtree * qtree :=
  match t with
  | Leaf b _ => subdivide b
  | Split _ _ ne nw se sw => (ne, nw, se, sw)
  end.

(** [insert]: the tree after the call and its truth value ([None], which
    the method returns when no child accepts the point, is false). *)
Fixpoint insert (fuel : nat) (t : qtree) (p : qpoint) : option (qtree * bool) :=
  match fuel with
  | O => None
  | S f =>
      let b := boundary t in
      let pts := points t in
      if negb (contains b p) then Some (t, false)
      else if Nat.ltb (length pts) capacity then Some (set_points t (pts ++ [p]), true)
      else
        let '(ne, nw, se, sw) := divide t in
        match insert f ne p with
        | None => None
        | Some (ne, true) => Some (Split b pts ne nw se sw, true)
        | Some (ne, false) =>
            match insert f nw p with
            | None => None
            | Some (nw, true) => Some (Split b pts ne nw se sw, true)
            | Some (nw, false) =>
                match insert f se p with
                | None => None
                | Some (se, true) => Some (Split b pts ne nw se sw, true)
                | Some (se, false) =>
                    match insert f sw p with
                    | None => None
                    | Some (sw, r) => Some (Split b pts ne nw se sw, r)
                    end
                end
            end
        end
  end.

(** Successive [insert] calls on one tree, each with the recursion
    bound [fuel]: the tree and the values returned. *)
Fixpoint insert_all (fuel : nat) (t : qtree) (ps : list qpoint) : option (qtree * list bool) :=
  match ps with
  | [] => Some (t, [])
  | p :: r =>
      match insert fuel t p with
      | None => None
      | Some (t', b) =>
          match insert_all fuel t' r with
          | None => None
          | Some (t'', bs) => Some (t'', b :: bs)
          end
      end
  end.
End Capacity.

(** [query(range_rect, found)]: [found] is extended in place and
    returned; the children are visited northwest, northeast, southwest,
    southeast. *)
Fixpoint query (t : qtree) (range_rect : rect) (found : list qpoint) : list qpoint :=
  match t with
  | Leaf b pts =>
      if negb (intersects b range_rect) then found
      else found ++ filter (contains range_rect) pts
  | Split b pts ne nw se sw =>
      if negb (intersects b range_rect) then found
      else
        let found := found ++ filter (contains range_rect) pts in
        query se range_rect (query sw range_rect (query ne range_rect (query nw range_rect found)))
  end.

(** The points stored in a tree, in the order [query] visits them. *)
Fixpoint elements (t : qtree) : list qpoint :=
  match t with
  | Leaf _ pts => pts
  | Split _ pts ne nw se sw => pts ++ elements nw ++ elements ne ++ elements sw ++ elements se
  end.

Fixpoint height (t : qtree) : nat :=
  match t with
  | Leaf _ _ => 0
  | Split _ _ ne nw se sw => S (Nat.max (Nat.max (height ne) (height nw)) (Nat.max (height se) (height sw)))
  end.
End QuadTree.

(** *** [creatures.py]: [Animal.find_closest_plant].

    The creatures returned by the quadtree query are the [qpoint]s stored
    in it; [is_live_plant] tells which are live plants
    ([isinstance(plant, Plant) and plant.is_alive]).  [float('inf')] is
    [None]. *)
Module Animal.
Import QuadTree.
Local Open Scope Q_scope.

Definition ANIMAL_SIGHT_RADIUS_CM : Q := 200.

Section Search.
Variable is_live_plant : qpoint -> bool.

Definition dist_sq (x y : Q) (p : qpoint) : Q := (x - qx p) ^ 2 + (y - qy p) ^ 2.

(** [dist_sq < min_dist]. *)
Definition lt_min (d : Q) (min_dist : option Q) : bool :=
  match min_dist with None => true | Some m => Qltb d m end.

(** One iteration of the loop over [nearby_creatures]. *)
Definition closest_step (x y : Q) (acc : option qpoint * option Q) (plant : qpoint)
  : option qpoint * option Q :=
  let '(closest_plant, min_dist) := acc in
  if is_live_plant plant then
    let d := dist_sq x y plant in
    if lt_min d min_dist then (Some plant, Some d) else (closest_plant, min_dist)
  else (closest_plant, min_dist).

Definition find_closest_plant (x y : Q) (t : qtree) : option qpoint :=
  let search_area := mkRect x y ANIMAL_SIGHT_RADIUS_CM ANIMAL_SIGHT_RADIUS_CM in
  let nearby_creatures := query t search_area [] in
  fst (fold_left (closest_step x y) nearby_creatures (None, None)).
End Search.
End Animal.

(** *** Efficiency formulas of [plant_manager.py]:
        [calculate_environment_efficiency] and the vectorized passes
        [PlantManager.update_aging_efficiencies] and
        [PlantManager.update_hydraulic_efficiencies].

    Store columns are lists of reals of the store's [capacity]; the
    float32/float64 rounding of NumPy is not modelled. *)
Module PlantPasses.
Local Open Scope R_scope.

(** The fields of [genes.PlantGenes] read by the formulas. *)
Record plant_genes := mkGenes {
  optimal_temperature : R;
  temperature_tolerance : R;
  optimal_humidity : R;
  humidity_tolerance : R }.

(** [PlantGenes()]: the constants [PLANT_OPTIMAL_TEMPERATURE],
    [PLANT_TEMPERATURE_TOLERANCE], [PLANT_OPTIMAL_HUMIDITY] and
    [PLANT_HUMIDITY_TOLERANCE]. *)
Definition default_genes : plant_genes := mkGenes 0.65 0.2 0.6 0.3.

Definition calculate_environment_efficiency (temperature humidity : R) (genes : plant_genes) : R :=
  let temp_diff := Rabs (temperature - optimal_temperature genes) in
  let temp_eff := exp (- ((temp_diff / temperature_tolerance genes) ^ 2)) in
  let hum_diff := Rabs (humidity - optimal_humidity genes) in
  let hum_eff := exp (- ((hum_diff / humidity_tolerance genes) ^ 2)) in
  temp_eff * hum_eff.

Definition PLANT_SENESCENCE_TIMESCALE_SECONDS : R := 252288000.
Definition PLANT_MAX_HYDRAULIC_HEIGHT_CM : R := 1000.

(** [dst[:count] = f(src[:count])] on two columns of the same length. *)
Definition slice_assign (f : R -> R) (count : nat) (src dst : list R) : list R :=
  map f (firstn count src) ++ skipn count dst.

(** The new [aging_efficiencies] column from [ages]. *)
Definition update_aging_efficiencies (count : nat) (ages aging_efficiencies : list R) : list R :=
  slice_assign (fun a => exp (- (a / PLANT_SENESCENCE_TIMESCALE_SECONDS))) count
    ages aging_efficiencies.

(** The new [hydraulic_efficiencies] column from [heights]. *)
Definition update_hydraulic_efficiencies (count : nat) (heights hydraulic_efficiencies : list R)
  : list R :=
  slice_assign (fun h => exp (- (h / PLANT_MAX_HYDRAULIC_HEIGHT_CM))) count
    heights hydraulic_efficiencies.
End PlantPasses.

(** *** [Animal.update] ([creatures.py]), with [Creature.die] and
        [World.report_death].

    [report_death] calls [self.quadtree.remove], and [update] (when the
    animal moved) calls [world.update_creature_in_quadtree], which calls
    it too; [QuadTree] defines no [remove], so both raise
    [AttributeError].  A coordinate is a float: [None] stands for NaN.
    The animal's [target_plant] is a reference to a plant; its
    [is_alive] flag is read through [plant_alive]. *)
Module AnimalTick.
Import Passes String.
Local Open Scope string_scope.
Local Open Scope R_scope.

Definition ANIMAL_METABOLISM_PER_SECOND : R := 1.
Definition CREATURE_REPRODUCTION_ENERGY_COST : R := 48000.
Definition ANIMAL_SPEED_CM_PER_SEC : R := 0.
Definition ANIMAL_ENERGY_PER_PLANT : R := 7500.

(** A plant referenced as a target: its id and position. *)
Record target := mkTarget { tid : nat; tx : R; ty : R }.

Record animal := mkAnimal {
  ax : option R; ay : option R; aenergy : R; aage : R; aalive : bool;
  target_plant : option target }.

Definition set_pos (a : animal) (x y : option R) : animal :=
  mkAnimal x y (aenergy a) (aage a) (aalive a) (target_plant a).
Definition set_aenergy (a : animal) (v : R) : animal :=
  mkAnimal (ax a) (ay a) v (aage a) (aalive a) (target_plant a).
Definition set_aage (a : animal) (v : R) : animal :=
  mkAnimal (ax a) (ay a) (aenergy a) v (aalive a) (target_plant a).
Definition set_aalive (a : animal) (v : bool) : animal :=
  mkAnimal (ax a) (ay a) (aenergy a) (aage a) v (target_plant a).
Definition set_target (a : animal) (v : option target) : animal :=
  mkAnimal (ax a) (ay a) (aenergy a) (aage a) (aalive a) v.

(** The end of a tick: the animal, or the exception raised and the
    animal when it was raised. *)
Inductive tick :=
| Done (a : animal)
| Raised (a : animal) (e : py_error).

(** [quadtree.remove(...)]. *)
Definition remove_error : py_error := AttributeError "remove".

(** [self.die(world, cause)] on a live animal: the flag is cleared, then
    [report_death] raises. *)
Definition die (a : animal) : tick :=
  if aalive a then Raised (set_aalive a false) remove_error else Done a.

(** [c + (d / n) * m] on floats, where [n = 0] only when [d = 0]:
    [0.0 / 0.0] is NaN. *)
Definition move_coord (c d n m : R) : option R :=
  if Req_EM_T n 0 then None else Some (c + (d / n) * m).

(** [Animal.update(world, time_step)]; [closest] is what
    [find_closest_plant(world.quadtree)] returns and [(move_x, move_y)]
    the two [random.uniform(-1, 1)] draws. *)
Definition update (plant_alive : nat -> bool) (a : animal) (time_step : R)
    (closest : option target) (move_x move_y : R) : tick :=
  if negb (aalive a) then Done a else
  let a := set_aage a (aage a + time_step) in
  let metabolism_cost := ANIMAL_METABOLISM_PER_SECOND * time_step in
  let a := set_aenergy a (aenergy a - metabolism_cost) in
  if Bio.Rleb (aenergy a) 0 then die a else
  if Bio.Rleb CREATURE_REPRODUCTION_ENERGY_COST (aenergy a) then
    Done (set_aenergy a (aenergy a - CREATURE_REPRODUCTION_ENERGY_COST))
  else
    let a := match target_plant a with
             | Some t => if negb (plant_alive (tid t)) then set_target a None else a
             | None => a
             end in
    let a := match target_plant a with None => set_target a closest | Some _ => a end in
    match target_plant a with
    | Some t =>
        let move_dist := ANIMAL_SPEED_CM_PER_SEC * time_step in
        match ax a, ay a with
        | Some x, Some y =>
            let direction_x := tx t - x in
            let direction_y := ty t - y in
            let distance := sqrt (direction_x ^ 2 + direction_y ^ 2) in
            if Bio.Rltb distance move_dist then
              let a := set_pos a (Some (tx t)) (Some (ty t)) in
              let a := set_aenergy a (aenergy a + ANIMAL_ENERGY_PER_PLANT) in
              (* [self.target_plant.die(world, "being eaten")] *)
              if plant_alive (tid t) then Raised a remove_error
              else Raised (set_target a None) remove_error
            else
              Raised (set_pos a (move_coord x direction_x distance move_dist)
                                (move_coord y direction_y distance move_dist))
                     remove_error
        | _, _ =>
            (* NaN coordinates: the comparison is false and the
               position stays NaN. *)
            Raised (set_pos a None None) remove_error
        end
    | None =>
        let norm := sqrt (move_x ^ 2 + move_y ^ 2) in
        if Bio.Rltb 0 norm then
          let move_dist := ANIMAL_SPEED_CM_PER_SEC * time_step in
          let upd c m := match c with Some c => Some (c + (m / norm) * move_dist) | None => None end in
          Raised (set_pos a (upd (ax a) move_x) (upd (ay a) move_y)) remove_error
        else Done a
    end.
(** A live animal at (100, 100) with 1000 J and no target. *)
Definition still_animal : animal := mkAnimal (Some 100) (Some 100) 1000 0 true None.
End AnimalTick.

(* ================================================================== *)
(** ** Part II: properties                                             *)
(* ================================================================== *)

Module SchedulerFacts.
Import Scheduler SchedObs.
Local Open Scope Z_scope.

Lemma creature_eqb_spec a b : creature_eqb a b = true <-> a = b.
Proof.
  destruct a, b; simpl; rewrite ?Nat.eqb_eq; split; intro H;
    try congruence; try discriminate.
Qed.

Lemma creature_eqb_refl a : creature_eqb a a = true.
Proof. apply creature_eqb_spec; reflexivity. Qed.

Lemma cnt_app o l1 l2 : cnt o (l1 ++ l2) = (cnt o l1 + cnt o l2)%nat.
Proof. unfold cnt. rewrite filter_app, length_app. reflexivity. Qed.

Lemma cnt_nil o : cnt o [] = 0%nat.
Proof. reflexivity. Qed.

Lemma cnt_single o c : cnt o [c] = if creature_eqb o c then 1%nat else 0%nat.
Proof. unfold cnt; simpl. destruct (creature_eqb o c); reflexivity. Qed.

Lemma cnt_zero_notin o l : cnt o l = 0%nat -> ~ In o l.
Proof.
  unfold cnt. intros H Hin.
  assert (In o (filter (creature_eqb o) l)) as Hf
    by (apply filter_In; split; [exact Hin | apply creature_eqb_refl]).
  destruct (filter (creature_eqb o) l); [contradiction | discriminate].
Qed.

Lemma notin_cnt_zero o l : ~ In o l -> cnt o l = 0%nat.
Proof.
  unfold cnt. induction l as [|c l IH]; intro H; simpl; [reflexivity|].
  destruct (creature_eqb o c) eqn:E.
  - apply creature_eqb_spec in E. subst. exfalso; apply H; left; reflexivity.
  - apply IH. intro; apply H; right; assumption.
Qed.

(** A list counting [o] once splits around that occurrence. *)
Lemma cnt_one_split o l :
  cnt o l = 1%nat -> exists pre post, l = pre ++ o :: post /\ ~ In o pre /\ ~ In o post.
Proof.
  induction l as [|c l IH]; intro H; [discriminate|].
  unfold cnt in H; simpl in H.
  destruct (creature_eqb o c) eqn:E.
  - apply creature_eqb_spec in E; subst c. simpl in H. injection H as H.
    exists [], l. split; [reflexivity|]. split; [intros []|].
    apply cnt_zero_notin. exact H.
  - destruct (IH H) as (pre & post & -> & H1 & H2).
    exists (c :: pre), post. split; [reflexivity|]. split; [|exact H2].
    intros [Hc|Hc]; [subst c; rewrite creature_eqb_refl in E; discriminate|].
    contradiction.
Qed.

Lemma pop_cnt o k s :
  (cnt o (bucket k s) + occ_s o (snd (pop k s)))%nat = occ_s o s.
Proof.
  unfold bucket, occ_s, pop; simpl.
  induction s as [|[k' l] s IH]; simpl; [reflexivity|].
  destruct (k' =? k); simpl; rewrite !cnt_app; lia.
Qed.

Lemma bucket_pop_other o k t s :
  k <> t -> cnt o (bucket k (snd (pop t s))) = cnt o (bucket k s).
Proof.
  intro Hne. unfold bucket, pop; simpl.
  induction s as [|[k' l] s IH]; simpl; [reflexivity|].
  destruct (k' =? t) eqn:Et; destruct (k' =? k) eqn:Ek; simpl;
    rewrite ?Et, ?Ek; simpl; rewrite ?cnt_app, ?IH; try reflexivity.
  apply Z.eqb_eq in Et; apply Z.eqb_eq in Ek. subst. contradiction.
Qed.

Lemma bucket_pop_same o t s : cnt o (bucket t (snd (pop t s))) = 0%nat.
Proof.
  unfold bucket, pop; simpl.
  induction s as [|[k' l] s IH]; simpl; [reflexivity|].
  destruct (k' =? t) eqn:Et; simpl; [exact IH|].
  rewrite Et; exact IH.
Qed.

Lemma bucket_le_occ o k s : (cnt o (bucket k s) <= occ_s o s)%nat.
Proof. pose proof (pop_cnt o k s). lia. Qed.

Lemma two_buckets_le_occ o k1 k2 s :
  k1 <> k2 -> (cnt o (bucket k1 s) + cnt o (bucket k2 s) <= occ_s o s)%nat.
Proof.
  intro Hne. pose proof (pop_cnt o k1 s) as H.
  rewrite <- (bucket_pop_other o k2 k1 s) by congruence.
  pose proof (bucket_le_occ o k2 (snd (pop k1 s))). lia.
Qed.

Lemma occ_bucket_append o s key c :
  occ_s o (bucket_append s key c)
  = (occ_s o s + (if creature_eqb o c then 1 else 0))%nat.
Proof.
  unfold occ_s. induction s as [|[k l] s IH]; simpl.
  - unfold cnt; simpl. destruct (creature_eqb o c); reflexivity.
  - destruct (k =? key); simpl; rewrite !cnt_app; [rewrite cnt_single; lia|].
    rewrite IH. lia.
Qed.

Lemma bucket_append_cnt o s key c k :
  cnt o (bucket k (bucket_append s key c))
  = (cnt o (bucket k s)
     + (if Z.eqb key k && creature_eqb o c then 1 else 0))%nat.
Proof.
  unfold bucket, pop; simpl.
  induction s as [|[k' l] s IH]; simpl.
  - destruct (key =? k); simpl; unfold cnt; simpl;
      [destruct (creature_eqb o c)|]; reflexivity.
  - destruct (k' =? key) eqn:E1; simpl.
    + apply Z.eqb_eq in E1; subst k'.
      destruct (key =? k); simpl; rewrite ?cnt_app, ?cnt_single; lia.
    + destruct (k' =? k); simpl; rewrite ?cnt_app, IH; lia.
Qed.

Lemma min_key_le s k l : In (k, l) s -> exists m, min_key s = Some m /\ m <= k.
Proof.
  induction s as [|[k' l'] s IH]; intros Hin; [destruct Hin|].
  simpl. destruct Hin as [Heq|Hin].
  - injection Heq as -> ->. destruct (min_key s); eexists; split; eauto; lia.
  - destruct (IH Hin) as (m & Hm & Hle). rewrite Hm. eexists; split; eauto; lia.
Qed.

Lemma bucket_nonempty_min o k s :
  (0 < cnt o (bucket k s))%nat -> exists m, min_key s = Some m /\ m <= k.
Proof.
  unfold bucket, pop; simpl. intro H.
  induction s as [|[k' l] s IH]; simpl in *; [unfold cnt in H; simpl in H; lia|].
  destruct (k' =? k) eqn:E.
  - apply Z.eqb_eq in E; subst. destruct (min_key s); eexists; split; eauto; lia.
  - destruct (IH H) as (m & -> & Hm). eexists; split; eauto; lia.
Qed.

Lemma min_key_in s m : min_key s = Some m -> exists l, In (m, l) s.
Proof.
  revert m. induction s as [|[k l] s IH]; intro m; simpl; [discriminate|].
  destruct (min_key s) as [m'|] eqn:E; intro H; injection H as <-.
  - destruct (Z.min_spec k m') as [[_ ->]|[_ ->]].
    + eauto.
    + destruct (IH m' eq_refl) as [l' Hl']. eauto.
  - eauto.
Qed.

Lemma min_key_lower s m : min_key s = Some m -> Forall (fun e => m <= fst e) s.
Proof.
  revert m. induction s as [|[k l] s IH]; intros m; simpl; [discriminate|].
  destruct (min_key s) as [m'|] eqn:E; intro H; injection H as <-.
  - specialize (IH m' eq_refl). constructor; simpl; [lia|].
    eapply Forall_impl; [|exact IH]. intros [a b]; simpl; lia.
  - destruct s as [|e s]; [constructor; simpl; [lia|constructor]|].
    simpl in E. destruct e, (min_key s); discriminate.
Qed.

(** The key computed by [schedule_*_update] lies strictly after the
    clock whenever the delay is at least one interval. *)
Lemma schedule_key_after now I : 0 < I -> now < schedule_key now I I.
Proof.
  intro HI. unfold schedule_key.
  pose proof (Z.quot_rem (now + I) I ltac:(lia)) as Hq.
  pose proof (Z.rem_bound_abs (now + I) I ltac:(lia)) as Hr.
  rewrite (Z.abs_eq I) in Hr by lia.
  destruct (Z.abs_spec (Z.rem (now + I) I)) as [[_ E]|[_ E]]; rewrite E in Hr; lia.
Qed.

(** On a bucket boundary, the next key is exactly one interval later. *)
Lemma schedule_key_boundary n I : I <> 0 -> schedule_key (n * I) I I = n * I + I.
Proof.
  intro HI. unfold schedule_key.
  replace (n * I + I) with ((n + 1) * I) by ring.
  rewrite Z.quot_mul by exact HI. reflexivity.
Qed.

Lemma interval_pos c : 0 < interval_of c.
Proof. destruct c; reflexivity. Qed.

Section WorldFacts.
Variable W : Type.
Variable is_alive : W -> creature -> bool.
Variable update : Z -> creature -> Z -> W -> W * list creature.
Variable o : creature.

Local Abbreviation sched_of := (SchedObs.sched_of o).
Local Abbreviation occ := (SchedObs.occ o).
Local Abbreviation at_key := (SchedObs.at_key o).
Local Abbreviation Inv := (SchedObs.Inv is_alive o).


Lemma at_key_le_occ k (wd : world W) : (at_key k wd <= occ wd)%nat.
Proof.
  unfold SchedObs.at_key, SchedObs.occ, SchedObs.sched_of. destruct o as [n|n];
    [pose proof (bucket_le_occ (Plant n) k (plant_update_schedule wd))
    |pose proof (bucket_le_occ (Animal n) k (animal_update_schedule wd))]; lia.
Qed.

Lemma two_keys_le_occ k1 k2 (wd : world W) :
  k1 <> k2 -> (at_key k1 wd + at_key k2 wd <= occ wd)%nat.
Proof.
  intro Hne. unfold SchedObs.at_key, SchedObs.occ, SchedObs.sched_of. destruct o as [n|n];
    [pose proof (two_buckets_le_occ (Plant n) k1 k2 (plant_update_schedule wd) Hne)
    |pose proof (two_buckets_le_occ (Animal n) k1 k2 (animal_update_schedule wd) Hne)];
    lia.
Qed.

Lemma at_key_next_event k (wd : world W) :
  (0 < at_key k wd)%nat -> exists t, next_event_time wd = Some t /\ t <= k.
Proof.
  unfold SchedObs.at_key, SchedObs.sched_of, next_event_time. intro H.
  destruct o;
    [destruct (bucket_nonempty_min _ k _ H) as (m & Hm & Hle); rewrite Hm;
     destruct (min_key (animal_update_schedule wd))
    |destruct (bucket_nonempty_min _ k _ H) as (m & Hm & Hle); rewrite Hm;
     destruct (min_key (plant_update_schedule wd))];
    simpl; eexists; split; try reflexivity; lia.
Qed.

Lemma schedule_creature_clock (wd : world W) c d :
  total_sim_seconds (schedule_creature wd c d) = total_sim_seconds wd /\
  bio (schedule_creature wd c d) = bio wd /\
  next_competition_update_time (schedule_creature wd c d)
    = next_competition_update_time wd.
Proof. destruct c; repeat split. Qed.

Lemma schedule_creature_occ (wd : world W) c d :
  occ (schedule_creature wd c d)
  = (occ wd + (if creature_eqb o c then 1 else 0))%nat.
Proof.
  unfold SchedObs.occ. destruct c; simpl; rewrite occ_bucket_append; lia.
Qed.

Lemma schedule_creature_at_key (wd : world W) c d k :
  at_key k (schedule_creature wd c d)
  = (at_key k wd
     + (if Z.eqb (schedule_key (total_sim_seconds wd) d (interval_of c)) k
           && creature_eqb o c then 1 else 0))%nat.
Proof.
  unfold SchedObs.at_key, SchedObs.sched_of.
  destruct o as [n|n], c as [m|m]; simpl; rewrite ?bucket_append_cnt;
    rewrite ?andb_false_r; try lia; reflexivity.
Qed.

Lemma schedule_creature_other (wd : world W) c d k :
  c <> o -> occ (schedule_creature wd c d) = occ wd /\
            at_key k (schedule_creature wd c d) = at_key k wd.
Proof.
  intro Hne.
  assert (creature_eqb o c = false) as E.
  { destruct (creature_eqb o c) eqn:E; [|reflexivity].
    apply creature_eqb_spec in E; congruence. }
  rewrite schedule_creature_occ, schedule_creature_at_key, E, andb_false_r.
  split; lia.
Qed.

Lemma add_newborns_facts (wd : world W) nb :
  ~ In o nb ->
  total_sim_seconds (add_newborns wd nb) = total_sim_seconds wd /\
  bio (add_newborns wd nb) = bio wd /\
  next_competition_update_time (add_newborns wd nb)
    = next_competition_update_time wd /\
  occ (add_newborns wd nb) = occ wd /\
  (forall k, at_key k (add_newborns wd nb) = at_key k wd).
Proof.
  unfold add_newborns. revert wd.
  induction nb as [|c nb IH]; intros wd Hin; simpl; [repeat split; auto|].
  assert (c <> o) as Hne by (intro; apply Hin; left; congruence).
  destruct (IH (schedule_update wd c)) as (H1 & H2 & H3 & H4 & H5);
    [intro; apply Hin; right; assumption|].
  unfold schedule_update in *.
  destruct (schedule_creature_clock wd c (interval_of c)) as (C1 & C2 & C3).
  repeat split; try congruence.
  - rewrite H4. apply (schedule_creature_other wd c (interval_of c) 0 Hne).
  - intro k. rewrite H5. apply (schedule_creature_other wd c (interval_of c) k Hne).
Qed.

Lemma process_app (wd : world W) l1 l2 :
  process_creatures is_alive update wd (l1 ++ l2)
  = let '(w1, t1) := process_creatures is_alive update wd l1 in
    let '(w2, t2) := process_creatures is_alive update w1 l2 in
    (w2, t1 ++ t2).
Proof.
  revert wd. induction l1 as [|c l1 IH]; intro wd; simpl.
  - destruct (process_creatures is_alive update wd l2); reflexivity.
  - destruct (is_alive (bio wd) c); [|apply IH].
    destruct (update (total_sim_seconds wd) c (interval_of c) (bio wd)) as [w' nb].
    rewrite IH.
    destruct (process_creatures is_alive update _ l1) as [w1 t1].
    destruct (process_creatures is_alive update w1 l2) as [w2 t2].
    reflexivity.
Qed.

Lemma process_clock (wd : world W) cs :
  total_sim_seconds (fst (process_creatures is_alive update wd cs))
    = total_sim_seconds wd /\
  next_competition_update_time (fst (process_creatures is_alive update wd cs))
    = next_competition_update_time wd /\
  Forall (fun p => fst p = total_sim_seconds wd)
    (snd (process_creatures is_alive update wd cs)).
Proof.
  revert wd. induction cs as [|c cs IH]; intro wd; simpl; [auto|].
  destruct (is_alive (bio wd) c); [|apply IH].
  destruct (update (total_sim_seconds wd) c (interval_of c) (bio wd)) as [w' nb].
  set (wd2 := if is_alive w' c then _ else _).
  assert (total_sim_seconds wd2 = total_sim_seconds wd /\
          next_competition_update_time wd2 = next_competition_update_time wd)
    as [E1 E2].
  { assert (forall (x : world W) l,
              total_sim_seconds (add_newborns x l) = total_sim_seconds x /\
              next_competition_update_time (add_newborns x l)
                = next_competition_update_time x) as Hadd.
    { intros x l. unfold add_newborns. revert x.
      induction l as [|b l IHl]; intro x; simpl; [auto|].
      destruct (IHl (schedule_update x b)) as [-> ->].
      unfold schedule_update.
      destruct (schedule_creature_clock x b (interval_of b)) as (-> & _ & ->). auto. }
    unfold wd2. destruct (is_alive w' c).
    - unfold schedule_update.
      destruct (schedule_creature_clock (add_newborns (set_bio wd w') nb) c
                  (interval_of c)) as (-> & _ & ->).
      exact (Hadd _ _).
    - exact (Hadd _ _). }
  destruct (IH wd2) as (F1 & F2 & F3).
  destruct (process_creatures is_alive update wd2 cs) as [w3 tr]; simpl in *.
  rewrite E1 in *. rewrite E2 in *. auto.
Qed.

Lemma ticks_of_app l1 l2 : ticks_of o (l1 ++ l2) = ticks_of o l1 ++ ticks_of o l2.
Proof. unfold ticks_of. rewrite filter_app, map_app. reflexivity. Qed.

Hypothesis Hfresh : forall t c d w, ~ In o (snd (update t c d w)).
Hypothesis Hmono :
  forall t c d w, is_alive (fst (update t c d w)) o = true -> is_alive w o = true.

Lemma process_other (wd : world W) cs :
  ~ In o cs ->
  occ (fst (process_creatures is_alive update wd cs)) = occ wd /\
  (forall k, at_key k (fst (process_creatures is_alive update wd cs)) = at_key k wd) /\
  ticks_of o (snd (process_creatures is_alive update wd cs)) = [] /\
  (is_alive (bio wd) o = false ->
   is_alive (bio (fst (process_creatures is_alive update wd cs))) o = false).
Proof.
  revert wd. induction cs as [|c cs IH]; intros wd Hin; simpl; [auto|].
  assert (c <> o) as Hne by (intro; apply Hin; left; congruence).
  assert (~ In o cs) as Hin' by (intro; apply Hin; right; assumption).
  destruct (is_alive (bio wd) c); [|apply IH; exact Hin'].
  pose proof (Hfresh (total_sim_seconds wd) c (interval_of c) (bio wd)) as Hf.
  pose proof (Hmono (total_sim_seconds wd) c (interval_of c) (bio wd)) as Hm.
  destruct (update (total_sim_seconds wd) c (interval_of c) (bio wd)) as [w' nb].
  simpl in Hf, Hm.
  destruct (add_newborns_facts (set_bio wd w') nb Hf) as (_ & B1 & _ & O1 & K1).
  set (wd1 := add_newborns (set_bio wd w') nb) in *.
  set (wd2 := if is_alive w' c then schedule_update wd1 c else wd1).
  assert (occ wd2 = occ wd /\ (forall k, at_key k wd2 = at_key k wd) /\
          bio wd2 = w') as (O2 & K2 & B2).
  { unfold wd2. destruct (is_alive w' c).
    - unfold schedule_update.
      destruct (schedule_creature_clock wd1 c (interval_of c)) as (_ & -> & _).
      split; [|split; [|exact B1]].
      + rewrite (proj1 (schedule_creature_other wd1 c (interval_of c) 0 Hne)).
        rewrite O1. reflexivity.
      + intro k. rewrite (proj2 (schedule_creature_other wd1 c (interval_of c) k Hne)).
        rewrite K1. reflexivity.
    - split; [|split; [|exact B1]]; [exact O1|exact K1]. }
  destruct (IH wd2 Hin') as (O3 & K3 & T3 & A3).
  destruct (process_creatures is_alive update wd2 cs) as [w3 tr] eqn:E; simpl in *.
  split; [congruence|]. split; [intro k; rewrite K3; apply K2|].
  split.
  - unfold ticks_of in *; simpl.
    destruct (creature_eqb o c) eqn:Ec;
      [apply creature_eqb_spec in Ec; congruence|exact T3].
  - intro Hd. apply A3. rewrite B2.
    destruct (is_alive w' o) eqn:Ew; [|reflexivity].
    rewrite (Hm eq_refl) in Hd. discriminate.
Qed.

Lemma ticks_of_cons_self t tr : ticks_of o ((t, o) :: tr) = t :: ticks_of o tr.
Proof. unfold ticks_of; simpl. rewrite creature_eqb_refl. reflexivity. Qed.

(** One batch of the event loop that holds the single scheduled
    occurrence of [o], popped at the bucket boundary [n * I]. *)
Lemma process_self (wd : world W) pre post n :
  ~ In o pre -> ~ In o post -> occ wd = 0%nat ->
  total_sim_seconds wd = n * interval_of o ->
  let r := process_creatures is_alive update wd (pre ++ o :: post) in
  (occ (fst r) = 1%nat /\
   at_key (n * interval_of o + interval_of o) (fst r) = 1%nat /\
   ticks_of o (snd r) = [n * interval_of o]) \/
  (occ (fst r) = 0%nat /\ is_alive (bio (fst r)) o = false /\
   (ticks_of o (snd r) = [n * interval_of o] \/ ticks_of o (snd r) = [])).
Proof.
  intros Hpre Hpost Hocc Hclk r. unfold r; clear r.
  rewrite process_app.
  destruct (process_other wd pre Hpre) as (O1 & K1 & T1 & A1).
  destruct (process_clock wd pre) as (C1 & _ & _).
  destruct (process_creatures is_alive update wd pre) as [w1 t1]; simpl in *.
  destruct (is_alive (bio w1) o) eqn:Ea.
  - pose proof (Hfresh (total_sim_seconds w1) o (interval_of o) (bio w1)) as Hf.
    destruct (update (total_sim_seconds w1) o (interval_of o) (bio w1)) as [w' nb].
    simpl in Hf.
    destruct (add_newborns_facts (set_bio w1 w') nb Hf) as (C2 & B2 & _ & O2 & K2).
    set (wd1 := add_newborns (set_bio w1 w') nb) in *.
    change (occ (set_bio w1 w')) with (occ w1) in O2.
    destruct (is_alive w' o) eqn:Ew.
    + set (wd2 := schedule_update wd1 o).
      assert (occ wd2 = 1%nat) as O3.
      { unfold wd2, schedule_update. rewrite schedule_creature_occ, creature_eqb_refl.
        lia. }
      assert (at_key (n * interval_of o + interval_of o) wd2 = 1%nat) as K3.
      { unfold wd2, schedule_update. rewrite schedule_creature_at_key, creature_eqb_refl.
        change (total_sim_seconds wd1 = total_sim_seconds w1) in C2.
        rewrite C2, C1, Hclk, schedule_key_boundary
          by (pose proof (interval_pos o); lia).
        rewrite Z.eqb_refl. simpl.
        pose proof (at_key_le_occ (n * interval_of o + interval_of o) wd1). lia. }
      destruct (process_other wd2 post Hpost) as (O4 & K4 & T4 & _).
      destruct (process_creatures is_alive update wd2 post) as [w3 tr]; simpl in *.
      left. split; [congruence|]. split; [rewrite K4; exact K3|].
      rewrite ticks_of_app, T1, ticks_of_cons_self, T4, C1, Hclk. reflexivity.
    + destruct (process_other wd1 post Hpost) as (O4 & _ & T4 & A4).
      destruct (process_creatures is_alive update wd1 post) as [w3 tr]; simpl in *.
      right. split; [congruence|]. split; [apply A4; rewrite B2; exact Ew|].
      left. rewrite ticks_of_app, T1, ticks_of_cons_self, T4, C1, Hclk. reflexivity.
  - destruct (process_other w1 post Hpost) as (O4 & _ & T4 & A4).
    destruct (process_creatures is_alive update w1 post) as [w3 tr]; simpl in *.
    right. split; [congruence|]. split; [apply A4; exact Ea|].
    right. rewrite ticks_of_app, T1, T4. reflexivity.
Qed.

Lemma pop_world (wd : world W) t nct (b : W) :
  let wd1 := mkWorld t (snd (pop t (plant_update_schedule wd)))
                       (snd (pop t (animal_update_schedule wd))) nct b in
  let l := bucket t (plant_update_schedule wd) ++ bucket t (animal_update_schedule wd) in
  (occ wd1 + cnt o l = occ wd)%nat /\
  (forall k, k <> t -> at_key k wd1 = at_key k wd) /\
  (at_key t wd <= cnt o l)%nat.
Proof.
  intros wd1 l. unfold wd1, l, SchedObs.occ, SchedObs.at_key, sched_of; cbn [plant_update_schedule animal_update_schedule].
  pose proof (pop_cnt o t (plant_update_schedule wd)).
  pose proof (pop_cnt o t (animal_update_schedule wd)).
  rewrite cnt_app. split; [lia|]. split.
  - intros k Hk. destruct o; apply bucket_pop_other; assumption.
  - destruct o; lia.
Qed.


Lemma tick_seq_app k I j a b :
  tick_seq k I j a ++ tick_seq k I (j + a) b = tick_seq k I j (a + b).
Proof. unfold tick_seq. rewrite seq_app, map_app. reflexivity. Qed.

Lemma step_inv k n0 e (wd : world W) j t :
  k = n0 * interval_of o -> Inv k e wd j -> t < e ->
  let wd1 := mkWorld t (snd (pop t (plant_update_schedule wd)))
               (snd (pop t (animal_update_schedule wd)))
               (next_competition_update_time wd) (bio wd) in
  let r := process_creatures is_alive update wd1
             (bucket t (plant_update_schedule wd)
              ++ bucket t (animal_update_schedule wd)) in
  exists j1, (j <= j1)%nat /\
    ticks_of o (snd r) = tick_seq k (interval_of o) j (j1 - j) /\
    Inv k e (fst r) j1.
Proof.
  intros Hk [Hc Hcase] Ht wd1 r.
  destruct (pop_world wd t (next_competition_update_time wd) (bio wd))
    as (P1 & P2 & P3).
  fold wd1 in P1, P2.
  set (l := bucket t (plant_update_schedule wd)
            ++ bucket t (animal_update_schedule wd)) in *.
  pose proof (interval_pos o) as HI.
  destruct Hcase as [[Ho Hat]|[Ho Hd]].
  - destruct (Z.eq_dec (k + Z.of_nat j * interval_of o) t) as [Heq|Hne].
    + rewrite Heq in Hat.
      assert (cnt o l = 1%nat) as Hl by lia.
      assert (occ wd1 = 0%nat) as Ho1 by lia.
      destruct (cnt_one_split o l Hl) as (pre & post & Hsplit & Hpre & Hpost).
      unfold r. rewrite Hsplit.
      assert (total_sim_seconds wd1 = (n0 + Z.of_nat j) * interval_of o) as Hclk
        by (simpl; rewrite <- Heq, Hk; ring).
      destruct (process_self wd1 pre post (n0 + Z.of_nat j) Hpre Hpost Ho1 Hclk)
        as [(O & K & T)|(O & D & [T|T])].
      * exists (S j). split; [lia|].
        replace (S j - j)%nat with 1%nat by lia.
        split.
        { rewrite T. unfold tick_seq; simpl. f_equal. rewrite Hk. ring. }
        split; [right; rewrite Nat2Z.inj_succ; lia|].
        left. split; [exact O|].
        rewrite <- K. f_equal. rewrite Nat2Z.inj_succ, Hk. ring.
      * exists (S j). split; [lia|].
        replace (S j - j)%nat with 1%nat by lia.
        split.
        { rewrite T. unfold tick_seq; simpl. f_equal. rewrite Hk. ring. }
        split; [right; rewrite Nat2Z.inj_succ; lia|].
        right. split; assumption.
      * exists j. split; [lia|]. rewrite Nat.sub_diag. split; [exact T|].
        split; [exact Hc|]. right. split; assumption.
    + pose proof (P2 _ Hne) as Hat1. rewrite Hat in Hat1.
      pose proof (at_key_le_occ (k + Z.of_nat j * interval_of o) wd1).
      assert (cnt o l = 0%nat) as Hl by lia.
      destruct (process_other wd1 l (cnt_zero_notin o l Hl)) as (O & K & T & _).
      unfold r. exists j. split; [lia|]. rewrite Nat.sub_diag. split; [exact T|].
      split; [exact Hc|]. left. split; [lia|]. rewrite K. exact Hat1.
  - assert (cnt o l = 0%nat) as Hl by lia.
    destruct (process_other wd1 l (cnt_zero_notin o l Hl)) as (O & _ & T & A).
    unfold r. exists j. split; [lia|]. rewrite Nat.sub_diag. split; [exact T|].
    split; [exact Hc|]. right. split; [lia|]. apply A. exact Hd.
Qed.

Lemma event_loop_inv k n0 e :
  k = n0 * interval_of o ->
  forall fuel (wd : world W) j wd' ws tr,
  Inv k e wd j -> event_loop is_alive update fuel e wd = Some (wd', ws, tr) ->
  exists j', (j <= j')%nat /\
    ticks_of o tr = tick_seq k (interval_of o) j (j' - j) /\
    Inv k e wd' j' /\
    (forall t, next_event_time wd' = Some t -> e <= t).
Proof.
  intros Hk fuel. induction fuel as [|f IH]; intros wd j wd' ws tr Hinv Hrun;
    [discriminate|].
  cbn -[pop process_creatures next_event_time] in Hrun.
  destruct (next_event_time wd) as [t|] eqn:En.
  - destruct (e <=? t) eqn:Et.
    + injection Hrun as <- <- <-. exists j.
      rewrite Nat.sub_diag. repeat split; try lia; try apply Hinv.
      intros t' Ht'. apply Z.leb_le in Et. congruence.
    + apply Z.leb_gt in Et.
      destruct (step_inv k n0 e wd j t Hk Hinv Et) as (j1 & Hj1 & T1 & I1).
      destruct (pop t (plant_update_schedule wd)) as [pl ps] eqn:Ep.
      destruct (pop t (animal_update_schedule wd)) as [al as_] eqn:Ea.
      unfold bucket in T1, I1. rewrite Ep, Ea in T1, I1. simpl in T1, I1.
      destruct (process_creatures is_alive update _ (pl ++ al)) as [wd2 tr1].
      simpl in T1, I1, Hrun.
      destruct (event_loop is_alive update f e wd2) as [[[wd3 ws'] tr']|] eqn:El;
        [|discriminate].
      injection Hrun as <- <- <-.
      destruct (IH wd2 j1 wd3 ws' tr' I1 El) as (j' & Hj' & T' & I' & S').
      exists j'. split; [lia|]. split; [|split; assumption].
      rewrite ticks_of_app, T1, T'.
      replace j1 with (j + (j1 - j))%nat at 2 by lia.
      rewrite tick_seq_app. f_equal. lia.
  - injection Hrun as <- <- <-. exists j.
    rewrite Nat.sub_diag. repeat split; try lia; try apply Hinv.
    intros t' Ht'. congruence.
Qed.

Lemma boundaries_exact k e I j :
  0 < I -> (j = 0%nat \/ k + (Z.of_nat j - 1) * I < e) ->
  e <= k + Z.of_nat j * I -> j = boundaries k e I.
Proof.
  intros HI Hc Hle. unfold boundaries.
  destruct Hc as [->|Hc].
  - assert ((e - k + I - 1) / I < 1); [|lia].
    apply Z.div_lt_upper_bound; [exact HI|]. simpl in Hle. lia.
  - assert (Z.of_nat j = (e - k + I - 1) / I) as Hd.
    { apply (Z.div_unique_pos _ _ _ (e - k + I - 1 - Z.of_nat j * I)); [nia|ring]. }
    rewrite <- Hd. lia.
Qed.

Lemma boundaries_upper k e I j :
  0 < I -> (j = 0%nat \/ k + (Z.of_nat j - 1) * I < e) ->
  (j <= boundaries k e I)%nat.
Proof.
  intros HI Hc. unfold boundaries.
  destruct Hc as [->|Hc]; [lia|].
  assert (Z.of_nat j <= (e - k + I - 1) / I); [|lia].
  apply Z.div_le_lower_bound; [exact HI|]. nia.
Qed.
End WorldFacts.



Lemma comp_seq_S t n :
  comp_seq t (S n) = t :: comp_seq (t + PLANT_COMPETITION_UPDATE_INTERVAL_SECONDS) n.
Proof.
  unfold comp_seq. simpl. f_equal; [ring|].
  rewrite <- seq_shift, map_map. apply map_ext. intro i.
  rewrite Nat2Z.inj_succ. ring.
Qed.

Lemma competition_loop_facts {W} (comp : W -> W) fuel e (wd wd1 : world W) cw :
  competition_loop comp fuel e wd = Some (wd1, cw) ->
  plant_update_schedule wd1 = plant_update_schedule wd /\
  animal_update_schedule wd1 = animal_update_schedule wd /\
  exists n, cw = comp_seq (next_competition_update_time wd) n /\
    Forall (fun t => t < e) cw.
Proof.
  revert wd wd1 cw. induction fuel as [|f IH]; intros wd wd1 cw H; [discriminate|].
  simpl in H. destruct (next_competition_update_time wd <? e) eqn:Et.
  - destruct (competition_loop comp f e _) as [[wd2 ws]|] eqn:E; [|discriminate].
    injection H as <- <-.
    destruct (IH _ _ _ E) as (P & A & n & Hn & Hf); simpl in *.
    split; [exact P|]. split; [exact A|]. exists (S n).
    rewrite comp_seq_S, Hn. split; [reflexivity|].
    constructor; [apply Z.ltb_lt; exact Et|rewrite <- Hn; exact Hf].
  - injection H as <- <-. split; [reflexivity|]. split; [reflexivity|].
    exists 0%nat. split; [reflexivity|constructor].
Qed.

Lemma occ_schedules {W} o (wd wd' : world W) :
  plant_update_schedule wd' = plant_update_schedule wd ->
  animal_update_schedule wd' = animal_update_schedule wd ->
  occ o wd' = occ o wd /\ (forall k, at_key o k wd' = at_key o k wd).
Proof.
  intros P A. unfold occ, at_key, sched_of. rewrite P, A. auto.
Qed.

(** Claim C1 (as amended).  In [update_in_bulk], an organism [o]
    scheduled once with [delay] at clock [now] lands in the bucket
    [k = int((now + delay) / I) * I].  Provided [o] is never among the
    newborns, death is never undone, and the rest of the run does not
    schedule [o] again, the ticks of [o] are exactly at
    [k, k + I, k + 2I, ...], with the clock inside each tick equal to
    that key.  The count is at most the number of such boundaries
    below the window end, and equal to it whenever [o] is still alive
    at the end. *)
Theorem bulk_ticks_on_interval_boundaries {W} (is_alive : W -> creature -> bool)
    update competition_update housekeeping (o : creature)
    (Hfresh : forall t c d w, ~ In o (snd (update t c d w)))
    (Hmono : forall t c d w,
        is_alive (fst (update t c d w)) o = true -> is_alive w o = true)
    (Hhk : forall w, is_alive (housekeeping w) o = true -> is_alive w o = true)
    (wd0 : world W) (delay large_delta : Z) (fuel : nat)
    (wd' : world W) writes tr
    (Habsent : occ o wd0 = 0%nat)
    (Hrun : update_in_bulk_timeline is_alive update competition_update housekeeping
              fuel large_delta (schedule_creature wd0 o delay)
            = Some (wd', writes, tr)) :
  let I := interval_of o in
  let k := schedule_key (total_sim_seconds wd0) delay I in
  let e := total_sim_seconds wd0 + large_delta in
  exists j, (j <= boundaries k e I)%nat /\
    ticks_of o tr = tick_seq k I 0 j /\
    (is_alive (bio wd') o = true -> j = boundaries k e I).
Proof.
  intros I k e.
  pose proof (interval_pos o) as HI.
  set (wd := schedule_creature wd0 o delay) in *.
  destruct (schedule_creature_clock W wd0 o delay) as (C0 & _ & _).
  fold wd in C0.
  unfold update_in_bulk_timeline in Hrun. rewrite C0 in Hrun. fold e in Hrun.
  destruct (competition_loop competition_update fuel e wd) as [[wd1 cw]|] eqn:Ec;
    [|discriminate].
  destruct (competition_loop_facts competition_update fuel e wd wd1 cw Ec)
    as (P1 & A1 & _).
  set (wd2 := set_clock wd1 (total_sim_seconds wd0)) in Hrun.
  destruct (event_loop is_alive update fuel e wd2) as [[[wd3 ew] tr3]|] eqn:El;
    [|discriminate].
  injection Hrun as <- <- <-.
  destruct (occ_schedules o wd wd2 P1 A1) as (O2 & K2).
  assert (Inv is_alive o k e wd2 0) as Hinv0.
  { split; [left; reflexivity|]. left. split.
    - rewrite O2. unfold wd. rewrite schedule_creature_occ, creature_eqb_refl. lia.
    - rewrite K2. unfold wd. rewrite schedule_creature_at_key, creature_eqb_refl.
      replace (k + Z.of_nat 0 * interval_of o) with k by lia.
      fold I. fold k. rewrite Z.eqb_refl. simpl.
      pose proof (at_key_le_occ W o k wd0). lia. }
  destruct (event_loop_inv W is_alive update o Hfresh Hmono k
              (Z.quot (total_sim_seconds wd0 + delay) I) e eq_refl fuel wd2 0
              wd3 ew tr3 Hinv0 El) as (j & _ & T & [Hc Hcase] & Hstop).
  exists j. rewrite Nat.sub_0_r in T.
  split; [apply boundaries_upper; assumption|]. split; [exact T|].
  intro Halive. apply Hhk in Halive. simpl in Halive.
  destruct Hcase as [[_ Hat]|[_ Hd]]; [|congruence].
  destruct (at_key_next_event W o (k + Z.of_nat j * interval_of o) wd3 ltac:(lia))
    as (t & Ht & Hle).
  apply boundaries_exact; [exact HI|exact Hc|].
  specialize (Hstop t Ht). lia.
Qed.
(** Witness for C1: the theorem applied to the demo run. *)
Lemma bulk_ticks_on_interval_boundaries_witness :
  match SchedDemo.demo_run with
  | Some (wd', _, tr) =>
      exists j, (j <= boundaries 10800 16200 3600)%nat /\
        ticks_of (Plant 0) tr = tick_seq 10800 3600 0 j /\
        (SchedDemo.demo_alive (bio wd') (Plant 0) = true ->
         j = boundaries 10800 16200 3600)
  | None => False
  end.
Proof.
  destruct SchedDemo.demo_run as [[[wd' ws] tr]|] eqn:E;
    [|vm_compute in E; discriminate].
  exact (bulk_ticks_on_interval_boundaries SchedDemo.demo_alive SchedDemo.demo_update
           SchedDemo.demo_id SchedDemo.demo_id (Plant 0)
           (fun t c d w => fun H => H) (fun t c d w H => eq_refl)
           (fun w H => H) SchedDemo.demo_world0 (3 * 3600) (4 * 3600) 100
           wd' ws tr eq_refl E).
Defined.

(** Counterexample for C1: scheduled at clock 1800 with delay
    [3 * 3600] and advanced by [4 * 3600], the plant is ticked twice,
    at 10800 and 14400, and never at [1800 + 3 * 3600 = 12600]. *)
Lemma bulk_delay_three_intervals_ticks_twice :
  match SchedDemo.demo_run with
  | Some (_, _, tr) =>
      ticks_of (Plant 0) tr = [10800; 14400] /\
      ~ In (1800 + 3 * 3600) (ticks_of (Plant 0) tr)
  | None => False
  end.
Proof.
  vm_compute. split; [reflexivity|].
  intros [H|[H|H]]; [discriminate|discriminate|exact H].
Qed.
(** ** Ordering of the clock values (C2) *)

Lemma bucket_append_keys (P : Z -> Prop) s key c :
  Forall (fun e => P (fst e)) s -> P key ->
  Forall (fun e => P (fst e)) (bucket_append s key c).
Proof.
  induction s as [|[k l] s IH]; intros Hs Hk; simpl.
  - constructor; [exact Hk|constructor].
  - inversion Hs as [|? ? Hkl Hs']; subst.
    destruct (k =? key); constructor; auto.
Qed.

Lemma schedule_update_keys {W} (wd : world W) c :
  AllKeys (fun k => total_sim_seconds wd < k) wd ->
  AllKeys (fun k => total_sim_seconds wd < k) (schedule_update wd c).
Proof.
  intros [P A]. pose proof (interval_pos c) as HI.
  destruct c; split; simpl; try assumption;
    apply bucket_append_keys; try assumption; apply schedule_key_after; exact HI.
Qed.

Lemma add_newborns_keys {W} (wd : world W) nb t :
  total_sim_seconds wd = t ->
  AllKeys (fun k => t < k) wd -> AllKeys (fun k => t < k) (add_newborns wd nb).
Proof.
  unfold add_newborns. revert wd.
  induction nb as [|c nb IH]; intros wd Ht H; simpl; [exact H|].
  apply IH.
  - unfold schedule_update. destruct (schedule_creature_clock W wd c (interval_of c))
      as (-> & _ & _). exact Ht.
  - subst t. apply schedule_update_keys. exact H.
Qed.

Lemma add_newborns_clock {W} (wd : world W) nb :
  total_sim_seconds (add_newborns wd nb) = total_sim_seconds wd.
Proof.
  unfold add_newborns. revert wd.
  induction nb as [|b nb IH]; intro x; simpl; [reflexivity|].
  rewrite IH. unfold schedule_update.
  destruct (schedule_creature_clock W x b (interval_of b)) as (-> & _ & _). reflexivity.
Qed.

Lemma process_keys {W} is_alive update (wd : world W) cs t :
  total_sim_seconds wd = t -> AllKeys (fun k => t < k) wd ->
  AllKeys (fun k => t < k) (fst (process_creatures is_alive update wd cs)).
Proof.
  revert wd. induction cs as [|c cs IH]; intros wd Ht H; simpl; [exact H|].
  destruct (is_alive (bio wd) c); [|apply IH; assumption].
  destruct (update (total_sim_seconds wd) c (interval_of c) (bio wd)) as [w' nb].
  assert (total_sim_seconds (add_newborns (set_bio wd w') nb) = t) as Ht1
    by (rewrite add_newborns_clock; exact Ht).
  assert (AllKeys (fun k => t < k) (add_newborns (set_bio wd w') nb)) as H1
    by (apply add_newborns_keys; assumption).
  match goal with |- context [process_creatures is_alive update ?x cs] =>
    assert (total_sim_seconds x = t /\ AllKeys (fun k => t < k) x) as [Hx1 Hx2] end.
  { destruct (is_alive w' c); [|split; assumption].
    unfold schedule_update.
    destruct (schedule_creature_clock W (add_newborns (set_bio wd w') nb) c (interval_of c))
      as (-> & _ & _).
    split; [exact Ht1|]. rewrite <- Ht1 in H1 |- *.
    apply schedule_update_keys. exact H1. }
  pose proof (IH _ Hx1 Hx2).
  destruct (process_creatures is_alive update _ cs). exact H0.
Qed.
Lemma min_key_none s : min_key s = None -> s = [].
Proof.
  destruct s as [|[k l] s]; simpl; [reflexivity|].
  destruct (min_key s); discriminate.
Qed.

Lemma keys_lower_impl (P Q : Z -> Prop) (s : schedule) :
  (forall k, P k -> Q k) ->
  Forall (fun e => P (fst e)) s -> Forall (fun e => Q (fst e)) s.
Proof. intros H. apply Forall_impl. intros a. apply H. Qed.

Lemma next_event_keys {W} (wd : world W) t :
  next_event_time wd = Some t -> AllKeys (fun k => t <= k) wd.
Proof.
  unfold next_event_time, AllKeys.
  destruct (min_key (plant_update_schedule wd)) as [a|] eqn:Ea;
    destruct (min_key (animal_update_schedule wd)) as [b|] eqn:Eb;
    simpl; intro H; (discriminate H || injection H as <-);
    repeat match goal with
    | E : min_key _ = Some _ |- _ => apply min_key_lower in E
    | E : min_key _ = None |- _ => apply min_key_none in E
    end;
    split; try (rewrite Ea || rewrite Eb); try constructor;
    try (eapply keys_lower_impl; [|eassumption]; simpl; lia).
Qed.

Lemma next_event_is_key {W} (wd : world W) t (P : Z -> Prop) :
  next_event_time wd = Some t -> AllKeys P wd -> P t.
Proof.
  unfold next_event_time. intros H [HP HA].
  assert (forall s m, min_key s = Some m -> Forall (fun e => P (fst e)) s -> P m)
    as Hk.
  { intros s m Hm Hs. destruct (min_key_in s m Hm) as [l Hin].
    rewrite Forall_forall in Hs. exact (Hs _ Hin). }
  destruct (min_key (plant_update_schedule wd)) as [a|] eqn:Ea;
    destruct (min_key (animal_update_schedule wd)) as [b|] eqn:Eb;
    simpl in H; injection H as <- || discriminate H.
  - destruct (Z.min_spec a b) as [[_ ->]|[_ ->]]; eauto.
  - eauto.
  - eauto.
Qed.

Lemma pop_keys {W} (wd : world W) t nct (b : W) :
  AllKeys (fun k => t <= k) wd ->
  AllKeys (fun k => t < k)
    (mkWorld t (snd (pop t (plant_update_schedule wd)))
               (snd (pop t (animal_update_schedule wd))) nct b).
Proof.
  intros [P A]. unfold AllKeys, pop; simpl.
  split; rewrite Forall_forall in *; intros x Hx; apply filter_In in Hx as [Hx Hne];
    [specialize (P x Hx)|specialize (A x Hx)];
    apply negb_true_iff, Z.eqb_neq in Hne; lia.
Qed.

Lemma event_loop_sorted {W} is_alive update e :
  forall fuel (wd wd' : world W) ws tr,
  event_loop is_alive update fuel e wd = Some (wd', ws, tr) ->
  Sorted Z.lt ws /\ Forall (fun t => t < e) ws /\
  (forall lo, AllKeys (fun k => lo <= k) wd -> Forall (fun t => lo <= t) ws) /\
  (forall p, In p tr -> In (fst p) ws).
Proof.
  intro fuel. induction fuel as [|f IH]; intros wd wd' ws tr Hrun; [discriminate|].
  cbn -[pop process_creatures next_event_time] in Hrun.
  destruct (next_event_time wd) as [t|] eqn:En.
  - destruct (e <=? t) eqn:Et.
    + injection Hrun as <- <- <-. repeat split; try constructor.
      intros p [].
    + apply Z.leb_gt in Et.
      pose proof (pop_keys wd t (next_competition_update_time wd) (bio wd)
                    (next_event_keys wd t En)) as Hk1.
      pose proof (process_keys is_alive update
                    (mkWorld t (snd (pop t (plant_update_schedule wd)))
                       (snd (pop t (animal_update_schedule wd)))
                       (next_competition_update_time wd) (bio wd))
                    (bucket t (plant_update_schedule wd)
                     ++ bucket t (animal_update_schedule wd)) t eq_refl Hk1) as Hk2.
      pose proof (process_clock W is_alive update
                    (mkWorld t (snd (pop t (plant_update_schedule wd)))
                       (snd (pop t (animal_update_schedule wd)))
                       (next_competition_update_time wd) (bio wd))
                    (bucket t (plant_update_schedule wd)
                     ++ bucket t (animal_update_schedule wd))) as (_ & _ & Htr).
      unfold bucket in Hk2, Htr.
      destruct (pop t (plant_update_schedule wd)) as [pl ps] eqn:Ep.
      destruct (pop t (animal_update_schedule wd)) as [al as_] eqn:Ea.
      simpl in Hk2, Htr.
      destruct (process_creatures is_alive update _ (pl ++ al)) as [wd2 tr1].
      simpl in Hk2, Htr, Hrun.
      destruct (event_loop is_alive update f e wd2) as [[[wd3 ws'] tr']|] eqn:El;
        [|discriminate].
      injection Hrun as <- <- <-.
      destruct (IH _ _ _ _ El) as (S1 & F1 & L1 & T1).
      assert (Forall (fun x => t + 1 <= x) ws') as Hge.
      { apply L1. destruct Hk2 as [P A].
        split; (eapply keys_lower_impl; [|eassumption]); simpl; lia. }
      split; [|split; [|split]].
      * constructor; [exact S1|].
        destruct ws' as [|x ws'']; constructor.
        inversion Hge; lia.
      * constructor; assumption.
      * intros lo Hlo. pose proof (next_event_is_key wd t _ En Hlo) as Hlt.
        cbv beta in Hlt. constructor; [lia|]. eapply Forall_impl; [|exact Hge]. simpl; lia.
      * intros p Hp. apply in_app_or in Hp as [Hp|Hp].
        -- rewrite Forall_forall in Htr. rewrite (Htr p Hp). left; reflexivity.
        -- right. apply T1. exact Hp.
  - injection Hrun as <- <- <-. repeat split; try constructor. intros p [].
Qed.
Lemma comp_seq_sorted t n : Sorted Z.lt (comp_seq t n).
Proof.
  revert t. induction n as [|n IH]; intro t; [constructor|].
  rewrite comp_seq_S. constructor; [apply IH|].
  destruct n; [constructor|]. rewrite comp_seq_S. constructor.
  unfold PLANT_COMPETITION_UPDATE_INTERVAL_SECONDS. lia.
Qed.

(** Claim C2 (as amended).  The values written to [total_sim_seconds]
    by [update_in_bulk] are, in order: the competition rebuild times
    [next_competition_update_time + i * 86400] below the window end
    (strictly increasing), then the restored start time, then the
    event keys visited by the event loop (strictly increasing and below
    the window end; every organism tick runs at one of them), then the
    window end.  The rebuilds all come before the start time is
    restored, so they are not interleaved with the ticks. *)
Theorem bulk_clock_write_order {W} (is_alive : W -> creature -> bool)
    update competition_update housekeeping (fuel : nat) (large_delta : Z)
    (wd wd' : world W) writes tr
    (Hrun : update_in_bulk_timeline is_alive update competition_update housekeeping
              fuel large_delta wd = Some (wd', writes, tr)) :
  let start := total_sim_seconds wd in
  let e := start + large_delta in
  exists n ew,
    writes = comp_seq (next_competition_update_time wd) n ++ [start] ++ ew ++ [e] /\
    Sorted Z.lt (comp_seq (next_competition_update_time wd) n) /\
    Forall (fun t => t < e) (comp_seq (next_competition_update_time wd) n) /\
    Sorted Z.lt ew /\ Forall (fun t => t < e) ew /\
    (forall p, In p tr -> In (fst p) ew).
Proof.
  intros start e. unfold update_in_bulk_timeline in Hrun. fold start e in Hrun.
  destruct (competition_loop competition_update fuel e wd) as [[wd1 cw]|] eqn:Ec;
    [|discriminate].
  destruct (competition_loop_facts competition_update fuel e wd wd1 cw Ec)
    as (_ & _ & n & Hn & Hf).
  destruct (event_loop is_alive update fuel e (set_clock wd1 start))
    as [[[wd3 ew] tr3]|] eqn:El; [|discriminate].
  injection Hrun as <- <- <-.
  destruct (event_loop_sorted is_alive update e fuel _ _ _ _ El) as (S1 & F1 & _ & T1).
  exists n, ew. rewrite <- Hn.
  split; [reflexivity|]. split; [rewrite Hn; apply comp_seq_sorted|].
  split; [exact Hf|]. split; [exact S1|]. split; [exact F1|exact T1].
Qed.

(** Counterexample for C2: from clock 0 with a rebuild due at 86400,
    [update_in_bulk(2 * 86400)] writes 86400, then 0, then 172800: the
    sequence is not increasing and 0 is not the time of a due event. *)
Lemma bulk_clock_writes_not_increasing :
  match SchedDemo.demo_run_comp with
  | Some (_, writes, _) => writes = [86400; 0; 172800] /\ ~ Sorted Z.lt writes
  | None => False
  end.
Proof.
  vm_compute. split; [reflexivity|].
  intro H. inversion H as [|? ? _ Hd]; subst. inversion Hd; subst. discriminate.
Qed.
(** Witness for C2: the theorem applied to the rebuild demo run. *)
Lemma bulk_clock_write_order_witness :
  match SchedDemo.demo_run_comp with
  | Some (_, writes, tr) =>
      exists n ew,
        writes = comp_seq 86400 n ++ [0] ++ ew ++ [0 + 2 * 86400] /\
        Sorted Z.lt (comp_seq 86400 n) /\
        Forall (fun t => t < 0 + 2 * 86400) (comp_seq 86400 n) /\
        Sorted Z.lt ew /\ Forall (fun t => t < 0 + 2 * 86400) ew /\
        (forall p, In p tr -> In (fst p) ew)
  | None => False
  end.
Proof.
  destruct SchedDemo.demo_run_comp as [[[wd' ws] tr]|] eqn:E;
    [|vm_compute in E; discriminate].
  exact (bulk_clock_write_order SchedDemo.demo_alive SchedDemo.demo_update
           SchedDemo.demo_id SchedDemo.demo_id 100 (2 * 86400)
           (mkWorld 0 [] [] 86400 tt) wd' ws tr E).
Defined.
End SchedulerFacts.

(** ** Entity store (C6) *)
Module StoreFacts.
Import Store.
Import (notations) String.
Local Open Scope Z_scope.

End StoreFacts.

(** ** Passes of [update_in_bulk] (C3) *)
Module PassesFacts.
Import Passes.
Import String.
Local Open Scope string_scope.

(** Claim C3 (a defect of the code).  For every store, the block of
    vectorized passes at the top of [update_in_bulk] runs the aging and
    hydraulic passes and then raises [AttributeError]: with plants
    ([count > 0]) the environmental pass looks up the missing
    [Environment.get_temperatures_vectorized]; with no plant the
    environmental and soil passes return at once and the call of the
    missing [PlantManager.update_photosynthesis_gains] raises.  The soil,
    photosynthesis and metabolism passes never recompute anything, and no
    statement after the block runs.  [PlantManager.arrays] has no
    photosynthesis column either. *)
Theorem bulk_passes_raise (M : Type) (ua uh : nat -> M -> M) (pm : manager M) :
  bulk_passes M ua uh pm
    = (mkManager M (count M pm) (uh (count M pm) (ua (count M pm) (columns M pm))),
       Some (AttributeError (if Nat.eqb (count M pm) 0 then "update_photosynthesis_gains"
                             else "get_temperatures_vectorized"))) /\
  ~ In photosynthesis_key plant_arrays.
Proof.
  split.
  - destruct pm as [[|n] c]; reflexivity.
  - simpl. intuition discriminate.
Qed.
End PassesFacts.

(** ** Competition grid (C4, C5) *)
Module GridFacts.
Import Grid.
Local Open Scope Q_scope.

Lemma np_pi_pos : 0 < np_pi.
Proof. reflexivity. Qed.

Lemma pymin_le_r a b : pymin a b <= b.
Proof.
  unfold pymin. destruct (Qlt_le_dec b a); [apply Qle_refl|assumption].
Qed.

Lemma pymin_nonneg a b : 0 <= a -> 0 <= b -> 0 <= pymin a b.
Proof. unfold pymin. destruct (Qlt_le_dec b a); auto. Qed.

Lemma fold_upd_nonneg (f : grid -> cell -> Q) cells (g : grid) :
  (forall c, 0 <= g c) ->
  (forall g' c, (forall d, 0 <= g' d) -> 0 <= f g' c) ->
  forall c, 0 <= fold_left (fun l d => upd l d (f l d)) cells g c.
Proof.
  revert g. induction cells as [|d cells IH]; intros g Hg Hf; simpl; [exact Hg|].
  apply IH; [|exact Hf].
  intro c. unfold upd. destruct (cell_eqb c d); [apply Hf, Hg|apply Hg].
Qed.

Lemma populate_root_nonneg cs gw gh rows :
  Forall (fun p => 0 <= root_radius p) rows ->
  forall c, 0 <= snd (populate cs gw gh rows) c.
Proof.
  unfold populate. intro Hr.
  assert (forall g : grid * grid, (forall c, 0 <= snd g c) ->
            forall c, 0 <= snd (fold_left (populate_row cs gw gh) rows g) c) as H.
  { induction Hr as [|p rows Hp Hr IH]; intros [light root] Hg; simpl; [exact Hg|].
    apply IH. unfold populate_row.
    destruct (Qle_bool (radius p) 0); [exact Hg|].
    simpl. apply fold_upd_nonneg; [exact Hg|].
    intros g' c Hg'. specialize (Hg' c). cbv beta in Hp |- *.
    apply (Qle_trans _ (0 + 0)); [apply Qle_refl|apply Qplus_le_compat; assumption]. }
  apply H. intro c. apply Qle_refl.
Qed.

Lemma sum_nonneg l : Forall (fun q => 0 <= q) l -> 0 <= fold_right Qplus 0 l.
Proof.
  induction 1; simpl; [apply Qle_refl|Lqa.lra].
Qed.

Lemma competition_of_bounds cs gw gh (light root : grid) p :
  (forall c, 0 <= root c) -> 0 <= root_radius p ->
  let a := competition_of cs gw gh light root p in
  0 <= fst a /\ fst a <= np_pi * (radius p * radius p) /\
  0 <= snd a /\ snd a <= np_pi * (root_radius p * root_radius p).
Proof.
  intros Hroot Hrr a. unfold a, competition_of. clear a.
  pose proof np_pi_pos as Hpi.
  assert (0 <= np_pi * (radius p * radius p)) as Hb1 by Lqa.nra.
  assert (0 <= np_pi * (root_radius p * root_radius p)) as Hb2 by Lqa.nra.
  destruct (Qle_bool (radius p) 0).
  - simpl. repeat split; try apply Qle_refl; assumption.
  - cbv zeta. simpl fst; simpl snd.
    assert (0 <= cell_area cs) as Hca by (unfold cell_area; Lqa.nra).
    repeat split.
    + apply pymin_nonneg; [|Lqa.nra].
      apply Qmult_le_0_compat; [|exact Hca].
      unfold Qle, inject_Z. simpl. lia.
    + eapply Qle_trans; [apply pymin_le_r|]. apply Qle_lteq. right. ring.
    + apply pymin_nonneg; [|Lqa.nra].
      apply Qmult_le_0_compat; [|exact Hca].
      apply sum_nonneg. apply Forall_forall. intros r Hr.
      apply in_map_iff in Hr as (q & <- & Hq).
      apply filter_In in Hq as [Hq Hlt].
      unfold Qltb in Hlt. apply negb_true_iff in Hlt.
      assert (root_radius p < q) as Hlt'.
      { apply Qnot_le_lt. intro Hle. apply Qle_bool_iff in Hle. congruence. }
      unfold Qdiv. apply Qmult_le_0_compat; [Lqa.lra|].
      apply Qlt_le_weak, Qinv_lt_0_compat. Lqa.lra.
    + eapply Qle_trans; [apply pymin_le_r|]. apply Qle_lteq. right. ring.
Qed.

(** Claim C4.  After populating and resolving the competition grids,
    for every row [i] of the live slice whose root radius is, like every
    other row's, non-negative:
    [0 <= shaded_canopy_area[i] <= pi * radius[i]^2] and
    [0 <= overlapped_root_area[i] <= pi * root_radius[i]^2]
    ([pi] being [np.pi]). *)
Theorem competition_areas_bounded (cs : Q) (gw gh : Z) (rows : list row)
    (Hroots : Forall (fun p => 0 <= root_radius p) rows) :
  forall i p a, nth_error rows i = Some p ->
    nth_error (resolve cs gw gh rows) i = Some a ->
    0 <= fst a /\ fst a <= np_pi * (radius p * radius p) /\
    0 <= snd a /\ snd a <= np_pi * (root_radius p * root_radius p).
Proof.
  intros i p a Hp Ha. unfold resolve in Ha.
  pose proof (populate_root_nonneg cs gw gh rows Hroots) as Hnn.
  destruct (populate cs gw gh rows) as [light root]. simpl in Hnn.
  rewrite nth_error_map, Hp in Ha. simpl in Ha. injection Ha as <-.
  apply competition_of_bounds; [exact Hnn|].
  rewrite Forall_forall in Hroots. apply Hroots. eapply nth_error_In. exact Hp.
Qed.
Lemma cell_eqb_true c d : cell_eqb c d = true <-> c = d.
Proof.
  destruct c as [x y], d as [x' y']. unfold cell_eqb. simpl.
  rewrite andb_true_iff, !Z.eqb_eq. split; [intros [-> ->]; reflexivity|].
  intro H. injection H as -> ->. split; reflexivity.
Qed.

Lemma existsb_cell_In c l : In c l -> existsb (cell_eqb c) l = true.
Proof.
  intro H. apply existsb_exists. exists c. split; [exact H|].
  apply cell_eqb_true. reflexivity.
Qed.

Lemma Qltb_true a b : Qltb a b = true <-> a < b.
Proof.
  unfold Qltb. rewrite negb_true_iff. split.
  - intro H. apply Qnot_le_lt. intro Hle. apply Qle_bool_iff in Hle. congruence.
  - intro H. destruct (Qle_bool b a) eqn:E; [|reflexivity].
    apply Qle_bool_iff in E. exfalso. apply (Qlt_not_le a b); assumption.
Qed.

Lemma light_fold_spec h cells (l : grid) c :
  fold_left (fun l d => upd l d (Qmax (l d) h)) cells l c ==
  if existsb (cell_eqb c) cells then Qmax (l c) h else l c.
Proof.
  revert l. induction cells as [|d cells IH]; intro l; simpl; [reflexivity|].
  rewrite IH. unfold upd.
  destruct (cell_eqb c d) eqn:E; simpl.
  - apply cell_eqb_true in E. subst d.
    destruct (existsb (cell_eqb c) cells); [|reflexivity].
    rewrite <- Q.max_assoc, Q.max_id. reflexivity.
  - reflexivity.
Qed.

Lemma populate_row_light cs gw gh (light root : grid) p c :
  0 < radius p ->
  fst (populate_row cs gw gh (light, root) p) c ==
  if GridObs.covers cs gw gh p c then Qmax (light c) (height p) else light c.
Proof.
  intro Hr. unfold populate_row.
  destruct (Qle_bool (radius p) 0) eqn:E.
  - apply Qle_bool_iff in E. exfalso. Lqa.lra.
  - simpl. apply light_fold_spec.
Qed.

Lemma populate2_light cs gw gh p1 p2 c :
  0 < radius p1 -> 0 < radius p2 ->
  let l1 := if GridObs.covers cs gw gh p1 c then Qmax 0 (height p1) else 0 in
  fst (populate cs gw gh [p1; p2]) c ==
  if GridObs.covers cs gw gh p2 c then Qmax l1 (height p2) else l1.
Proof.
  intros H1 H2 l1. unfold populate. cbn [fold_left].
  destruct (populate_row cs gw gh (zero_grid, zero_grid) p1) as [g1 r1] eqn:E1.
  assert (g1 c == l1) as Hg1.
  { change g1 with (fst (g1, r1)). rewrite <- E1.
    rewrite populate_row_light by exact H1. reflexivity. }
  rewrite populate_row_light by exact H2.
  destruct (GridObs.covers cs gw gh p2 c); rewrite Hg1; reflexivity.
Qed.
Lemma competition_of_shaded cs gw gh (light root : grid) p (f : cell -> bool) :
  0 < radius p ->
  (forall c, In c (GridObs.canopy_cells cs gw gh p) -> Qltb (height p) (light c) = f c) ->
  fst (competition_of cs gw gh light root p) =
  pymin (inject_Z (Z.of_nat (length (filter f (GridObs.canopy_cells cs gw gh p)))) * cell_area cs)
        (radius p * radius p * np_pi).
Proof.
  intros Hr Hf. unfold competition_of.
  destruct (Qle_bool (radius p) 0) eqn:E.
  - apply Qle_bool_iff in E. exfalso. Lqa.lra.
  - cbv zeta. simpl fst. unfold GridObs.canopy_cells in Hf |- *.
    rewrite (filter_ext_in _ _ _ Hf). reflexivity.
Qed.

Section TwoPlants.
Variables (cs : Q) (gw gh : Z) (a b : row).
Hypotheses (Hra : 0 < radius a) (Hrb : 0 < radius b)
           (Hha : 0 <= height a) (Hlt : height a < height b).

Local Abbreviation cov := (GridObs.covers cs gw gh).

Lemma two_light_taller rows c :
  rows = [a; b] \/ rows = [b; a] -> cov b c = true ->
  fst (populate cs gw gh rows) c == height b.
Proof.
  intros [-> | ->] Hb.
  - rewrite (populate2_light cs gw gh a b c Hra Hrb). cbv zeta. rewrite Hb.
    apply Q.max_r. destruct (cov a c).
    + apply Q.max_lub; Lqa.lra.
    + Lqa.lra.
  - rewrite (populate2_light cs gw gh b a c Hrb Hra). cbv zeta. rewrite Hb.
    destruct (cov a c).
    + apply (Qeq_trans _ (Qmax 0 (height b))); [apply Q.max_l|apply Q.max_r; Lqa.lra].
      apply (Qle_trans _ (height b)); [Lqa.lra|apply Q.le_max_r].
    + apply Q.max_r. Lqa.lra.
Qed.

Lemma two_light_shorter rows c :
  rows = [a; b] \/ rows = [b; a] -> cov a c = true -> cov b c = false ->
  fst (populate cs gw gh rows) c == height a.
Proof.
  intros [-> | ->] Ha Hb.
  - rewrite (populate2_light cs gw gh a b c Hra Hrb). cbv zeta. rewrite Ha, Hb.
    apply Q.max_r. exact Hha.
  - rewrite (populate2_light cs gw gh b a c Hrb Hra). cbv zeta. rewrite Ha, Hb.
    apply Q.max_r. exact Hha.
Qed.

Lemma two_shaded_shorter rows root :
  rows = [a; b] \/ rows = [b; a] ->
  fst (competition_of cs gw gh (fst (populate cs gw gh rows)) root a) =
  pymin (inject_Z (Z.of_nat (length (GridObs.shared_cells cs gw gh a b))) * cell_area cs)
        (radius a * radius a * np_pi).
Proof.
  intro Hrows. apply competition_of_shaded; [exact Hra|].
  intros c Hc. assert (cov a c = true) as Ha by (apply existsb_cell_In; exact Hc).
  destruct (cov b c) eqn:Hb.
  - apply Qltb_true. rewrite (two_light_taller rows c Hrows Hb). exact Hlt.
  - destruct (Qltb (height a) _) eqn:E; [|reflexivity].
    apply Qltb_true in E. rewrite (two_light_shorter rows c Hrows Ha Hb) in E.
    exfalso. exact (Qlt_irrefl _ E).
Qed.

Lemma two_shaded_taller rows root :
  rows = [a; b] \/ rows = [b; a] ->
  fst (competition_of cs gw gh (fst (populate cs gw gh rows)) root b) == 0.
Proof.
  intro Hrows.
  rewrite (competition_of_shaded cs gw gh _ root b (fun _ => false) Hrb).
  - rewrite filter_false. simpl length.
    assert (0 < radius b * radius b * np_pi) as Hpos.
    { pose proof np_pi_pos. apply Qmult_lt_0_compat; [apply Qmult_lt_0_compat|]; assumption. }
    unfold pymin. destruct (Qlt_le_dec _ _) as [Hl|_].
    + exfalso. change (inject_Z (Z.of_nat 0)) with 0 in Hl.
      rewrite Qmult_0_l in Hl. exact (Qlt_irrefl 0 (Qlt_trans _ _ _ Hpos Hl)).
    + change (inject_Z (Z.of_nat 0)) with 0. apply Qmult_0_l.
  - intros c Hc. assert (cov b c = true) as Hb by (apply existsb_cell_In; exact Hc).
    destruct (Qltb (height b) _) eqn:E; [|reflexivity].
    apply Qltb_true in E. rewrite (two_light_taller rows c Hrows Hb) in E.
    exfalso. exact (Qlt_irrefl _ E).
Qed.
End TwoPlants.

(** Claim C4 (instance).  Two overlapping canopies on a 100 x 100 grid of
    cells of 10: the bounds hold for row 0. *)
Lemma competition_areas_bounded_witness :
  Forall (fun p => 0 <= root_radius p) [GridDemo.short_a; GridDemo.tall_a] /\
  match nth_error (resolve 10 100 100 [GridDemo.short_a; GridDemo.tall_a]) 0 with
  | Some a =>
      0 <= fst a /\ fst a <= np_pi * (radius GridDemo.short_a * radius GridDemo.short_a) /\
      0 <= snd a /\ snd a <= np_pi * (root_radius GridDemo.short_a * root_radius GridDemo.short_a)
  | None => False
  end.
Proof.
  assert (Forall (fun p => 0 <= root_radius p) [GridDemo.short_a; GridDemo.tall_a]) as Hr.
  { constructor; [apply Qle_bool_iff; reflexivity|].
    constructor; [apply Qle_bool_iff; reflexivity|constructor]. }
  split; [exact Hr|].
  destruct (nth_error (resolve 10 100 100 [GridDemo.short_a; GridDemo.tall_a]) 0) as [a|] eqn:E.
  - exact (competition_areas_bounded 10 100 100 _ Hr 0 GridDemo.short_a a eq_refl E).
  - vm_compute in E. discriminate E.
Defined.

(** Claim C5 (corrected).  In the resolve pass a covered cell counts as
    shaded for a plant exactly when the plant's height is strictly below
    the light-grid value there.  For two plants alone, with positive radii
    and heights [0 <= height a < height b], in either order: the taller
    plant's shaded area is 0, and the shorter plant's is
    [min(cell_area * n, pi * radius a ^ 2)] where [n] is the number of cells
    whose centers lie in both canopy discs.  It is positive exactly when the
    two rasterized discs share a cell, which overlapping discs need not do. *)
Theorem two_plant_shading (cs : Q) (gw gh : Z) (a b : row)
    (Hra : 0 < radius a) (Hrb : 0 < radius b)
    (Hha : 0 <= height a) (Hlt : height a < height b) :
  let sa := pymin (inject_Z (Z.of_nat (length (GridObs.shared_cells cs gw gh a b))) * cell_area cs)
                  (radius a * radius a * np_pi) in
  (exists s t, map fst (resolve cs gw gh [a; b]) = [s; t] /\ s = sa /\ t == 0) /\
  (exists s t, map fst (resolve cs gw gh [b; a]) = [s; t] /\ s == 0 /\ t = sa).
Proof.
  intro sa. split.
  - unfold resolve. destruct (populate cs gw gh [a; b]) as [light root] eqn:E.
    simpl map. eexists _, _. split; [reflexivity|].
    change light with (fst (light, root)). rewrite <- E. split.
    + apply (two_shaded_shorter cs gw gh a b Hra Hrb Hha Hlt). left. reflexivity.
    + apply (two_shaded_taller cs gw gh a b Hra Hrb Hha Hlt). left. reflexivity.
  - unfold resolve. destruct (populate cs gw gh [b; a]) as [light root] eqn:E.
    simpl map. eexists _, _. split; [reflexivity|].
    change light with (fst (light, root)). rewrite <- E. split.
    + apply (two_shaded_taller cs gw gh a b Hra Hrb Hha Hlt). right. reflexivity.
    + apply (two_shaded_shorter cs gw gh a b Hra Hrb Hha Hlt). right. reflexivity.
Qed.

(** Claim C5 (instance).  The plants 40 apart, cells of 10: the shorter
    plant is shaded on 40 shared cells. *)
Lemma two_plant_shading_witness :
  length (GridObs.shared_cells 10 100 100 GridDemo.short_a GridDemo.tall_a) = 40%nat /\
  let a := GridDemo.short_a in let b := GridDemo.tall_a in
  let sa := pymin (inject_Z (Z.of_nat (length (GridObs.shared_cells 10 100 100 a b))) * cell_area 10)
                  (radius a * radius a * np_pi) in
  (exists s t, map fst (resolve 10 100 100 [a; b]) = [s; t] /\ s = sa /\ t == 0) /\
  (exists s t, map fst (resolve 10 100 100 [b; a]) = [s; t] /\ s == 0 /\ t = sa).
Proof.
  split; [vm_compute; reflexivity|].
  apply (two_plant_shading 10 100 100 GridDemo.short_a GridDemo.tall_a).
  - apply Qltb_true. reflexivity.
  - apply Qltb_true. reflexivity.
  - apply Qle_bool_iff. reflexivity.
  - apply Qltb_true. reflexivity.
Defined.

(** Claim C5 (counterexample).  Canopies of radius 50, centers 40 apart,
    heights 80 and 100, no other plant, cells of 50: each disc covers two
    cell centers, none in common, and the shorter plant's shaded area is 0. *)
Lemma shorter_plant_unshaded :
  radius GridDemo.short_b = 50 /\ radius GridDemo.tall_b = 50 /\
  height GridDemo.short_b = 80 /\ height GridDemo.tall_b = 100 /\
  px GridDemo.tall_b - px GridDemo.short_b == 40 /\ py GridDemo.tall_b == py GridDemo.short_b /\
  length (GridObs.canopy_cells 50 100 100 GridDemo.short_b) = 2%nat /\
  length (GridObs.canopy_cells 50 100 100 GridDemo.tall_b) = 2%nat /\
  GridObs.shared_cells 50 100 100 GridDemo.short_b GridDemo.tall_b = [] /\
  map (fun q => Qeq_bool q 0) (map fst (resolve 50 100 100 [GridDemo.short_b; GridDemo.tall_b]))
    = [true; true].
Proof.
  repeat split; vm_compute; reflexivity.
Qed.
End GridFacts.

Module BioFacts.
Import Bio BioObs.
Local Open Scope R_scope.

Lemma Rltb_spec a b : Rltb a b = true <-> a < b.
Proof. unfold Rltb. destruct (Rlt_dec a b); split; intro H; congruence || lra. Qed.

Lemma Rleb_spec a b : Rleb a b = true <-> a <= b.
Proof. unfold Rleb. destruct (Rle_dec a b); split; intro H; congruence || lra. Qed.

Lemma Rltb_false a b : Rltb a b = false <-> b <= a.
Proof. unfold Rltb. destruct (Rlt_dec a b); split; intro H; congruence || lra. Qed.

Lemma Rleb_false a b : Rleb a b = false <-> b < a.
Proof. unfold Rleb. destruct (Rle_dec a b); split; intro H; congruence || lra. Qed.

Lemma PI_pos : 0 < PI.
Proof. exact PI_RGT_0. Qed.

Lemma div_nonneg a b : 0 <= a -> 0 < b -> 0 <= a / b.
Proof.
  intros Ha Hb. unfold Rdiv. apply Rmult_le_pos; [exact Ha|].
  left. apply Rinv_0_lt_compat. exact Hb.
Qed.

(** Shedding a non-negative area from a disc of radius [r] gives a
    radius at most [r]. *)
Lemma shed_radius_le r s : 0 <= r -> 0 <= s -> sqrt (Rmax 0 (PI * r ^ 2 - s) / PI) <= r.
Proof.
  intros Hr Hs. pose proof PI_pos as Hpi.
  rewrite <- (sqrt_pow2 r Hr) at 2. apply sqrt_le_1_alt.
  apply (Rmult_le_reg_r PI); [exact Hpi|].
  unfold Rdiv. rewrite Rmult_assoc, Rinv_l by lra. rewrite Rmult_1_r.
  apply Rmax_lub.
  - apply Rmult_le_pos; [apply pow2_ge_0|lra].
  - rewrite Rmult_comm. lra.
Qed.

Lemma pruning_facts p d rr time_step :
  0 <= d -> 0 <= radius p -> 0 <= root_radius p -> 0 <= core_radius p ->
  let r := process_self_pruning p d (PI * radius p ^ 2) (PI * root_radius p ^ 2)
                                (PI * core_radius p ^ 2) rr time_step in
  snd r = 0 /\ energy (fst r) = energy p /\ radius (fst r) <= radius p /\
  root_radius (fst r) <= root_radius p /\ core_radius (fst r) <= core_radius p.
Proof.
  intros Hd Hr Hrr Hcr r. unfold r, process_self_pruning. clear r. cbv zeta.
  pose proof PI_pos as Hpi.
  assert (0 <= PI * radius p ^ 2) by (apply Rmult_le_pos; [lra|apply pow2_ge_0]).
  assert (0 <= PI * root_radius p ^ 2) by (apply Rmult_le_pos; [lra|apply pow2_ge_0]).
  assert (0 <= PI * core_radius p ^ 2) by (apply Rmult_le_pos; [lra|apply pow2_ge_0]).
  set (total := PI * radius p ^ 2 + PI * root_radius p ^ 2 + PI * core_radius p ^ 2).
  destruct (Rltb 0 total) eqn:Ht.
  - apply Rltb_spec in Ht.
    set (m := metabolism_cost_per_second rr / total * time_step).
    destruct (Rltb 0 m) eqn:Hm; simpl; [|repeat split; lra].
    apply Rltb_spec in Hm.
    assert (0 <= d / m * PLANT_PRUNING_EFFICIENCY) as Hshed.
    { unfold PLANT_PRUNING_EFFICIENCY. rewrite Rmult_1_r. apply div_nonneg; assumption. }
    repeat split; try reflexivity; apply shed_radius_le; try assumption;
      apply Rmult_le_pos; try exact Hshed; apply div_nonneg; assumption.
  - destruct (Rltb 0 0) eqn:Hz; simpl; [apply Rltb_spec in Hz; lra|repeat split; lra].
Qed.

Lemma die_fields p :
  energy (outcome_plant (die p)) = energy p /\ radius (outcome_plant (die p)) = radius p /\
  root_radius (outcome_plant (die p)) = root_radius p /\
  core_radius (outcome_plant (die p)) = core_radius p.
Proof. unfold die. destruct (is_alive p); repeat split. Qed.

Lemma settle_energy_fields p net :
  let p' := outcome_plant (settle_energy p net) in
  energy p' = energy p + net /\ radius p' = radius p /\
  root_radius p' = root_radius p /\ core_radius p' = core_radius p.
Proof.
  intro p'. unfold p', settle_energy. cbv zeta.
  destruct (Rleb _ 0).
  - destruct (die_fields (set_energy p (energy p + net))) as (-> & -> & -> & ->).
    repeat split.
  - destruct (negb _ && _); repeat split.
Qed.

(** Claim C7.  In the tick of a growing plant, once
    [_calculate_energy_balance] has returned, if the net energy
    production is negative and the stored energy is at most the growth
    reserve (so self-pruning fires), then the shedding step leaves the
    stored energy unchanged and returns a net production of exactly 0;
    at the end of the tick, whether it returns or raises (a collapse or
    starvation death raises [AttributeError] from [report_death]), the
    stored energy is what it was before the tick, and the canopy, root
    and core radii are no larger than before (for non-negative radii). *)
Theorem pruning_pays_deficit_in_area (sr ct : R) (p : plant) (rr : row_reads)
    (time_step : R) (w : world_reads)
    (Hdeficit : net_energy_production (balance_of p rr time_step) < 0)
    (Hreserve : energy p <= PLANT_GROWTH_INVESTMENT_ENERGY_RESERVE)
    (Hr : 0 <= radius p) (Hrr : 0 <= root_radius p) (Hcr : 0 <= core_radius p) :
  let b := balance_of p rr time_step in
  let p1 := adapt_morphology p in
  let shed := process_self_pruning p1 (Rabs (net_energy_production b))
                (canopy_area b) (root_area b) (core_area b) rr time_step in
  let p' := outcome_plant (growing_after_balance sr ct p1 b rr time_step w) in
  energy (fst shed) = energy p /\ snd shed = 0 /\
  energy p' = energy p /\ radius p' <= radius p /\
  root_radius p' <= root_radius p /\ core_radius p' <= core_radius p.
Proof.
  intros b p1 shed p'.
  pose proof (pruning_facts p1 (Rabs (net_energy_production b)) rr time_step
                (Rabs_pos _) Hr Hrr Hcr) as Hprune.
  change (process_self_pruning p1 (Rabs (net_energy_production b))
            (PI * radius p1 ^ 2) (PI * root_radius p1 ^ 2) (PI * core_radius p1 ^ 2)
            rr time_step) with shed in Hprune.
  destruct Hprune as (Hn & He & Hr' & Hrr' & Hcr').
  split; [exact He|]. split; [exact Hn|].
  unfold p', growing_after_balance. cbv zeta.
  assert (Rltb (net_energy_production b) 0 = true) as H1 by (apply Rltb_spec; exact Hdeficit).
  assert (Rltb PLANT_GROWTH_INVESTMENT_ENERGY_RESERVE (energy p1) = false) as H2
    by (apply Rltb_false; exact Hreserve).
  rewrite H1, H2. fold shed.
  destruct shed as [p2 n]. simpl in He, Hn, Hr', Hrr', Hcr'. subst n.
  destruct (Rltb (radius p2) (1 / 10)).
  - destruct (die_fields p2) as (-> & -> & -> & ->). repeat split; assumption.
  - destruct (settle_energy_fields p2 0) as (-> & -> & -> & ->).
    rewrite Rplus_0_r. repeat split; assumption.
Qed.
(** Unfolds the constants of [constants.py] used by the ticks. *)
Ltac rconst :=
  unfold SECONDS_PER_HOUR, TERRAIN_WATER_LEVEL, TERRAIN_SAND_LEVEL, TERRAIN_GRASS_LEVEL,
    TERRAIN_DIRT_LEVEL, PLANT_DORMANCY_METABOLISM_J_PER_HOUR, PLANT_SPROUTING_ENERGY_COST,
    GERMINATION_HUMIDITY_THRESHOLD, GERMINATION_MIN_TEMP, GERMINATION_MAX_TEMP,
    PLANT_REPRODUCTIVE_INVESTMENT_J_PER_HOUR, PLANT_SEED_PROVISIONING_ENERGY,
    PLANT_GROWTH_INVESTMENT_J_PER_HOUR, PLANT_GROWTH_INVESTMENT_ENERGY_RESERVE,
    PLANT_CORE_PERSONAL_SPACE_FACTOR in *.

(** Decides the comparisons of concrete reals in the goal. *)
Ltac rdec :=
  repeat match goal with
  | |- context [Rltb ?a ?b] =>
      first [ rewrite (proj2 (Rltb_spec a b)) by (rconst; lra)
            | rewrite (proj2 (Rltb_false a b)) by (rconst; lra) ]
  | |- context [Rleb ?a ?b] =>
      first [ rewrite (proj2 (Rleb_spec a b)) by (rconst; lra)
            | rewrite (proj2 (Rleb_false a b)) by (rconst; lra) ]
  end.

Lemma pruning_pays_deficit_in_area_witness :
  let p := BioDemo.weak_seedling in
  let b := balance_of p BioDemo.rows 3600 in
  net_energy_production b < 0 /\ energy p <= PLANT_GROWTH_INVESTMENT_ENERGY_RESERVE /\
  energy (outcome_plant (growing_after_balance 0 0 (adapt_morphology p) b BioDemo.rows 3600
                           (BioDemo.flat_world (7 / 10) []))) = energy p.
Proof.
  intros p b.
  assert (net_energy_production b < 0) as Hn by (unfold b, balance_of; simpl; lra).
  assert (energy p <= PLANT_GROWTH_INVESTMENT_ENERGY_RESERVE) as He
    by (unfold p; simpl; rconst; lra).
  split; [exact Hn|]. split; [exact He|].
  destruct (pruning_pays_deficit_in_area 0 0 p BioDemo.rows 3600
              (BioDemo.flat_world (7 / 10) []) Hn He) as (_ & _ & H & _);
    unfold p; simpl; try lra.
  exact H.
Defined.

Ltac split_ifs :=
  repeat (match goal with |- context [if ?c then _ else _] => destruct c end; simpl).

Lemma die_repro p : repro (outcome_plant (die p)) = repro p.
Proof. unfold die. destruct (is_alive p); reflexivity. Qed.

Lemma settle_repro p net : repro (outcome_plant (settle_energy p net)) = repro p.
Proof. unfold settle_energy. cbv zeta. split_ifs; try rewrite die_repro; reflexivity. Qed.

Lemma pruning_repro p d ca ra ka rr time_step :
  repro (fst (process_self_pruning p d ca ra ka rr time_step)) = repro p.
Proof. unfold process_self_pruning. cbv zeta. split_ifs; reflexivity. Qed.

(** The reproductive block of [_allocate_surplus_energy] never runs. *)
Lemma allocate_repro sr ct p net ca ra ka rr time_step w :
  repro (outcome_plant (allocate_surplus_energy sr ct p net ca ra ka rr time_step w)) = repro p.
Proof.
  unfold allocate_surplus_energy. rewrite andb_false_r. cbv zeta.
  split_ifs; try destruct (crush_targets _ _); reflexivity.
Qed.

(** The part of a growing tick after the energy balance, on every path
    out of it, leaves [repro] unchanged. *)
Lemma growing_repro sr ct p b rr time_step w :
  repro (outcome_plant (growing_after_balance sr ct p b rr time_step w)) = repro p.
Proof.
  unfold growing_after_balance. cbv zeta.
  destruct (Rltb (net_energy_production b) 0).
  - destruct (Rltb _ (energy p)); [apply settle_repro|].
    pose proof (pruning_repro p (Rabs (net_energy_production b)) (canopy_area b)
                  (root_area b) (core_area b) rr time_step) as Hp.
    destruct (process_self_pruning _ _ _ _ _ _ _) as [p2 n]. simpl in Hp.
    destruct (Rltb (radius p2) (1 / 10)).
    + rewrite die_repro. exact Hp.
    + rewrite settle_repro. exact Hp.
  - pose proof (allocate_repro sr ct p (net_energy_production b) (canopy_area b)
                  (root_area b) (core_area b) rr time_step w) as Ha.
    destruct (allocate_surplus_energy _ _ _ _ _ _ _ _ _ _) as [p2 u|p2 e]; simpl in Ha.
    + rewrite settle_repro. exact Ha.
    + exact Ha.
Qed.

(** Claim C8.  Whatever the life stage and the surplus, the part of a
    growing plant's tick after the energy balance leaves the plant's
    reproductive energy storage and its list of reproductive organs
    unchanged, whether it returns or raises (from a death, or from the
    crush of a neighbor): no energy is diverted into reproductive
    storage and no flower is spawned. *)
Theorem growing_tick_never_reproduces (sr ct : R) (p : plant) (b : balance) (rr : row_reads)
    (time_step : R) (w : world_reads) :
  reproductive_energy_stored (outcome_plant (growing_after_balance sr ct p b rr time_step w))
    = reproductive_energy_stored p /\
  reproductive_organs (outcome_plant (growing_after_balance sr ct p b rr time_step w))
    = reproductive_organs p.
Proof.
  pose proof (growing_repro sr ct p b rr time_step w) as H.
  unfold repro in H. injection H. auto.
Qed.

(** Counterexample to claim C8 as stated: a mature plant with 20000 J,
    above the growth reserve, with a surplus of 3600 J over an hour,
    for which the spec's rule asks for 250 J of reproductive investment,
    ends the tick with no reproductive energy stored. *)
Lemma mature_surplus_stores_nothing :
  let p := BioDemo.rich_mature in
  let b := mkBalance 3600 (PI * 50 ^ 2) (PI * 50 ^ 2) (PI * 20 ^ 2) in
  life_stage p = Mature /\ 0 < net_energy_production b /\
  PLANT_GROWTH_INVESTMENT_ENERGY_RESERVE < energy p /\
  0 < Rmin ((PLANT_REPRODUCTIVE_INVESTMENT_J_PER_HOUR / SECONDS_PER_HOUR) * 3600)
           (Rmax 0 (energy p - PLANT_GROWTH_INVESTMENT_ENERGY_RESERVE)) /\
  reproductive_energy_stored
    (outcome_plant (growing_after_balance 0 0 p b BioDemo.rows 3600
                      (BioDemo.flat_world (7 / 10) [])))
    = 0.
Proof.
  intros p b. split; [reflexivity|]. split; [simpl; lra|].
  split; [unfold p; simpl; rconst; lra|].
  split.
  { unfold p; simpl; rconst.
    rewrite Rmax_right by lra. apply Rmin_glb_lt; lra. }
  pose proof (growing_repro 0 0 p b BioDemo.rows 3600 (BioDemo.flat_world (7 / 10) [])) as H.
  unfold repro in H. injection H as H _. rewrite H. reflexivity.
Qed.

(** Claim C9.  A live seed whose energy, after the dormancy cost of the
    tick, is exactly the sprouting cost, under germination conditions:
    its tick pays the sprouting cost with no death check after it, turns
    it into a live seedling with energy 0, and then raises [KeyError]
    from [_patch_all_rates_after_sprout], leaving that plant. *)
Theorem sprouting_seed_alive_at_zero (sr ct mr : R) (w : world_reads) (rr : row_reads)
    (p : plant) (time_step : R)
    (Halive : is_alive p = true) (Hseed : life_stage p = Seed)
    (Htemp : GERMINATION_MIN_TEMP <= temperature p <= GERMINATION_MAX_TEMP)
    (Hhum : GERMINATION_HUMIDITY_THRESHOLD <= humidity p)
    (Hexact : energy p - (PLANT_DORMANCY_METABOLISM_J_PER_HOUR / SECONDS_PER_HOUR) * time_step
              = PLANT_SPROUTING_ENERGY_COST) :
  exists p', update sr ct mr w rr p time_step
             = Raise p' (Passes.KeyError Passes.photosynthesis_key) /\
    is_alive p' = true /\ energy p' = 0 /\ life_stage p' = Seedling.
Proof.
  unfold update. rewrite Halive. simpl negb. cbv iota zeta.
  simpl life_stage. rewrite Hseed. simpl stage_eqb. cbv iota.
  unfold update_seed. cbv zeta. simpl energy. simpl temperature. simpl humidity.
  rewrite Hexact.
  rewrite (proj2 (Rleb_false PLANT_SPROUTING_ENERGY_COST 0))
    by (unfold PLANT_SPROUTING_ENERGY_COST; lra).
  rewrite (proj2 (Rleb_spec GERMINATION_MIN_TEMP (temperature p))) by lra.
  rewrite (proj2 (Rleb_spec (temperature p) GERMINATION_MAX_TEMP)) by lra.
  rewrite (proj2 (Rleb_spec GERMINATION_HUMIDITY_THRESHOLD (humidity p))) by lra.
  rewrite (proj2 (Rleb_spec PLANT_SPROUTING_ENERGY_COST PLANT_SPROUTING_ENERGY_COST))
    by lra.
  simpl andb. cbv iota.
  unfold patch_all_rates_after_sprout.
  change (Passes.has_array Passes.photosynthesis_key) with false. cbv iota.
  eexists. split; [reflexivity|]. simpl. rewrite Halive. repeat split. ring.
Qed.

Lemma sprouting_seed_alive_at_zero_witness :
  exists p', update 0 0 0 (BioDemo.flat_world (7 / 10) []) BioDemo.rows
               BioDemo.seed_2010 3600
             = Raise p' (Passes.KeyError Passes.photosynthesis_key) /\
    is_alive p' = true /\ energy p' = 0 /\ life_stage p' = Seedling.
Proof.
  apply (sprouting_seed_alive_at_zero 0 0 0 _ _ BioDemo.seed_2010 3600);
    unfold BioDemo.seed_2010; simpl; rconst; try reflexivity; try split; lra.
Defined.

(** On flat terrain, with the angles 0, a fruit at the center of
    [BioDemo.parent] (radius 10) drops on the canopy edge at (110, 100)
    and rolls 20 cm east. *)
Lemma demo_landing (e : R) (l : list creature_view) :
  landing_point (BioDemo.flat_world e l) BioDemo.parent BioDemo.ripe_fruit = (130, 100).
Proof.
  unfold landing_point. cbn [BioDemo.flat_world dispersal_angles get_elevation
    BioDemo.parent BioDemo.ripe_fruit world_x world_y pos_x pos_y radius].
  replace (sqrt ((100 - 100) ^ 2 + (100 - 100) ^ 2)) with 0
    by (symmetry; rewrite <- sqrt_0; f_equal; ring).
  replace (sqrt ((e - e) ^ 2 + (e - e) ^ 2)) with 0
    by (symmetry; rewrite <- sqrt_0; f_equal; ring).
  rdec. rewrite cos_0, sin_0. unfold PLANT_SEED_ROLL_BASE_DISTANCE_CM.
  f_equal; ring.
Qed.

Lemma soil_none_above_dirt e : TERRAIN_DIRT_LEVEL <= e -> get_soil_type e = None.
Proof. intro H. unfold get_soil_type. rdec. reflexivity. Qed.

(** Claim C10.  For a parent with at least the seed-provisioning energy
    and a fruit whose dispersal comes to rest at a point of elevation at
    or above the dirt level, with no plant of the dispersal query
    blocking it: [_disperse_seed] returns a new plant with no soil type,
    already dead with energy 0; the parent pays the full provisioning
    energy and the dead seed is the one seed handed to
    [world.add_newborn].  If the point is under water, [_disperse_seed]
    returns [None] and the parent pays nothing. *)
Theorem dry_landing_yields_dead_seed (w : world_reads) (p : plant) (fruit : organ)
    (Henergy : PLANT_SEED_PROVISIONING_ENERGY <= energy p) :
  let '(final_x, final_y) := landing_point w p fruit in
  let e := get_elevation w final_x final_y in
  (TERRAIN_DIRT_LEVEL <= e ->
   existsb (personal_space_blocks final_x final_y)
     (query w final_x final_y PLANT_CORE_PERSONAL_SPACE_FACTOR
            PLANT_CORE_PERSONAL_SPACE_FACTOR) = false ->
   exists s, disperse_seed w p fruit = Some s /\ soil_type s = None /\
     is_alive s = false /\ energy s = 0 /\
     drop_fruits w p [fruit] [] =
       (set_reproductive_organs (set_energy p (energy p - PLANT_SEED_PROVISIONING_ENERGY))
          (remove_organ fruit (reproductive_organs p)), [s])) /\
  (e < TERRAIN_WATER_LEVEL ->
   disperse_seed w p fruit = None /\
   drop_fruits w p [fruit] [] =
     (set_reproductive_organs p (remove_organ fruit (reproductive_organs p)), [])).
Proof.
  destruct (landing_point w p fruit) as [fx fy] eqn:Hl. cbv zeta. split.
  - intros Hdirt Hfree.
    assert (disperse_seed w p fruit = Some (new_plant w fx fy PLANT_SEED_PROVISIONING_ENERGY))
      as Hd.
    { unfold disperse_seed. rewrite Hl.
      rewrite (proj2 (Rltb_false (get_elevation w fx fy) TERRAIN_WATER_LEVEL))
        by (rconst; lra).
      rewrite Hfree. reflexivity. }
    pose proof (soil_none_above_dirt _ Hdirt) as Hs.
    exists (new_plant w fx fy PLANT_SEED_PROVISIONING_ENERGY). split; [exact Hd|].
    unfold new_plant at 1 2 3. cbv zeta. simpl soil_type. simpl is_alive. simpl energy.
    rewrite Hs. repeat split.
    simpl. rewrite (proj2 (Rleb_spec _ _) Henergy). rewrite Hd. reflexivity.
  - intro Hwater.
    assert (disperse_seed w p fruit = None) as Hd.
    { unfold disperse_seed. rewrite Hl.
      rewrite (proj2 (Rltb_spec (get_elevation w fx fy) TERRAIN_WATER_LEVEL) Hwater).
      reflexivity. }
    split; [exact Hd|].
    simpl. rewrite (proj2 (Rleb_spec _ _) Henergy). rewrite Hd. reflexivity.
Qed.

Lemma dry_landing_yields_dead_seed_witness :
  let w := BioDemo.flat_world (7 / 10) [] in
  PLANT_SEED_PROVISIONING_ENERGY <= energy BioDemo.parent /\
  exists s, disperse_seed w BioDemo.parent BioDemo.ripe_fruit = Some s /\
    is_alive s = false /\
    drop_fruits w BioDemo.parent [BioDemo.ripe_fruit] [] =
      (set_reproductive_organs
         (set_energy BioDemo.parent (energy BioDemo.parent - PLANT_SEED_PROVISIONING_ENERGY))
         [], [s]).
Proof.
  intro w.
  assert (PLANT_SEED_PROVISIONING_ENERGY <= energy BioDemo.parent) as He
    by (simpl; rconst; lra).
  split; [exact He|].
  pose proof (dry_landing_yields_dead_seed w BioDemo.parent BioDemo.ripe_fruit He) as H.
  unfold w in *. rewrite (demo_landing (7 / 10) []) in H. destruct H as [H _].
  destruct H as (s & Hd & _ & Ha & _ & Hdrop).
  - simpl. rconst. lra.
  - reflexivity.
  - exists s. split; [exact Hd|]. split; [exact Ha|]. exact Hdrop.
Defined.

(** Counterexample to claim C10 as stated: the fruit of [BioDemo.parent]
    comes to rest at (130, 100), at elevation 0.7, above the dirt level,
    but a plant with core radius 10 stands there: [_disperse_seed]
    returns [None], no seed is handed to [world.add_newborn], and the
    parent pays nothing. *)
Lemma dry_landing_blocked_by_neighbor :
  let w := BioDemo.flat_world (7 / 10) [BioDemo.blocker] in
  landing_point w BioDemo.parent BioDemo.ripe_fruit = (130, 100) /\
  TERRAIN_DIRT_LEVEL <= get_elevation w 130 100 /\
  disperse_seed w BioDemo.parent BioDemo.ripe_fruit = None /\
  drop_fruits w BioDemo.parent [BioDemo.ripe_fruit] [] =
    (set_reproductive_organs BioDemo.parent [], []).
Proof.
  intro w.
  assert (disperse_seed w BioDemo.parent BioDemo.ripe_fruit = None) as Hd.
  { unfold disperse_seed, w. rewrite (demo_landing (7 / 10) [BioDemo.blocker]).
    unfold BioDemo.flat_world. cbn [get_elevation query].
    unfold BioDemo.in_rect, personal_space_blocks, BioDemo.blocker. simpl.
    rdec. simpl. rdec. reflexivity. }
  split; [apply demo_landing|]. split; [simpl; rconst; lra|].
  split; [exact Hd|].
  simpl. rdec. rewrite Hd. reflexivity.
Qed.

End BioFacts.

(** *** The quadtree *)
Module QuadTreeFacts.
Import QuadTree.
Local Open Scope Q_scope.

Lemma Qle_bool_false (a b : Q) : Qle_bool a b = false -> b < a.
Proof.
  intro H. apply Qnot_le_lt. intro H'. apply Qle_bool_iff in H'. congruence.
Qed.

Ltac qbools :=
  repeat match goal with
  | H : Qle_bool _ _ = true |- _ => apply Qle_bool_iff in H
  | H : Qle_bool _ _ = false |- _ => apply Qle_bool_false in H
  end.

Ltac qsplit :=
  repeat match goal with
  | |- context [Qle_bool ?a ?b] =>
      let E := fresh "E" in destruct (Qle_bool a b) eqn:E
  end.

(** A half-open box [xl <= x < xh], [yl <= y < yh]; [contains r] is the
    box of [r]. *)
Definition in_box (xl xh yl yh : Q) (p : qpoint) : bool :=
  Qle_bool xl (qx p) && Qltb (qx p) xh && Qle_bool yl (qy p) && Qltb (qy p) yh.

Lemma in_box_eq xl xh yl yh xl' xh' yl' yh' p :
  xl == xl' -> xh == xh' -> yl == yl' -> yh == yh' ->
  in_box xl xh yl yh p = in_box xl' xh' yl' yh' p.
Proof.
  intros H1 H2 H3 H4. unfold in_box, Qltb.
  rewrite H1, H2, H3, H4. reflexivity.
Qed.

Lemma quadrant_boxes b p :
  let '(ne, nw, se, sw) := quadrants b in
  contains ne p = in_box (rx b) (rx b + rw b) (ry b - rh b) (ry b) p /\
  contains nw p = in_box (rx b - rw b) (rx b) (ry b - rh b) (ry b) p /\
  contains se p = in_box (rx b) (rx b + rw b) (ry b) (ry b + rh b) p /\
  contains sw p = in_box (rx b - rw b) (rx b) (ry b) (ry b + rh b) p.
Proof.
  cbn [quadrants rx ry rw rh].
  repeat split; apply in_box_eq; cbn [rx ry rw rh]; field.
Qed.

(** The four quadrants of a node, as a list. *)
Definition quadrant_list (b : rect) : list rect :=
  let '(ne, nw, se, sw) := quadrants b in [ne; nw; se; sw].

Lemma contains_intersects b r p :
  contains b p = true -> contains r p = true -> intersects b r = true.
Proof.
  unfold contains, intersects, Qltb. intros H1 H2.
  repeat rewrite andb_true_iff in H1, H2.
  destruct H1 as [[[A1 B1] C1] D1], H2 as [[[A2 B2] C2] D2].
  apply negb_true_iff in B1, D1, B2, D2. qbools.
  qsplit; qbools; simpl; try reflexivity; exfalso; Lqa.lra.
Qed.

(** Every point stored under a node lies in the node's boundary. *)
Fixpoint inv (t : qtree) : Prop :=
  match t with
  | Leaf b pts => Forall (fun p => contains b p = true) pts
  | Split b pts ne nw se sw =>
      Forall (fun p => contains b p = true) (elements t) /\
      inv ne /\ inv nw /\ inv se /\ inv sw
  end.

(** Every divided node has as children the quadrants of its boundary. *)
Fixpoint shape (t : qtree) : Prop :=
  match t with
  | Leaf _ _ => True
  | Split b _ ne nw se sw =>
      quadrants b = (boundary ne, boundary nw, boundary se, boundary sw) /\
      shape ne /\ shape nw /\ shape se /\ shape sw
  end.

Lemma inv_elements t : inv t -> Forall (fun p => contains (boundary t) p = true) (elements t).
Proof. destruct t; simpl; tauto. Qed.

Lemma quadrant_count (b : rect) (p : qpoint) :
  length (filter (fun r => contains r p) (quadrant_list b)) =
  (if contains b p then 1 else 0)%nat.
Proof.
  unfold quadrant_list. pose proof (quadrant_boxes b p) as Hq.
  destruct (quadrants b) as [[[ne nw] se] sw].
  destruct Hq as (Hne & Hnw & Hse & Hsw).
  simpl filter. rewrite Hne, Hnw, Hse, Hsw.
  unfold in_box, contains, Qltb. qsplit; qbools; simpl; try reflexivity; exfalso; Lqa.lra.
Qed.

(** The quadrant count, for named quadrants. *)
Lemma quadrant_count' b p ne nw se sw :
  quadrants b = (ne, nw, se, sw) ->
  length (filter (fun r => contains r p) [ne; nw; se; sw]) =
  (if contains b p then 1 else 0)%nat.
Proof.
  intro H. rewrite <- (quadrant_count b p). unfold quadrant_list. rewrite H. reflexivity.
Qed.

Ltac quadrant_contra Hq p :=
  match type of Hq with
  | quadrants ?b = (?ne, ?nw, ?se, ?sw) =>
      let C := fresh "C" in
      pose proof (quadrant_count' b p ne nw se sw Hq) as C;
      simpl filter in C;
      repeat match goal with H : contains _ _ = _ |- _ => rewrite H in C end;
      simpl in C; discriminate C
  end.

Lemma Forall_perm {A} (P : A -> Prop) (l l' : list A) :
  Permutation l l' -> Forall P l -> Forall P l'.
Proof.
  intros Hp H. rewrite Forall_forall in *. intros x Hx.
  apply H. eapply Permutation_in; [symmetry; exact Hp | exact Hx].
Qed.

Lemma Permutation_filter_f {A} (f : A -> bool) (l l' : list A) :
  Permutation l l' -> Permutation (filter f l) (filter f l').
Proof.
  induction 1; simpl.
  - constructor.
  - destruct (f x); [constructor|]; assumption.
  - destruct (f x), (f y); try constructor; reflexivity.
  - eapply Permutation_trans; eassumption.
Qed.

Lemma insert_outside cap f t p :
  contains (boundary t) p = false -> insert cap (S f) t p = Some (t, false).
Proof. intro H. simpl. rewrite H. reflexivity. Qed.

Lemma insert_fresh_leaf cap f q p :
  (1 <= cap)%nat ->
  insert cap (S f) (Leaf q []) p =
  Some (if contains q p then Leaf q [p] else Leaf q [], contains q p).
Proof.
  intro H. simpl. destruct (contains q p); simpl; [|reflexivity].
  destruct cap; [lia|reflexivity].
Qed.

Lemma insert_boundary cap fuel : forall t p t' r,
  insert cap fuel t p = Some (t', r) -> boundary t' = boundary t.
Proof.
  destruct fuel as [|f]; intros t p t' r H; [discriminate|]. simpl in H.
  destruct (contains (boundary t) p); simpl in H; [|congruence].
  destruct (Nat.ltb _ _).
  - inversion H; subst. destruct t; reflexivity.
  - destruct (divide t) as [[[ne nw] se] sw].
    repeat match type of H with
    | context [match ?e with Some _ => _ | None => _ end] =>
        destruct e as [[? []]|]; try discriminate
    end; inversion H; reflexivity.
Qed.

Lemma perm_step (a b c : list qpoint) p :
  Permutation b (p :: c) -> Permutation (a ++ b) (p :: a ++ c).
Proof.
  intro H. eapply Permutation_trans; [apply Permutation_app_head; exact H|].
  apply Permutation_sym, Permutation_middle.
Qed.

(** [perm_child H]: a child's elements gained [p]. *)
Ltac perm_child H :=
  simpl; rewrite H; rewrite <- ?app_assoc; simpl;
  repeat apply perm_step; apply perm_skip; reflexivity.

Lemma divide_inv t :
  inv t ->
  let '(ne, nw, se, sw) := divide t in
  inv ne /\ inv nw /\ inv se /\ inv sw /\
  elements (Split (boundary t) (points t) ne nw se sw) = elements t.
Proof.
  destruct t as [b pts | b pts ne nw se sw]; simpl.
  - intros _. unfold subdivide. destruct (quadrants b) as [[[ne nw] se] sw].
    simpl. rewrite app_nil_r. repeat split; constructor.
  - tauto.
Qed.

Lemma insert_inv cap fuel : forall t p t' r,
  insert cap fuel t p = Some (t', r) -> inv t ->
  inv t' /\
  (if r then Permutation (elements t') (p :: elements t) else elements t' = elements t).
Proof.
  induction fuel as [|f IH]; intros t p t' r H Hi; [discriminate|].
  pose proof (insert_boundary cap (S f) t p t' r H) as Hb.
  simpl in H. destruct (contains (boundary t) p) eqn:Hc; simpl in H;
    [|inversion H; subst; tauto].
  pose proof (inv_elements t Hi) as He.
  assert (Hnew : forall t', boundary t' = boundary t ->
            Permutation (elements t') (p :: elements t) ->
            Forall (fun q => contains (boundary t') q = true) (elements t')).
  { intros t0 Hb0 Hp. rewrite Hb0. eapply Forall_perm; [symmetry; exact Hp|].
    constructor; assumption. }
  destruct (Nat.ltb _ _).
  - inversion H; subst.
    assert (Hp : Permutation (elements (set_points t (points t ++ [p]))) (p :: elements t)).
    { destruct t; simpl; rewrite <- ?app_assoc; simpl; symmetry;
      apply Permutation_cons_app; rewrite ?app_nil_r; reflexivity. }
    split; [|exact Hp].
    pose proof (Hnew _ Hb Hp) as Hf.
    destruct t; simpl in *; [exact Hf | tauto].
  - pose proof (divide_inv t Hi) as Hd.
    destruct (divide t) as [[[ne nw] se] sw].
    destruct Hd as (Ine & Inw & Ise & Isw & Hel).
    destruct (insert cap f ne p) as [[ne' []]|] eqn:E1; try discriminate.
    { inversion H; subst. destruct (IH _ _ _ _ E1 Ine) as [Ine' Pne].
      assert (Hp : Permutation (elements (Split (boundary t) (points t) ne' nw se sw))
                     (p :: elements t)) by (rewrite <- Hel; perm_child Pne).
      split; [|exact Hp]. simpl. repeat split; try assumption.
      exact (Hnew _ Hb Hp). }
    destruct (IH _ _ _ _ E1 Ine) as [Ine' Pne].
    destruct (insert cap f nw p) as [[nw' []]|] eqn:E2; try discriminate.
    { inversion H; subst. destruct (IH _ _ _ _ E2 Inw) as [Inw' Pnw].
      assert (Hp : Permutation (elements (Split (boundary t) (points t) ne' nw' se sw))
                     (p :: elements t))
        by (rewrite <- Hel; simpl; rewrite Pne; perm_child Pnw).
      split; [|exact Hp]. simpl. repeat split; try assumption.
      exact (Hnew _ Hb Hp). }
    destruct (IH _ _ _ _ E2 Inw) as [Inw' Pnw].
    destruct (insert cap f se p) as [[se' []]|] eqn:E3; try discriminate.
    { inversion H; subst. destruct (IH _ _ _ _ E3 Ise) as [Ise' Pse].
      assert (Hp : Permutation (elements (Split (boundary t) (points t) ne' nw' se' sw))
                     (p :: elements t))
        by (rewrite <- Hel; simpl; rewrite Pne, Pnw; perm_child Pse).
      split; [|exact Hp]. simpl. repeat split; try assumption.
      exact (Hnew _ Hb Hp). }
    destruct (IH _ _ _ _ E3 Ise) as [Ise' Pse].
    destruct (insert cap f sw p) as [[sw' r']|] eqn:E4; try discriminate.
    inversion H; subst. destruct (IH _ _ _ _ E4 Isw) as [Isw' Psw].
    destruct r.
    + assert (Hp : Permutation (elements (Split (boundary t) (points t) ne' nw' se' sw'))
                     (p :: elements t))
        by (rewrite <- Hel; simpl; rewrite Pne, Pnw, Pse; perm_child Psw).
      split; [|exact Hp]. simpl. repeat split; try assumption.
      exact (Hnew _ Hb Hp).
    + assert (Hq : elements (Split (boundary t) (points t) ne' nw' se' sw') = elements t)
        by (rewrite <- Hel; simpl; rewrite Pne, Pnw, Pse, Psw; reflexivity).
      split; [|exact Hq]. cbn [inv]. repeat split; try assumption.
      rewrite Hq. exact He.
Qed.

(** [X1]: [subdivide] partitions the node: a point the node's boundary
    contains is contained in the boundary of exactly one of the four new
    children, and a point outside it in none. *)
Theorem subdivide_partition (b : rect) (p : qpoint) :
  let '(ne, nw, se, sw) := subdivide b in
  length (filter (fun t => contains (boundary t) p) [ne; nw; se; sw]) =
  (if contains b p then 1 else 0)%nat.
Proof.
  pose proof (quadrant_count b p) as H. unfold quadrant_list, subdivide in *.
  destruct (quadrants b) as [[[ne nw] se] sw]. cbn [filter boundary] in *.
  destruct (contains ne p), (contains nw p), (contains se p), (contains sw p); exact H.
Qed.

Lemma insert_ok cap fuel :
  (1 <= cap)%nat -> forall t p, shape t -> (height t + 2 <= fuel)%nat ->
  exists t', insert cap fuel t p = Some (t', contains (boundary t) p) /\
             shape t' /\ (height t' <= S (height t))%nat.
Proof.
  intros Hcap. induction fuel as [|f IH]; intros t p Hs Hf; [lia|].
  destruct (contains (boundary t) p) eqn:Hc.
  2: { exists t. split; [apply insert_outside; exact Hc | split; [exact Hs | lia]]. }
  cbn [insert]. rewrite Hc. cbn [negb].
  destruct (Nat.ltb (length (points t)) cap).
  { exists (set_points t (points t ++ [p])). split; [reflexivity|].
    destruct t; simpl in *; split; try tauto; lia. }
  destruct t as [b pts | b pts ne nw se sw]; cbn [divide boundary points height] in *.
  - unfold subdivide. destruct (quadrants b) as [[[q1 q2] q3] q4] eqn:Hq.
    destruct f as [|g]; [lia|].
    rewrite !insert_fresh_leaf by exact Hcap.
    destruct (contains q1 p) eqn:E1;
      [|destruct (contains q2 p) eqn:E2;
        [|destruct (contains q3 p) eqn:E3;
          [|destruct (contains q4 p) eqn:E4]]];
      try (eexists; split; [reflexivity|];
           cbn [shape height boundary]; split; [split; [exact Hq | tauto] | lia]).
    quadrant_contra Hq p.
  - destruct Hs as (Hq & Sne & Snw & Sse & Ssw).
    destruct (IH ne p Sne) as (ne' & E1 & S1 & H1); [lia|].
    destruct (IH nw p Snw) as (nw' & E2 & S2 & H2); [lia|].
    destruct (IH se p Sse) as (se' & E3 & S3 & H3); [lia|].
    destruct (IH sw p Ssw) as (sw' & E4 & S4 & H4); [lia|].
    pose proof (insert_boundary _ _ _ _ _ _ E1) as B1.
    pose proof (insert_boundary _ _ _ _ _ _ E2) as B2.
    pose proof (insert_boundary _ _ _ _ _ _ E3) as B3.
    pose proof (insert_boundary _ _ _ _ _ _ E4) as B4.
    rewrite E1, E2, E3, E4.
    destruct (contains (boundary ne) p) eqn:C1;
      [|destruct (contains (boundary nw) p) eqn:C2;
        [|destruct (contains (boundary se) p) eqn:C3;
          [|destruct (contains (boundary sw) p) eqn:C4]]];
      try (eexists; split; [reflexivity|];
           cbn [shape height boundary];
           split; [split; [rewrite ?B1, ?B2, ?B3, ?B4; exact Hq
                          | repeat split; assumption] | lia]).
    quadrant_contra Hq p.
Qed.

Lemma filter_disjoint b r l :
  Forall (fun p => contains b p = true) l -> intersects b r = false ->
  filter (contains r) l = [].
Proof.
  induction 1 as [|x l Hx Hl IHl]; intro Hi; simpl; [reflexivity|].
  destruct (contains r x) eqn:E; [|auto].
  rewrite (contains_intersects b r x Hx E) in Hi. discriminate.
Qed.

(** With the invariant, [query] appends to [found] exactly the stored
    points the range contains, in the order of [elements]. *)
Lemma query_elements t :
  inv t -> forall r found, query t r found = found ++ filter (contains r) (elements t).
Proof.
  induction t as [b pts | b pts ne IHne nw IHnw se IHse sw IHsw]; intros Hi r found.
  - simpl. destruct (intersects b r) eqn:Ei; simpl; [reflexivity|].
    rewrite (filter_disjoint b r pts Hi Ei), app_nil_r. reflexivity.
  - destruct Hi as (He & Ine & Inw & Ise & Isw). simpl in He |- *.
    destruct (intersects b r) eqn:Ei; simpl.
    + rewrite IHnw, IHne, IHsw, IHse by assumption.
      rewrite !filter_app, !app_assoc. reflexivity.
    + rewrite (filter_disjoint b r _ He Ei), app_nil_r. reflexivity.
Qed.

Lemma insert_all_ok cap :
  (1 <= cap)%nat -> forall ps t fuel, shape t -> inv t ->
  (height t + length ps + 2 <= fuel)%nat ->
  exists t' rs, insert_all cap fuel t ps = Some (t', rs) /\
    rs = map (contains (boundary t)) ps /\ inv t' /\
    Permutation (elements t') (elements t ++ filter (contains (boundary t)) ps).
Proof.
  intros Hcap. induction ps as [|p ps IH]; intros t fuel Hs Hi Hf.
  - exists t, []. simpl. rewrite app_nil_r. repeat split; auto.
  - destruct (insert_ok cap fuel Hcap t p Hs) as (t1 & E1 & S1 & H1); [simpl in Hf; lia|].
    pose proof (insert_boundary _ _ _ _ _ _ E1) as B1.
    destruct (insert_inv _ _ _ _ _ _ E1 Hi) as [I1 P1].
    destruct (IH t1 fuel S1 I1) as (t2 & rs & E2 & R2 & I2 & P2); [simpl in Hf; lia|].
    exists t2, (contains (boundary t) p :: rs). simpl. rewrite E1, E2.
    rewrite B1 in R2, P2.
    split; [reflexivity|]. split; [f_equal; exact R2|]. split; [exact I2|].
    destruct (contains (boundary t) p).
    + eapply Permutation_trans; [exact P2|].
      eapply Permutation_trans; [apply Permutation_app_tail; exact P1|].
      simpl. apply Permutation_middle.
    + rewrite P1 in P2. exact P2.
Qed.

(** [X2]: insert then query.  From a fresh [QuadTree(boundary, capacity)]
    with [capacity >= 1], inserting the points [ps] one after the other
    never exhausts a recursion depth of [length ps + 2], each [insert]
    returns whether the boundary contains the point, and [query(r, [])]
    then returns exactly the inserted points inside the boundary that
    [r] contains, each once (up to order). *)
Theorem insert_query_roundtrip (cap : nat) (b : rect) (ps : list qpoint) :
  (1 <= cap)%nat ->
  exists t rs,
    insert_all cap (length ps + 2) (new_tree b) ps = Some (t, rs) /\
    rs = map (contains b) ps /\
    forall r, Permutation (query t r []) (filter (contains r) (filter (contains b) ps)).
Proof.
  intro Hcap.
  destruct (insert_all_ok cap Hcap ps (new_tree b) (length ps + 2))
    as (t & rs & E & R & Hi & P); [exact I | constructor | simpl; lia |].
  exists t, rs. split; [exact E|]. split; [exact R|].
  intro r. rewrite (query_elements t Hi r []). simpl.
  apply Permutation_filter_f. exact P.
Qed.

Lemma insert_query_roundtrip_witness :
  (1 <= 4)%nat /\
  exists t rs,
    insert_all 4 (length [mkPoint 0 1 1; mkPoint 1 (-3) 2; mkPoint 2 20 0] + 2)
      (new_tree (mkRect 0 0 10 10)) [mkPoint 0 1 1; mkPoint 1 (-3) 2; mkPoint 2 20 0]
      = Some (t, rs) /\
    rs = map (contains (mkRect 0 0 10 10)) [mkPoint 0 1 1; mkPoint 1 (-3) 2; mkPoint 2 20 0] /\
    forall r, Permutation (query t r [])
      (filter (contains r) (filter (contains (mkRect 0 0 10 10))
         [mkPoint 0 1 1; mkPoint 1 (-3) 2; mkPoint 2 20 0])).
Proof.
  split; [lia|].
  apply (insert_query_roundtrip 4 (mkRect 0 0 10 10)
           [mkPoint 0 1 1; mkPoint 1 (-3) 2; mkPoint 2 20 0]); lia.
Defined.

End QuadTreeFacts.

(** *** [Animal.find_closest_plant] *)
Module AnimalFacts.
Import QuadTree QuadTreeFacts Animal.
Local Open Scope Q_scope.

Section Fold.
Variables (live : qpoint -> bool) (x y : Q).

(** The loop's pair: no plant and [inf], or a plant and its distance. *)
Definition acc_ok (acc : option qpoint * option Q) : Prop :=
  match acc with
  | (None, None) => True
  | (Some p, Some m) => m = dist_sq x y p
  | _ => False
  end.

Lemma fold_acc_ok l acc :
  acc_ok acc -> acc_ok (fold_left (closest_step live x y) l acc).
Proof.
  revert acc. induction l as [|q l IH]; intros [c m] H; simpl; [exact H|].
  apply IH. destruct (live q); [|exact H].
  destruct (lt_min _ m); [reflexivity | exact H].
Qed.

Lemma fold_some l acc p :
  fst (fold_left (closest_step live x y) l acc) = Some p ->
  fst acc = Some p \/ (In p l /\ live p = true).
Proof.
  revert acc. induction l as [|q l IH]; intros [c m] H; simpl in *; [left; exact H|].
  destruct (live q) eqn:Lq; [destruct (lt_min _ m)|];
    apply IH in H; simpl in H; destruct H as [H|[H1 H2]];
    try (right; split; [right; exact H1 | exact H2]).
  - inversion H; subst. right. split; [left; reflexivity | exact Lq].
  - left; exact H.
  - left; exact H.
Qed.

Lemma fold_none l acc :
  acc_ok acc -> fst (fold_left (closest_step live x y) l acc) = None ->
  fst acc = None /\ forall q, In q l -> live q = false.
Proof.
  revert acc. induction l as [|q l IH]; intros [c m] Ha H; simpl in *; [tauto|].
  destruct (live q) eqn:Lq.
  - destruct (lt_min (dist_sq x y q) m) eqn:Lt.
    + apply IH in H; [|reflexivity]. destruct H as [H _]. discriminate.
    + apply IH in H; [|exact Ha]. simpl in H. destruct H as [H1 _]. subst c.
      destruct m; [destruct Ha | discriminate].
  - apply IH in H; [|exact Ha]. simpl in H. destruct H as [H1 H2].
    split; [exact H1|]. intros q' [<-|Hq]; auto.
Qed.

Lemma fold_min l acc :
  acc_ok acc ->
  match snd (fold_left (closest_step live x y) l acc) with
  | Some m => (forall q, In q l -> live q = true -> m <= dist_sq x y q) /\
              (forall m0, snd acc = Some m0 -> m <= m0)
  | None => True
  end.
Proof.
  revert acc. induction l as [|q l IH]; intros [c m] Ha; simpl.
  - destruct m as [m|]; [|exact I].
    split; [intros q []| intros m0 H; inversion H; apply Qle_refl].
  - destruct (live q) eqn:Lq; [destruct (lt_min (dist_sq x y q) m) eqn:Lt|].
    + pose proof (IH (Some q, Some (dist_sq x y q)) eq_refl) as H.
      destruct (snd (fold_left _ l _)) as [m'|]; [|exact I].
      destruct H as [H1 H2]. specialize (H2 _ eq_refl). split.
      * intros q' [<-|Hq'] Lq'; [exact H2 | apply H1; assumption].
      * intros m0 Hm0. inversion Hm0; subst. simpl in Lt.
        unfold Qltb in Lt. apply negb_true_iff, Qle_bool_false in Lt.
        apply (Qle_trans _ _ _ H2). apply Qlt_le_weak. exact Lt.
    + destruct m as [m0|]; [|discriminate].
      simpl in Lt. unfold Qltb in Lt. apply negb_false_iff, Qle_bool_iff in Lt.
      pose proof (IH (c, Some m0) Ha) as H.
      destruct (snd (fold_left _ l _)) as [m'|]; [|exact I].
      destruct H as [H1 H2]. specialize (H2 _ eq_refl). split.
      * intros q' [<-|Hq'] Lq'; [|apply H1; assumption].
        apply (Qle_trans _ _ _ H2). exact Lt.
      * intros m1 Hm1. inversion Hm1; subst. exact H2.
    + pose proof (IH (c, m) Ha) as H.
      destruct (snd (fold_left _ l _)) as [m'|]; [|exact I].
      destruct H as [H1 H2]. split; [|exact H2].
      intros q' [<-|Hq'] Lq'; [congruence | apply H1; assumption].
Qed.
End Fold.

(** [X4]: the animal's search.  In a quadtree built by inserting the
    creatures [ps] into a fresh tree (capacity at least 1),
    [find_closest_plant] returns a live plant that was inserted, lies in
    the tree's boundary and in the 200 cm sight square around the animal,
    and is at least as close to it as every other such plant; it returns
    [None] only when there is no such plant. *)
Theorem find_closest_plant_spec (cap : nat) (b : rect) (ps : list qpoint)
    (t : qtree) (rs : list bool) (live : qpoint -> bool) (x y : Q) :
  (1 <= cap)%nat ->
  insert_all cap (length ps + 2) (new_tree b) ps = Some (t, rs) ->
  let seen q := In q ps /\ contains b q = true /\
                contains (mkRect x y ANIMAL_SIGHT_RADIUS_CM ANIMAL_SIGHT_RADIUS_CM) q = true /\
                live q = true in
  match find_closest_plant live x y t with
  | Some p => seen p /\ forall q, seen q -> dist_sq x y p <= dist_sq x y q
  | None => forall q, ~ seen q
  end.
Proof.
  intros Hcap E seen.
  destruct (insert_all_ok cap Hcap ps (new_tree b) (length ps + 2))
    as (t' & rs' & E' & _ & Hi & P); [exact I | constructor | simpl; lia |].
  rewrite E in E'. inversion E'; subst t' rs'. clear E'. simpl in P.
  set (area := mkRect x y ANIMAL_SIGHT_RADIUS_CM ANIMAL_SIGHT_RADIUS_CM) in *.
  set (l := query t area []).
  assert (Hn : forall q, In q l <-> In q ps /\ contains b q = true /\ contains area q = true).
  { intro q. unfold l. rewrite (query_elements t Hi area []). simpl.
    rewrite filter_In. split.
    - intros [H1 H2]. apply (Permutation_in _ P), filter_In in H1. tauto.
    - intros (H1 & H2 & H3). split; [|exact H3].
      apply (Permutation_in _ (Permutation_sym P)), filter_In. tauto. }
  unfold find_closest_plant. fold area. fold l.
  pose proof (fold_acc_ok live x y l (None, None) I) as A.
  pose proof (fold_min live x y l (None, None) I) as M.
  pose proof (fold_some live x y l (None, None)) as S.
  pose proof (fold_none live x y l (None, None) I) as N.
  destruct (fold_left (closest_step live x y) l (None, None)) as [c m]. simpl in *.
  destruct c as [p|].
  - destruct (S p eq_refl) as [H|[H1 H2]]; [discriminate|].
    destruct m as [m|]; [|destruct A]. subst m.
    destruct M as [M _]. split.
    + apply Hn in H1. unfold seen. tauto.
    + intros q (Q1 & Q2 & Q3 & Q4). apply M; [apply Hn; tauto | exact Q4].
  - destruct (N eq_refl) as [_ N']. intros q (Q1 & Q2 & Q3 & Q4).
    rewrite (N' q) in Q4; [discriminate|]. apply Hn. tauto.
Qed.

Lemma find_closest_plant_spec_witness :
  (1 <= 4)%nat /\
  exists t rs,
    insert_all 4 (length [mkPoint 0 10 10; mkPoint 1 50 50; mkPoint 2 300 300] + 2)
      (new_tree (mkRect 0 0 1000 1000))
      [mkPoint 0 10 10; mkPoint 1 50 50; mkPoint 2 300 300] = Some (t, rs) /\
    let seen q := In q [mkPoint 0 10 10; mkPoint 1 50 50; mkPoint 2 300 300] /\
                  contains (mkRect 0 0 1000 1000) q = true /\
                  contains (mkRect 40 40 ANIMAL_SIGHT_RADIUS_CM ANIMAL_SIGHT_RADIUS_CM) q = true /\
                  negb (Nat.eqb (qid q) 2) = true in
    match find_closest_plant (fun q => negb (Nat.eqb (qid q) 2)) 40 40 t with
    | Some p => seen p /\ forall q, seen q -> dist_sq 40 40 p <= dist_sq 40 40 q
    | None => forall q, ~ seen q
    end.
Proof.
  split; [lia|]. eexists; eexists; split; [reflexivity|].
  eapply (find_closest_plant_spec 4 (mkRect 0 0 1000 1000)
           [mkPoint 0 10 10; mkPoint 1 50 50; mkPoint 2 300 300]); [lia | reflexivity].
Defined.
End AnimalFacts.

(** *** The competition grids, more properties *)
Module GridMoreFacts.
Import Grid GridFacts.
Local Open Scope Q_scope.

Lemma Qle_bool_false' (a b : Q) : Qle_bool a b = false -> b < a.
Proof.
  intro H. apply Qnot_le_lt. intro H'. apply Qle_bool_iff in H'. congruence.
Qed.

Lemma populate_row_skip cs gw gh g p :
  Qle_bool (radius p) 0 = true -> populate_row cs gw gh g p = g.
Proof. intro E. destruct g. unfold populate_row. rewrite E. reflexivity. Qed.

Lemma fold_light_le cs gw gh M rows g :
  (forall q, In q rows -> 0 < radius q -> height q <= M) ->
  (forall c, fst g c <= M) ->
  forall c, fst (fold_left (populate_row cs gw gh) rows g) c <= M.
Proof.
  revert g. induction rows as [|q rows IH]; intros g Hq Hg; simpl; [exact Hg|].
  apply IH; [intros q' Hq'; apply Hq; right; exact Hq'|].
  destruct (Qle_bool (radius q) 0) eqn:E; [rewrite populate_row_skip by exact E; exact Hg|].
  destruct g as [l r]. unfold populate_row. rewrite E. simpl fst. intro c.
  rewrite light_fold_spec.
  destruct (existsb _ _); [|apply Hg].
  apply Q.max_lub; [apply Hg|]. apply Hq; [left; reflexivity|].
  apply Qle_bool_false'. exact E.
Qed.

Lemma filter_Qltb_nil h (light : grid) l :
  (forall c, light c <= h) -> filter (fun c => Qltb h (light c)) l = [].
Proof.
  intro H. induction l as [|c l IH]; simpl; [reflexivity|].
  destruct (Qltb h (light c)) eqn:E; [|exact IH].
  apply Qltb_true in E. specialize (H c). exfalso. Lqa.lra.
Qed.

Lemma competition_unshaded cs gw gh (light root : grid) p :
  (forall c, light c <= height p) -> fst (competition_of cs gw gh light root p) == 0.
Proof.
  intro H. unfold competition_of.
  destruct (Qle_bool (radius p) 0) eqn:E; [reflexivity|].
  apply Qle_bool_false' in E. cbv zeta. simpl fst.
  rewrite (filter_Qltb_nil _ _ _ H). simpl length.
  assert (Hp : 0 < radius p * radius p * np_pi)
    by (apply Qmult_lt_0_compat; [apply Qmult_lt_0_compat|apply np_pi_pos]; exact E).
  assert (H0 : inject_Z (Z.of_nat 0) * cell_area cs == 0) by ring.
  unfold pymin. destruct (Qlt_le_dec _ _); [exfalso; rewrite H0 in *; Lqa.lra | exact H0].
Qed.

(** [X5]: the tallest plant is never shaded.  If a plant's height is
    non-negative and at least the height of every plant of positive
    canopy radius, the shaded canopy area that populate-then-resolve
    writes for it is 0. *)
Theorem tallest_unshaded (cs : Q) (gw gh : Z) (rows : list row) (i : nat) (p : row) :
  nth_error rows i = Some p -> 0 <= height p ->
  (forall q, In q rows -> 0 < radius q -> height q <= height p) ->
  match nth_error (resolve cs gw gh rows) i with
  | Some (shaded, _) => shaded == 0
  | None => False
  end.
Proof.
  intros Hi H0 Hq. unfold resolve.
  assert (HL : forall c, fst (populate cs gw gh rows) c <= height p)
    by (apply fold_light_le; [exact Hq | intro c; exact H0]).
  destruct (populate cs gw gh rows) as [light root]. simpl in HL.
  rewrite nth_error_map, Hi. simpl.
  pose proof (competition_unshaded cs gw gh light root p HL) as H.
  destruct (competition_of cs gw gh light root p). exact H.
Qed.

Lemma tallest_unshaded_witness :
  nth_error [mkRow 50 50 30 100 10; mkRow 60 50 30 80 10] 0 = Some (mkRow 50 50 30 100 10) /\
  0 <= height (mkRow 50 50 30 100 10) /\
  (forall q, In q [mkRow 50 50 30 100 10; mkRow 60 50 30 80 10] -> 0 < radius q ->
             height q <= height (mkRow 50 50 30 100 10)) /\
  match nth_error (resolve 10 100 100 [mkRow 50 50 30 100 10; mkRow 60 50 30 80 10]) 0 with
  | Some (shaded, _) => shaded == 0
  | None => False
  end.
Proof.
  assert (Hq : forall q, In q [mkRow 50 50 30 100 10; mkRow 60 50 30 80 10] -> 0 < radius q ->
             height q <= height (mkRow 50 50 30 100 10)).
  { intros q [<-|[<-|[]]] _; simpl; unfold Qle; simpl; lia. }
  split; [reflexivity|]. split; [unfold Qle; simpl; lia|]. split; [exact Hq|].
  apply (tallest_unshaded 10 100 100 _ 0 (mkRow 50 50 30 100 10));
    [reflexivity | unfold Qle; simpl; lia | exact Hq].
Defined.

(** [X6]: seeds do not take part in the competition.  Inserting a row of
    canopy radius at most 0 anywhere among the rows changes no other
    row's result, and its own result is [(0, 0)]. *)
Theorem seed_insert_neutral (cs : Q) (gw gh : Z) (a b : list row) (s : row) :
  radius s <= 0 ->
  resolve cs gw gh (a ++ s :: b) =
  firstn (length a) (resolve cs gw gh (a ++ b)) ++ (0, 0) ::
  skipn (length a) (resolve cs gw gh (a ++ b)).
Proof.
  intro Hs. apply Qle_bool_iff in Hs.
  unfold resolve, populate. rewrite !fold_left_app. simpl fold_left.
  rewrite (populate_row_skip cs gw gh _ s Hs).
  destruct (fold_left (populate_row cs gw gh) b _) as [light root].
  rewrite !map_app. simpl.
  rewrite firstn_app, skipn_app, !length_map, Nat.sub_diag.
  rewrite firstn_all2 by (rewrite length_map; lia).
  rewrite skipn_all2 by (rewrite length_map; lia). simpl.
  unfold competition_of at 2. rewrite Hs. rewrite app_nil_r. reflexivity.
Qed.

Lemma seed_insert_neutral_witness :
  radius (mkRow 55 50 0 0 0) <= 0 /\
  resolve 10 100 100 ([mkRow 50 50 30 100 10] ++ mkRow 55 50 0 0 0 :: [mkRow 60 50 30 80 10]) =
  firstn 1 (resolve 10 100 100 ([mkRow 50 50 30 100 10] ++ [mkRow 60 50 30 80 10])) ++ (0, 0) ::
  skipn 1 (resolve 10 100 100 ([mkRow 50 50 30 100 10] ++ [mkRow 60 50 30 80 10])).
Proof.
  split; [unfold Qle; simpl; lia|].
  apply (seed_insert_neutral 10 100 100 [mkRow 50 50 30 100 10] [mkRow 60 50 30 80 10]).
  unfold Qle; simpl; lia.
Defined.
Lemma pymin_mono_l a a' b : a <= a' -> pymin a b <= pymin a' b.
Proof.
  intro H. unfold pymin.
  destruct (Qlt_le_dec b a), (Qlt_le_dec b a'); Lqa.lra.
Qed.

Lemma cell_area_nonneg cs : 0 <= cell_area cs.
Proof. unfold cell_area. Lqa.nra. Qed.

Lemma filter_length_mono {A} (f g : A -> bool) l :
  (forall x, f x = true -> g x = true) -> (length (filter f l) <= length (filter g l))%nat.
Proof.
  intro H. induction l as [|x l IH]; simpl; [lia|].
  destruct (f x) eqn:E; [rewrite (H x E); simpl; lia|].
  destruct (g x); simpl; lia.
Qed.

(** The contribution of one cell to the overlapped root area. *)
Definition overlap_term (rr q : Q) : Q := if Qltb rr q then (q - rr) / q else 0.

Lemma overlap_sum rr l :
  fold_right Qplus 0 (map (fun q => (q - rr) / q) (filter (fun q => Qltb rr q) l)) ==
  fold_right Qplus 0 (map (overlap_term rr) l).
Proof.
  induction l as [|q l IH]; simpl; [reflexivity|].
  unfold overlap_term at 1. destruct (Qltb rr q); simpl; rewrite IH; [reflexivity|ring].
Qed.

Lemma overlap_term_mono rr q1 q2 :
  0 <= rr -> q1 <= q2 -> overlap_term rr q1 <= overlap_term rr q2.
Proof.
  intros H0 H12. unfold overlap_term.
  destruct (Qltb rr q1) eqn:E1, (Qltb rr q2) eqn:E2.
  - apply Qltb_true in E1. apply Qltb_true in E2.
    assert (Hq1 : 0 < q1) by Lqa.lra.
    assert (Hq2 : 0 < q2) by Lqa.lra.
    assert (Ha : (q1 - rr) / q1 == 1 - rr / q1)
      by (field; intro; Lqa.lra).
    assert (Hb : (q2 - rr) / q2 == 1 - rr / q2)
      by (field; intro; Lqa.lra).
    rewrite Ha, Hb.
    assert (rr / q2 <= rr / q1); [|Lqa.lra].
    apply Qle_shift_div_r; [exact Hq2|].
    assert (0 <= rr / q1) by (apply Qle_shift_div_l; Lqa.lra).
    assert (Hq : rr / q1 * q1 == rr) by (field; intro; Lqa.lra).
    rewrite <- Hq at 1. rewrite (Qmult_comm (rr / q1) q1), (Qmult_comm (rr / q1) q2).
    apply Qmult_le_compat_r; assumption.
  - exfalso. apply Qltb_true in E1.
    unfold Qltb in E2. apply negb_false_iff, Qle_bool_iff in E2. Lqa.lra.
  - apply Qltb_true in E2. apply Qle_shift_div_l; Lqa.lra.
  - apply Qle_refl.
Qed.

Lemma sum_mono {A} (f g : A -> Q) l :
  (forall x, f x <= g x) ->
  fold_right Qplus 0 (map f l) <= fold_right Qplus 0 (map g l).
Proof.
  intro H. induction l as [|x l IH]; simpl; [apply Qle_refl|].
  apply Qplus_le_compat; [apply H | exact IH].
Qed.

Lemma competition_mono cs gw gh (L1 R1 L2 R2 : grid) p :
  0 <= root_radius p ->
  (forall c, L1 c <= L2 c) -> (forall c, R1 c <= R2 c) ->
  fst (competition_of cs gw gh L1 R1 p) <= fst (competition_of cs gw gh L2 R2 p) /\
  snd (competition_of cs gw gh L1 R1 p) <= snd (competition_of cs gw gh L2 R2 p).
Proof.
  intros Hr HL HR. unfold competition_of.
  destruct (Qle_bool (radius p) 0); [split; apply Qle_refl|].
  cbv zeta. cbn [fst snd]. split; apply pymin_mono_l;
    apply Qmult_le_compat_r; try apply cell_area_nonneg.
  - rewrite <- Zle_Qle. apply Nat2Z.inj_le. apply filter_length_mono.
    intros c H. apply Qltb_true in H. apply Qltb_true.
    apply (Qlt_le_trans _ _ _ H). apply HL.
  - rewrite !overlap_sum, !map_map. apply sum_mono. intro c.
    apply overlap_term_mono; [exact Hr | apply HR].
Qed.

Definition grids_le (g g' : grid * grid) : Prop :=
  (forall c, fst g c <= fst g' c) /\ (forall c, snd g c <= snd g' c).

Lemma light_fold_mono h cells (l l' : grid) :
  (forall c, l c <= l' c) ->
  forall c, fold_left (fun l d => upd l d (Qmax (l d) h)) cells l c <=
            fold_left (fun l d => upd l d (Qmax (l d) h)) cells l' c.
Proof.
  intros H c. rewrite !light_fold_spec.
  destruct (existsb _ _); [apply Q.max_le_compat_r|]; apply H.
Qed.

Lemma root_fold_mono h cells (l l' : grid) :
  (forall c, l c <= l' c) ->
  forall c, fold_left (fun l d => upd l d (l d + h)) cells l c <=
            fold_left (fun l d => upd l d (l d + h)) cells l' c.
Proof.
  revert l l'. induction cells as [|d cells IH]; intros l l' H; simpl; [exact H|].
  apply IH. intro c. unfold upd. destruct (cell_eqb c d); [|apply H].
  apply Qplus_le_compat; [apply H | apply Qle_refl].
Qed.

Lemma root_fold_incr h cells (l : grid) :
  0 <= h -> forall c, l c <= fold_left (fun l d => upd l d (l d + h)) cells l c.
Proof.
  intro Hh. revert l. induction cells as [|d cells IH]; intros l c; simpl; [apply Qle_refl|].
  eapply Qle_trans; [|apply IH]. unfold upd.
  destruct (cell_eqb c d) eqn:E; [|apply Qle_refl].
  apply cell_eqb_true in E. subst d. Lqa.lra.
Qed.

Lemma populate_row_mono cs gw gh g g' p :
  grids_le g g' -> grids_le (populate_row cs gw gh g p) (populate_row cs gw gh g' p).
Proof.
  destruct g as [l r], g' as [l' r']. intros [H1 H2]. unfold populate_row.
  destruct (Qle_bool (radius p) 0); [split; assumption|].
  split; simpl; [apply light_fold_mono | apply root_fold_mono]; assumption.
Qed.

Lemma populate_row_incr cs gw gh g p :
  0 <= root_radius p -> grids_le g (populate_row cs gw gh g p).
Proof.
  intro Hr. destruct g as [l r]. unfold populate_row.
  destruct (Qle_bool (radius p) 0); [split; intro; apply Qle_refl|].
  split; simpl; intro c.
  - rewrite light_fold_spec. destruct (existsb _ _); [apply Q.le_max_l|apply Qle_refl].
  - apply root_fold_incr. exact Hr.
Qed.

Lemma fold_rows_mono cs gw gh rows g g' :
  grids_le g g' ->
  grids_le (fold_left (populate_row cs gw gh) rows g) (fold_left (populate_row cs gw gh) rows g').
Proof.
  revert g g'. induction rows as [|p rows IH]; intros g g' H; simpl; [exact H|].
  apply IH. apply populate_row_mono. exact H.
Qed.

(** [X7]: competition only grows with the population.  Adding a plant
    with a non-negative root radius anywhere among the rows never
    decreases the shaded canopy area nor the overlapped root area
    computed for a plant whose root radius is non-negative. *)
Theorem competition_monotone (cs : Q) (gw gh : Z) (a b : list row) (n p : row) :
  0 <= root_radius n -> 0 <= root_radius p ->
  let '(L1, R1) := populate cs gw gh (a ++ b) in
  let '(L2, R2) := populate cs gw gh (a ++ n :: b) in
  fst (competition_of cs gw gh L1 R1 p) <= fst (competition_of cs gw gh L2 R2 p) /\
  snd (competition_of cs gw gh L1 R1 p) <= snd (competition_of cs gw gh L2 R2 p).
Proof.
  intros Hn Hp. unfold populate. rewrite !fold_left_app. cbn [fold_left].
  pose proof (fold_rows_mono cs gw gh b _ _
                (populate_row_incr cs gw gh (fold_left (populate_row cs gw gh) a (zero_grid, zero_grid)) n Hn))
    as [H1 H2].
  destruct (fold_left (populate_row cs gw gh) b (fold_left _ a _)) as [L1 R1].
  destruct (fold_left (populate_row cs gw gh) b (populate_row _ _ _ _ n)) as [L2 R2].
  apply competition_mono; assumption.
Qed.

Lemma competition_monotone_witness :
  0 <= root_radius (mkRow 60 50 30 120 20) /\ 0 <= root_radius (mkRow 50 50 30 100 10) /\
  let '(L1, R1) := populate 10 100 100 ([mkRow 50 50 30 100 10] ++ []) in
  let '(L2, R2) := populate 10 100 100 ([mkRow 50 50 30 100 10] ++ [mkRow 60 50 30 120 20]) in
  fst (competition_of 10 100 100 L1 R1 (mkRow 50 50 30 100 10)) <=
  fst (competition_of 10 100 100 L2 R2 (mkRow 50 50 30 100 10)) /\
  snd (competition_of 10 100 100 L1 R1 (mkRow 50 50 30 100 10)) <=
  snd (competition_of 10 100 100 L2 R2 (mkRow 50 50 30 100 10)).
Proof.
  split; [unfold Qle; simpl; lia|]. split; [unfold Qle; simpl; lia|].
  apply (competition_monotone 10 100 100 [mkRow 50 50 30 100 10] []
           (mkRow 60 50 30 120 20) (mkRow 50 50 30 100 10));
    unfold Qle; simpl; lia.
Defined.

Lemma NoDup_map_inj {A B} (f : A -> B) l :
  (forall x y, f x = f y -> x = y) -> NoDup l -> NoDup (map f l).
Proof.
  intros Hf. induction 1 as [|x l Hx Hl IH]; simpl; constructor; [|exact IH].
  rewrite in_map_iff. intros (z & Hz & Hin). apply Hf in Hz. subst. contradiction.
Qed.

Lemma NoDup_arange a b : NoDup (arange a b).
Proof.
  unfold arange. apply NoDup_map_inj; [intros; lia | apply seq_NoDup].
Qed.

Lemma NoDup_grid_cells (xs ys : list Z) :
  NoDup xs -> NoDup ys ->
  NoDup (flat_map (fun gy => map (fun gx => (gx, gy)) xs) ys).
Proof.
  intros Hx. induction 1 as [|y ys Hy Hys IH]; simpl; [constructor|].
  apply NoDup_app; [| exact IH |].
  - apply NoDup_map_inj; [intros u v H; injection H; auto | exact Hx].
  - intros [gx gy] H1 H2. apply in_map_iff in H1 as (u & Hu & _).
    injection Hu as <- <-. apply in_flat_map in H2 as (y' & Hy' & H2).
    apply in_map_iff in H2 as (v & Hv & _). injection Hv as _ <-. contradiction.
Qed.

Lemma NoDup_disc_cells cs gw gh x y r : NoDup (disc_cells cs gw gh x y r).
Proof.
  unfold disc_cells. apply NoDup_filter. unfold bbox_cells.
  apply NoDup_grid_cells; apply NoDup_arange.
Qed.

Lemma root_fold_spec h cells (l : grid) c :
  NoDup cells ->
  fold_left (fun l d => upd l d (l d + h)) cells l c ==
  if existsb (cell_eqb c) cells then l c + h else l c.
Proof.
  intro Hn. revert l. induction Hn as [|d cells Hd Hn IH]; intro l; simpl; [reflexivity|].
  rewrite IH. unfold upd.
  destruct (cell_eqb c d) eqn:E; simpl.
  - apply cell_eqb_true in E. subst d.
    destruct (existsb (cell_eqb c) cells) eqn:Ex.
    + apply existsb_exists in Ex as (d & Hin & Hcd). apply cell_eqb_true in Hcd.
      subst d. contradiction.
    + reflexivity.
  - destruct (existsb (cell_eqb c) cells); reflexivity.
Qed.

Lemma filter_competed_nil rr (root : grid) l :
  (forall c, In c l -> root c == rr) -> filter (fun q => Qltb rr q) (map root l) = [].
Proof.
  induction l as [|c l IH]; intro HR; [reflexivity|]. simpl.
  destruct (Qltb rr (root c)) eqn:Q.
  - apply Qltb_true in Q. rewrite (HR c (or_introl eq_refl)) in Q.
    exfalso. apply (Qlt_irrefl _ Q).
  - apply IH. intros d Hd. apply HR. right. exact Hd.
Qed.

(** [X8]: a plant alone in the store with a non-negative height has
    neither shaded canopy area nor overlapped root area. *)
Theorem lone_plant_uncontested (cs : Q) (gw gh : Z) (p : row) :
  0 <= height p ->
  match resolve cs gw gh [p] with
  | [(shaded, overlapped)] => shaded == 0 /\ overlapped == 0
  | _ => False
  end.
Proof.
  intro H0. unfold resolve.
  assert (HL : forall c, fst (populate cs gw gh [p]) c <= height p).
  { apply fold_light_le; [intros q [<-|[]] _; apply Qle_refl | intro c; exact H0]. }
  destruct (Qle_bool (radius p) 0) eqn:E.
  { destruct (populate cs gw gh [p]) as [light root]. simpl.
    unfold competition_of. rewrite E. split; reflexivity. }
  pose proof (NoDup_disc_cells cs gw gh (px p) (py p) (root_radius p)) as Hn.
  assert (HR : forall c, In c (disc_cells cs gw gh (px p) (py p) (root_radius p)) ->
                 snd (populate cs gw gh [p]) c == root_radius p).
  { intros c Hc. unfold populate. simpl. unfold populate_row. rewrite E. simpl.
    rewrite (root_fold_spec _ _ _ _ Hn), (existsb_cell_In _ _ Hc).
    unfold zero_grid. ring. }
  destruct (populate cs gw gh [p]) as [light root]. simpl in HL, HR.
  pose proof (competition_unshaded cs gw gh light root p HL) as Hs.
  enough (Ho : snd (competition_of cs gw gh light root p) == 0)
    by (simpl; destruct (competition_of cs gw gh light root p); split; assumption).
  unfold competition_of. rewrite E. cbv zeta. cbn [snd].
  rewrite (filter_competed_nil (root_radius p) root _ HR). simpl.
  assert (H00 : 0 * cell_area cs == 0) by ring.
  assert (Hpi : 0 <= root_radius p * root_radius p * np_pi).
  { apply Qmult_le_0_compat; [Lqa.nra | apply Qlt_le_weak, np_pi_pos]. }
  unfold pymin. destruct (Qlt_le_dec _ _); [rewrite H00 in *; Lqa.lra | exact H00].
Qed.

Lemma lone_plant_uncontested_witness :
  0 <= height (mkRow 50 50 30 100 10) /\
  match resolve 10 100 100 [mkRow 50 50 30 100 10] with
  | [(shaded, overlapped)] => shaded == 0 /\ overlapped == 0
  | _ => False
  end.
Proof.
  split; [unfold Qle; simpl; lia|].
  apply lone_plant_uncontested. unfold Qle; simpl; lia.
Defined.

End GridMoreFacts.

Module PlantPassesFacts.
Import PlantPasses.
Local Open Scope R_scope.

Lemma exp_le_mono (x y : R) : x <= y -> exp x <= exp y.
Proof.
  intros H. destruct (Rle_lt_or_eq_dec x y H) as [Hl|He].
  - left. apply exp_increasing. exact Hl.
  - subst. lra.
Qed.

Lemma exp_nonpos_le_1 (x : R) : x <= 0 -> 0 <= exp x <= 1.
Proof.
  intros H. split.
  - left. apply exp_pos.
  - rewrite <- exp_0. apply exp_le_mono. exact H.
Qed.

(** [exp (-(d / t)^2)] for [d = |x - opt|]: a factor of the efficiency. *)
Lemma gauss_factor_range (d t : R) : 0 <= exp (- ((d / t) ^ 2)) <= 1.
Proof.
  apply exp_nonpos_le_1. assert (0 <= (d / t) ^ 2) by (apply pow2_ge_0). lra.
Qed.

Lemma gauss_factor_mono (d1 d2 t : R) :
  t <> 0 -> 0 <= d1 -> d1 <= d2 -> exp (- ((d2 / t) ^ 2)) <= exp (- ((d1 / t) ^ 2)).
Proof.
  intros Ht H0 H12. apply exp_le_mono. apply Ropp_le_contravar.
  unfold Rdiv. rewrite !Rpow_mult_distr.
  apply Rmult_le_compat_r.
  - apply pow2_ge_0.
  - apply pow_incr. lra.
Qed.

Lemma slice_assign_length f c s d :
  length s = length d -> length (slice_assign f c s d) = length d.
Proof.
  intros H. unfold slice_assign. rewrite length_app, length_map, length_firstn, length_skipn.
  lia.
Qed.

Lemma slice_assign_tail f c s d i :
  length s = length d -> (c <= i)%nat -> nth_error (slice_assign f c s d) i = nth_error d i.
Proof.
  intros H Hi. unfold slice_assign.
  rewrite nth_error_app2 by (rewrite length_map, length_firstn; lia).
  rewrite length_map, length_firstn.
  destruct (Nat.le_gt_cases c (length s)) as [Hc|Hc].
  - rewrite nth_error_skipn. f_equal. lia.
  - rewrite skipn_all2 by lia.
    destruct (i - Nat.min c (length s))%nat; symmetry; apply nth_error_None; simpl; lia.
Qed.

Lemma slice_assign_head f c s d i :
  length s = length d -> (i < c)%nat -> nth_error (slice_assign f c s d) i = option_map f (nth_error s i).
Proof.
  intros H Hi. unfold slice_assign.
  destruct (Nat.lt_ge_cases i (length s)) as [Hs|Hs].
  - rewrite nth_error_app1 by (rewrite length_map, length_firstn; lia).
    rewrite nth_error_map, nth_error_firstn.
    replace (i <? c)%nat with true by (symmetry; apply Nat.ltb_lt; lia). reflexivity.
  - rewrite nth_error_app2 by (rewrite length_map, length_firstn; lia).
    rewrite skipn_all2 by lia.
    replace (nth_error s i) with (@None R) by (symmetry; apply nth_error_None; lia).
    destruct (i - length (map f (firstn c s)))%nat; reflexivity.
Qed.

(** The pass facts shared by the aging and hydraulic passes: a pass
    [exp (- (x / k))] with [0 < k]. *)
Lemma decay_pass_spec (k : R) (count : nat) (src dst : list R) :
  0 < k -> length src = length dst ->
  let r := slice_assign (fun a => exp (- (a / k))) count src dst in
  length r = length dst /\
  (forall i, (count <= i)%nat -> nth_error r i = nth_error dst i) /\
  (forall i a, (i < count)%nat -> nth_error src i = Some a -> 0 <= a ->
     exists e, nth_error r i = Some e /\ 0 <= e <= 1) /\
  (forall i j a b ei ej, (i < count)%nat -> (j < count)%nat ->
     nth_error src i = Some a -> nth_error src j = Some b -> a <= b ->
     nth_error r i = Some ei -> nth_error r j = Some ej -> ej <= ei).
Proof.
  intros Hk Hl r. subst r. split; [|split; [|split]].
  - apply slice_assign_length. exact Hl.
  - intros i Hi. apply slice_assign_tail; assumption.
  - intros i a Hi Ha Ha0. rewrite slice_assign_head by assumption. rewrite Ha.
    eexists. split; [reflexivity|]. apply exp_nonpos_le_1.
    assert (0 <= a / k) by (unfold Rdiv; apply Rmult_le_pos; [lra|left; apply Rinv_0_lt_compat; lra]). lra.
  - intros i j a b ei ej Hi Hj Ha Hb Hab Hei Hej.
    rewrite slice_assign_head in Hei, Hej by assumption.
    rewrite Ha in Hei. rewrite Hb in Hej. simpl in Hei, Hej.
    injection Hei as <-. injection Hej as <-.
    apply exp_le_mono. apply Ropp_le_contravar.
    unfold Rdiv. apply Rmult_le_compat_r; [left; apply Rinv_0_lt_compat; exact Hk|exact Hab].
Qed.

(** [X9]: [calculate_environment_efficiency] lies in [0, 1] and is 1 when
    the temperature and the humidity are both at the genes' optima. *)
Theorem environment_efficiency_range (temperature humidity : R) (genes : plant_genes) :
  temperature_tolerance genes <> 0 -> humidity_tolerance genes <> 0 ->
  0 <= calculate_environment_efficiency temperature humidity genes <= 1 /\
  (temperature = optimal_temperature genes -> humidity = optimal_humidity genes ->
   calculate_environment_efficiency temperature humidity genes = 1).
Proof.
  intros _ _. unfold calculate_environment_efficiency. split.
  - pose proof (gauss_factor_range (Rabs (temperature - optimal_temperature genes))
                  (temperature_tolerance genes)) as [A1 A2].
    pose proof (gauss_factor_range (Rabs (humidity - optimal_humidity genes))
                  (humidity_tolerance genes)) as [B1 B2].
    split; [apply Rmult_le_pos; assumption|].
    rewrite <- (Rmult_1_r 1). apply Rmult_le_compat; assumption.
  - intros -> ->. rewrite !Rminus_diag, Rabs_R0. unfold Rdiv. rewrite !Rmult_0_l.
    simpl. rewrite !Rmult_0_l, Ropp_0, exp_0. lra.
Qed.

Lemma environment_efficiency_range_witness :
  0.2 <> 0 /\ 0.3 <> 0 /\
  0 <= calculate_environment_efficiency 0.65 0.6 default_genes <= 1 /\
  (0.65 = 0.65 -> 0.6 = 0.6 -> calculate_environment_efficiency 0.65 0.6 default_genes = 1).
Proof.
  split; [lra|]. split; [lra|].
  apply (environment_efficiency_range 0.65 0.6 default_genes); simpl; lra.
Defined.

(** [X10]: moving the temperature or the humidity no closer to the optimum
    never raises [calculate_environment_efficiency]. *)
Theorem environment_efficiency_monotone (t1 h1 t2 h2 : R) (genes : plant_genes) :
  temperature_tolerance genes <> 0 -> humidity_tolerance genes <> 0 ->
  Rabs (t1 - optimal_temperature genes) <= Rabs (t2 - optimal_temperature genes) ->
  Rabs (h1 - optimal_humidity genes) <= Rabs (h2 - optimal_humidity genes) ->
  calculate_environment_efficiency t2 h2 genes <= calculate_environment_efficiency t1 h1 genes.
Proof.
  intros Ht Hh Dt Dh. unfold calculate_environment_efficiency.
  pose proof (gauss_factor_range (Rabs (t2 - optimal_temperature genes))
                (temperature_tolerance genes)) as [A1 _].
  pose proof (gauss_factor_range (Rabs (h2 - optimal_humidity genes))
                (humidity_tolerance genes)) as [B1 _].
  apply Rmult_le_compat; try assumption.
  - apply gauss_factor_mono; [exact Ht|apply Rabs_pos|exact Dt].
  - apply gauss_factor_mono; [exact Hh|apply Rabs_pos|exact Dh].
Qed.

Lemma environment_efficiency_monotone_witness :
  calculate_environment_efficiency 0.9 0.1 default_genes
    <= calculate_environment_efficiency 0.7 0.5 default_genes.
Proof.
  apply environment_efficiency_monotone; simpl; try lra.
  - rewrite !Rabs_right by lra. lra.
  - rewrite !Rabs_left by lra. lra.
Defined.

(** [X11]: [update_aging_efficiencies] rewrites only the slice [0, count)
    and keeps the column length; there, an age [>= 0] gives an
    efficiency in [0, 1], and an older plant never gets a higher one. *)
Theorem aging_pass_spec (count : nat) (ages aging_efficiencies : list R) :
  length ages = length aging_efficiencies ->
  let r := update_aging_efficiencies count ages aging_efficiencies in
  length r = length aging_efficiencies /\
  (forall i, (count <= i)%nat -> nth_error r i = nth_error aging_efficiencies i) /\
  (forall i a, (i < count)%nat -> nth_error ages i = Some a -> 0 <= a ->
     exists e, nth_error r i = Some e /\ 0 <= e <= 1) /\
  (forall i j a b ei ej, (i < count)%nat -> (j < count)%nat ->
     nth_error ages i = Some a -> nth_error ages j = Some b -> a <= b ->
     nth_error r i = Some ei -> nth_error r j = Some ej -> ej <= ei).
Proof.
  intros Hl. apply decay_pass_spec; [unfold PLANT_SENESCENCE_TIMESCALE_SECONDS; lra|exact Hl].
Qed.

Lemma aging_pass_spec_witness :
  length [0; 3600; 1] = length [1; 1; 1] /\
  (let r := update_aging_efficiencies 2 [0; 3600; 1] [1; 1; 1] in
  length r = length [1; 1; 1] /\
  (forall i, (2 <= i)%nat -> nth_error r i = nth_error [1; 1; 1] i) /\
  (forall i a, (i < 2)%nat -> nth_error [0; 3600; 1] i = Some a -> 0 <= a ->
     exists e, nth_error r i = Some e /\ 0 <= e <= 1) /\
  (forall i j a b ei ej, (i < 2)%nat -> (j < 2)%nat ->
     nth_error [0; 3600; 1] i = Some a -> nth_error [0; 3600; 1] j = Some b -> a <= b ->
     nth_error r i = Some ei -> nth_error r j = Some ej -> ej <= ei)).
Proof.
  split; [reflexivity|]. apply (aging_pass_spec 2 [0; 3600; 1] [1; 1; 1]). reflexivity.
Defined.

(** [X12]: [update_hydraulic_efficiencies] rewrites only the slice
    [0, count) and keeps the column length; there, a height [>= 0] gives
    an efficiency in [0, 1], and a taller plant never gets a higher one. *)
Theorem hydraulic_pass_spec (count : nat) (heights hydraulic_efficiencies : list R) :
  length heights = length hydraulic_efficiencies ->
  let r := update_hydraulic_efficiencies count heights hydraulic_efficiencies in
  length r = length hydraulic_efficiencies /\
  (forall i, (count <= i)%nat -> nth_error r i = nth_error hydraulic_efficiencies i) /\
  (forall i h, (i < count)%nat -> nth_error heights i = Some h -> 0 <= h ->
     exists e, nth_error r i = Some e /\ 0 <= e <= 1) /\
  (forall i j a b ei ej, (i < count)%nat -> (j < count)%nat ->
     nth_error heights i = Some a -> nth_error heights j = Some b -> a <= b ->
     nth_error r i = Some ei -> nth_error r j = Some ej -> ej <= ei).
Proof.
  intros Hl. apply decay_pass_spec; [unfold PLANT_MAX_HYDRAULIC_HEIGHT_CM; lra|exact Hl].
Qed.

Lemma hydraulic_pass_spec_witness :
  length [10; 250] = length [1; 1] /\
  (let r := update_hydraulic_efficiencies 1 [10; 250] [1; 1] in
  length r = length [1; 1] /\
  (forall i, (1 <= i)%nat -> nth_error r i = nth_error [1; 1] i) /\
  (forall i h, (i < 1)%nat -> nth_error [10; 250] i = Some h -> 0 <= h ->
     exists e, nth_error r i = Some e /\ 0 <= e <= 1) /\
  (forall i j a b ei ej, (i < 1)%nat -> (j < 1)%nat ->
     nth_error [10; 250] i = Some a -> nth_error [10; 250] j = Some b -> a <= b ->
     nth_error r i = Some ei -> nth_error r j = Some ej -> ej <= ei)).
Proof.
  split; [reflexivity|]. apply (hydraulic_pass_spec 1 [10; 250] [1; 1]). reflexivity.
Defined.
End PlantPassesFacts.

Module BioMoreFacts.
Import Bio BioFacts.
Local Open Scope R_scope.

(** The energy left by [_allocate_surplus_energy]: only the reserve
    investment of step 2 is taken from it. *)
Lemma allocate_energy (sr ct : R) p net ca ra ka rr time_step w :
  energy (outcome_plant (allocate_surplus_energy sr ct p net ca ra ka rr time_step w)) =
  if Rltb PLANT_GROWTH_INVESTMENT_ENERGY_RESERVE (energy p)
  then energy p - Rmin ((PLANT_GROWTH_INVESTMENT_J_PER_HOUR / SECONDS_PER_HOUR) * time_step)
                       (energy p - PLANT_GROWTH_INVESTMENT_ENERGY_RESERVE)
  else energy p.
Proof.
  unfold allocate_surplus_energy. rewrite andb_false_r. cbv zeta.
  destruct (Rltb PLANT_GROWTH_INVESTMENT_ENERGY_RESERVE (energy p)); cbn [fst snd];
  repeat match goal with
         | |- context [if ?c then _ else _] => destruct c
         | |- context [let '(_, _) := ?x in _] => destruct x
         | |- context [match crush_targets ?q ?v with _ => _ end] => destruct (crush_targets q v)
         end; reflexivity.
Qed.

(** [X13]: [_allocate_surplus_energy], whether it returns or raises from
    the crush of a neighbor, never raises the stored energy, takes at
    most one tick's growth investment from it, and never takes it below
    the growth reserve (nor below its value when already at or under
    the reserve). *)
Theorem allocate_keeps_reserve (sr ct : R) (p : plant)
    (net_energy_production canopy_area root_area core_area : R)
    (rr : row_reads) (time_step : R) (w : world_reads) :
  0 <= time_step ->
  let e' := energy (outcome_plant (allocate_surplus_energy sr ct p net_energy_production canopy_area
                           root_area core_area rr time_step w)) in
  Rmin (energy p) PLANT_GROWTH_INVESTMENT_ENERGY_RESERVE <= e' <= energy p /\
  energy p - e' <= (PLANT_GROWTH_INVESTMENT_J_PER_HOUR / SECONDS_PER_HOUR) * time_step.
Proof.
  intros Ht e'. unfold e'. rewrite allocate_energy.
  assert (0 <= PLANT_GROWTH_INVESTMENT_J_PER_HOUR / SECONDS_PER_HOUR * time_step) as Hd.
  { unfold PLANT_GROWTH_INVESTMENT_J_PER_HOUR, SECONDS_PER_HOUR. lra. }
  destruct (Rltb PLANT_GROWTH_INVESTMENT_ENERGY_RESERVE (energy p)) eqn:He.
  - apply Rltb_spec in He.
    rewrite Rmin_right by lra.
    pose proof (Rmin_l (PLANT_GROWTH_INVESTMENT_J_PER_HOUR / SECONDS_PER_HOUR * time_step)
                  (energy p - PLANT_GROWTH_INVESTMENT_ENERGY_RESERVE)).
    pose proof (Rmin_r (PLANT_GROWTH_INVESTMENT_J_PER_HOUR / SECONDS_PER_HOUR * time_step)
                  (energy p - PLANT_GROWTH_INVESTMENT_ENERGY_RESERVE)).
    pose proof (Rmin_glb (PLANT_GROWTH_INVESTMENT_J_PER_HOUR / SECONDS_PER_HOUR * time_step)
                  (energy p - PLANT_GROWTH_INVESTMENT_ENERGY_RESERVE) 0 Hd ltac:(lra)).
    lra.
  - apply Rltb_false in He. rewrite Rmin_left by lra. lra.
Qed.

(** [X14]: [_calculate_energy_balance]'s morphology step keeps the shape
    factor between [PLANT_RADIUS_TO_HEIGHT_FACTOR] and
    [PLANT_MAX_SHADE_RADIUS_TO_HEIGHT_FACTOR] when the shaded area lies
    between 0 and the canopy area. *)
Theorem adapt_morphology_bounds (p : plant) :
  PLANT_RADIUS_TO_HEIGHT_FACTOR <= radius_to_height_factor p
    <= PLANT_MAX_SHADE_RADIUS_TO_HEIGHT_FACTOR ->
  0 <= shaded_canopy_area p <= PI * radius p ^ 2 ->
  PLANT_RADIUS_TO_HEIGHT_FACTOR <= radius_to_height_factor (adapt_morphology p)
    <= PLANT_MAX_SHADE_RADIUS_TO_HEIGHT_FACTOR.
Proof.
  intros Hf Hs. unfold adapt_morphology. cbv zeta. cbn [radius_to_height_factor set_radius_to_height_factor].
  set (ca := PI * radius p ^ 2) in *.
  assert (exists s, 0 <= s <= 1 /\
            (if Rltb 0 ca then shaded_canopy_area p / ca else 0) = s) as [s [Hs01 ->]].
  { destruct (Rltb 0 ca) eqn:Hc; [|exists 0; split; [lra|reflexivity]].
    apply Rltb_spec in Hc. exists (shaded_canopy_area p / ca). split; [|reflexivity].
    split; [apply div_nonneg; lra|].
    apply (Rmult_le_reg_r ca); [exact Hc|].
    unfold Rdiv. rewrite Rmult_assoc, Rinv_l by lra. lra. }
  unfold PLANT_RADIUS_TO_HEIGHT_FACTOR, PLANT_MAX_SHADE_RADIUS_TO_HEIGHT_FACTOR,
    PLANT_MORPHOLOGY_ADAPTATION_RATE in *.
  nra.
Qed.

Lemma allocate_keeps_reserve_witness :
  0 <= 3600 /\
  (let e' := energy (outcome_plant (allocate_surplus_energy 0 0 BioDemo.rich_mature 500
                           (PI * 50 ^ 2) (PI * 50 ^ 2) (PI * 20 ^ 2) BioDemo.rows 3600
                           (BioDemo.flat_world (7 / 10) []))) in
  Rmin (energy BioDemo.rich_mature) PLANT_GROWTH_INVESTMENT_ENERGY_RESERVE <= e'
    <= energy BioDemo.rich_mature /\
  energy BioDemo.rich_mature - e'
    <= (PLANT_GROWTH_INVESTMENT_J_PER_HOUR / SECONDS_PER_HOUR) * 3600).
Proof.
  split; [lra|]. apply allocate_keeps_reserve. lra.
Defined.

Lemma adapt_morphology_bounds_witness :
  (PLANT_RADIUS_TO_HEIGHT_FACTOR <= radius_to_height_factor BioDemo.rich_mature
     <= PLANT_MAX_SHADE_RADIUS_TO_HEIGHT_FACTOR) /\
  (0 <= shaded_canopy_area BioDemo.rich_mature <= PI * radius BioDemo.rich_mature ^ 2) /\
  PLANT_RADIUS_TO_HEIGHT_FACTOR <= radius_to_height_factor (adapt_morphology BioDemo.rich_mature)
    <= PLANT_MAX_SHADE_RADIUS_TO_HEIGHT_FACTOR.
Proof.
  assert (PLANT_RADIUS_TO_HEIGHT_FACTOR <= radius_to_height_factor BioDemo.rich_mature
            <= PLANT_MAX_SHADE_RADIUS_TO_HEIGHT_FACTOR) as H1
    by (unfold PLANT_RADIUS_TO_HEIGHT_FACTOR, PLANT_MAX_SHADE_RADIUS_TO_HEIGHT_FACTOR; simpl; lra).
  assert (0 <= shaded_canopy_area BioDemo.rich_mature <= PI * radius BioDemo.rich_mature ^ 2) as H2
    by (simpl; pose proof PI_pos; nra).
  split; [exact H1|]. split; [exact H2|].
  apply adapt_morphology_bounds; assumption.
Defined.

Lemma get_soil_type_some e :
  (exists s, get_soil_type e = Some s) <-> TERRAIN_WATER_LEVEL <= e < TERRAIN_DIRT_LEVEL.
Proof.
  unfold get_soil_type, Rleb, Rltb, TERRAIN_WATER_LEVEL, TERRAIN_SAND_LEVEL,
    TERRAIN_GRASS_LEVEL, TERRAIN_DIRT_LEVEL.
  repeat (destruct (Rle_dec _ _) || destruct (Rlt_dec _ _)); simpl;
    split; (intros [s Hs]; try discriminate; lra) || (intros; eexists; reflexivity) || lra.
Qed.

(** [X15]: a [Plant] is constructed alive exactly when the elevation at
    its position lies in [TERRAIN_WATER_LEVEL, TERRAIN_DIRT_LEVEL); a
    live one gets the initial energy, a dead one energy 0. *)
Theorem new_plant_alive_iff (w : world_reads) (x y initial_energy : R) :
  (is_alive (new_plant w x y initial_energy) = true <->
   TERRAIN_WATER_LEVEL <= get_elevation w x y < TERRAIN_DIRT_LEVEL) /\
  energy (new_plant w x y initial_energy) =
    (if is_alive (new_plant w x y initial_energy) then initial_energy else 0).
Proof.
  rewrite <- get_soil_type_some. unfold new_plant. cbn [is_alive energy].
  destruct (get_soil_type (get_elevation w x y)) as [s|].
  - split; [|reflexivity]. split; [intros _; exists s; reflexivity|reflexivity].
  - split; [|reflexivity]. split; [discriminate|intros [s Hs]; discriminate].
Qed.

(** [X16]: an organ dropped after [ReproductiveOrgan.update] was already
    a fruit before the update, and its fruit age passed the fruit
    lifespan; a flower turning into a fruit is never dropped in the same
    tick. *)
Theorem organ_drop_needs_fruit_age (time_step : R) (o : organ) :
  is_ready_to_drop (organ_update time_step o) = true ->
  otype o = Fruit /\ PLANT_FRUIT_LIFESPAN_SECONDS < oage o + time_step.
Proof.
  unfold is_ready_to_drop, organ_update.
  destruct (otype o); [|cbn [otype oage]; intros H; apply Rltb_spec in H; split; [reflexivity|exact H]].
  destruct (Rltb PLANT_FLOWER_LIFESPAN_SECONDS (oage o + time_step)); cbn [otype oage];
    [|discriminate].
  intros H. apply Rltb_spec in H. unfold PLANT_FRUIT_LIFESPAN_SECONDS in H. lra.
Qed.

Lemma organ_drop_needs_fruit_age_witness :
  is_ready_to_drop (organ_update 3600 BioDemo.ripe_fruit) = true /\
  otype BioDemo.ripe_fruit = Fruit /\
  PLANT_FRUIT_LIFESPAN_SECONDS < oage BioDemo.ripe_fruit + 3600.
Proof.
  assert (is_ready_to_drop (organ_update 3600 BioDemo.ripe_fruit) = true) as H.
  { unfold organ_update, is_ready_to_drop. simpl. apply Rltb_spec.
    unfold PLANT_FRUIT_LIFESPAN_SECONDS. lra. }
  split; [exact H|]. apply organ_drop_needs_fruit_age. exact H.
Defined.

Lemma drop_fruits_acct w fruits : forall p newborns,
  let r := drop_fruits w p fruits newborns in
  exists seeds, snd r = newborns ++ seeds /\ (length seeds <= length fruits)%nat /\
  energy (fst r) = energy p - PLANT_SEED_PROVISIONING_ENERGY * INR (length seeds) /\
  (0 <= energy p -> 0 <= energy (fst r)).
Proof.
  induction fruits as [|fruit rest IH]; intros p newborns r; subst r; simpl.
  - exists []. rewrite app_nil_r. simpl. repeat split; [lia|lra|lra].
  - destruct (Rleb PLANT_SEED_PROVISIONING_ENERGY (energy p)) eqn:He;
      [|exists []; rewrite app_nil_r; simpl; repeat split; [lia|lra|lra]].
    apply Rleb_spec in He.
    destruct (disperse_seed w p fruit) as [s|].
    + match goal with |- context [drop_fruits w ?q rest ?nb] =>
        destruct (IH q nb) as (seeds & Hs & Hl & He' & Hn) end.
      exists (s :: seeds). rewrite Hs, <- app_assoc. split; [reflexivity|].
      cbn [length]. split; [lia|].
      split; [rewrite He', S_INR; cbn [energy set_reproductive_organs set_energy]; ring|].
      intros _. apply Hn. cbn [energy set_reproductive_organs set_energy]. lra.
    + match goal with |- context [drop_fruits w ?q rest ?nb] =>
        destruct (IH q nb) as (seeds & Hs & Hl & He' & Hn) end.
      exists seeds. split; [exact Hs|]. split; [cbn [length]; lia|].
      exact (conj He' Hn).
Qed.

Lemma length_filter_le {A} (f : A -> bool) l : (length (filter f l) <= length l)%nat.
Proof. induction l as [|a l IH]; simpl; [lia|destruct (f a); simpl; lia]. Qed.

(** [X17]: the organ block of [Plant.update] takes exactly
    [PLANT_SEED_PROVISIONING_ENERGY] from the parent per seed handed to
    [world.add_newborn], never takes a non-negative energy below 0, and
    hands out at most one seed per organ. *)
Theorem update_organs_energy (w : world_reads) (p : plant) (time_step : R) :
  let r := update_organs w p time_step in
  energy (fst r) = energy p - PLANT_SEED_PROVISIONING_ENERGY * INR (length (snd r)) /\
  (0 <= energy p -> 0 <= energy (fst r)) /\
  (length (snd r) <= length (reproductive_organs p))%nat.
Proof.
  intros r. unfold r, update_organs. clear r. cbv zeta.
  pose proof (length_filter_le is_ready_to_drop (map (organ_update time_step) (reproductive_organs p)))
    as Hlen.
  rewrite length_map in Hlen.
  destruct (filter is_ready_to_drop (map (organ_update time_step) (reproductive_organs p)))
    as [|f fs] eqn:Hf.
  - simpl. repeat split; [lra|lra|lia].
  - destruct (Rleb PLANT_SEED_PROVISIONING_ENERGY _) eqn:He; [|simpl; repeat split; [lra|lra|lia]].
    match goal with |- context [drop_fruits w ?q (f :: fs) []] =>
      destruct (drop_fruits_acct w (f :: fs) q []) as (seeds & Hs & Hl & He' & Hn) end.
    rewrite Hs. simpl app.
    split; [rewrite He'; reflexivity|]. split; [exact Hn|]. lia.
Qed.
End BioMoreFacts.

Module AnimalTickFacts.
Import Passes AnimalTick.
Local Open Scope R_scope.

Lemma no_step_at_speed_0 d time_step :
  Bio.Rltb (sqrt d) (ANIMAL_SPEED_CM_PER_SEC * time_step) = false.
Proof.
  destruct (Bio.Rltb _ _) eqn:H; [|reflexivity].
  apply BioFacts.Rltb_spec in H. pose proof (sqrt_pos d). unfold ANIMAL_SPEED_CM_PER_SEC in H. lra.
Qed.

Lemma norm_pos_iff mx my : 0 < sqrt (mx ^ 2 + my ^ 2) <-> ~ (mx = 0 /\ my = 0).
Proof.
  split.
  - intros H [-> ->]. rewrite pow_i, Rplus_0_r, sqrt_0 in H by lia. lra.
  - intros H. apply sqrt_lt_R0.
    destruct (Req_dec mx 0) as [->|Hx].
    + assert (my <> 0) by tauto. simpl. nra.
    + simpl. assert (0 < mx * mx) by (apply Rsqr_pos_lt; exact Hx). nra.
Qed.

Lemma norm_zero mx my : ~ 0 < sqrt (mx ^ 2 + my ^ 2) -> mx = 0 /\ my = 0.
Proof.
  intros H. pose proof (sqrt_pos (mx ^ 2 + my ^ 2)).
  assert (sqrt (mx ^ 2 + my ^ 2) = 0) as Hz by lra.
  apply sqrt_eq_0 in Hz; [|simpl; nra]. simpl in Hz. split; nra.
Qed.

(** [X18]: a tick of a live animal never eats (its speed is 0): the
    energy after it is the energy minus the metabolism cost, minus the
    reproduction cost when that is paid.  The tick ends normally only
    when the animal pays for reproduction, or when it has no live target,
    finds none and draws the null wander vector; in every other case,
    starvation included, it raises [AttributeError] from
    [quadtree.remove]. *)
Theorem animal_tick_outcome (plant_alive : nat -> bool) (a : animal) (time_step : R)
    (closest : option target) (move_x move_y : R) :
  aalive a = true ->
  let e := aenergy a - ANIMAL_METABOLISM_PER_SECOND * time_step in
  let idle := (match target_plant a with Some t => plant_alive (tid t) = false | None => True end)
              /\ closest = None /\ move_x = 0 /\ move_y = 0 in
  match update plant_alive a time_step closest move_x move_y with
  | Done a' =>
      0 < e /\
      ((CREATURE_REPRODUCTION_ENERGY_COST <= e /\
        aenergy a' = e - CREATURE_REPRODUCTION_ENERGY_COST) \/
       (e < CREATURE_REPRODUCTION_ENERGY_COST /\ idle /\ aenergy a' = e))
  | Raised a' err =>
      err = remove_error /\ aenergy a' = e /\
      (e <= 0 \/ (e < CREATURE_REPRODUCTION_ENERGY_COST /\ ~ idle))
  end.
Proof.
  intros Ha e idle. unfold update. rewrite Ha. cbn [negb].
  cbn [aenergy set_aenergy set_aage].
  fold e.
  destruct (Bio.Rleb e 0) eqn:He0.
  - apply BioFacts.Rleb_spec in He0. unfold die. cbn [aalive set_aenergy set_aage]. rewrite Ha.
    cbn [aenergy set_aalive set_aenergy]. split; [reflexivity|]. split; [reflexivity|]. left; exact He0.
  - apply BioFacts.Rleb_false in He0.
    destruct (Bio.Rleb CREATURE_REPRODUCTION_ENERGY_COST e) eqn:Hr.
    + apply BioFacts.Rleb_spec in Hr. split; [lra|]. left. split; [exact Hr|reflexivity].
    + apply BioFacts.Rleb_false in Hr.
      unfold idle. clear idle.
      cbn [target_plant set_aenergy set_aage ax ay aenergy].
      destruct (target_plant a) as [t|] eqn:Ht;
        [destruct (plant_alive (tid t)) eqn:Hpa|]; cbn [negb target_plant set_target set_aenergy set_aage];
        rewrite ?Ht; cbn [negb target_plant set_target set_aenergy set_aage];
        [|destruct closest as [c|]..]; cbn [target_plant set_target ax ay set_aenergy set_aage];
        rewrite ?Ht; cbn [target_plant set_target ax ay set_aenergy set_aage];
        try (destruct (ax a), (ay a); rewrite ?no_step_at_speed_0;
             cbn [aenergy set_pos set_target set_aenergy set_aage];
             refine (conj eq_refl (conj eq_refl (or_intror (conj Hr _))));
             intros (H1 & H2 & _); congruence).
      all: match goal with |- context [Bio.Rltb 0 ?n] => destruct (Bio.Rltb 0 n) eqn:Hn end;
        cbn [aenergy set_pos set_target set_aenergy set_aage].
      all: match goal with
           | Hn : Bio.Rltb 0 _ = true |- _ =>
               apply BioFacts.Rltb_spec, norm_pos_iff in Hn;
               split; [reflexivity|]; split; [reflexivity|]; right; split; [exact Hr|];
               intros (_ & _ & H3 & H4); tauto
           | Hn : Bio.Rltb 0 _ = false |- _ =>
               apply BioFacts.Rltb_false in Hn;
               pose proof (norm_zero move_x move_y ltac:(lra)) as [Hx Hy];
               split; [lra|]; right; split; [exact Hr|]; split; [|reflexivity];
               repeat split; (reflexivity || assumption)
           end.
Qed.

Lemma animal_tick_outcome_witness :
  aalive still_animal = true /\
  (let e := aenergy still_animal - ANIMAL_METABOLISM_PER_SECOND * 60 in
   let idle := (match target_plant still_animal with
                | Some t => (fun _ => true) (tid t) = false | None => True end)
               /\ @None target = None /\ 1 / 2 = 0 /\ 0 = 0 in
   match update (fun _ => true) still_animal 60 None (1 / 2) 0 with
   | Done a' =>
       0 < e /\
       ((CREATURE_REPRODUCTION_ENERGY_COST <= e /\
         aenergy a' = e - CREATURE_REPRODUCTION_ENERGY_COST) \/
        (e < CREATURE_REPRODUCTION_ENERGY_COST /\ idle /\ aenergy a' = e))
   | Raised a' err =>
       err = remove_error /\ aenergy a' = e /\
       (e <= 0 \/ (e < CREATURE_REPRODUCTION_ENERGY_COST /\ ~ idle))
   end).
Proof.
  split; [reflexivity|].
  apply (animal_tick_outcome (fun _ => true) still_animal 60 None (1 / 2) 0). reflexivity.
Defined.
End AnimalTickFacts.
